(** * The markdown formatter hook ([markdown_formatter.py])

    A shallow embedding of the hook: the language detector
    [detect_language], the document transform [format_markdown] (fence
    rewriting, blank-line collapsing, final strip) and the module-level
    driver that reads a request from standard input and rewrites the
    file it names.

    Python strings are modelled as lists of characters with code points
    below 256; the regular expressions of the source are kept as syntax
    trees and run by a backtracking matcher that follows the order in
    which Python's [re] explores alternatives and repetitions. *)

From Stdlib Require Import Ascii String List ZArith Lia Bool.
From stdpp Require Import base option list gmap strings.
Import ListNotations.

Set Warnings "-register-all".
Set Default Proof Using "Type".

(** ** Text *)

Definition str := list ascii.

Definition lit (s : string) : str := list_ascii_of_string s.

Definition LF : ascii := "010"%char.
Definition TAB : ascii := "009"%char.
Definition QUOTE : ascii := "034"%char.

Definition code (c : ascii) : N := N_of_ascii c.

Definition between (lo hi n : N) : bool := ((lo <=? n) && (n <=? hi))%N.

(** [str.isspace] on one character: the code points below 256 that
    Python counts as whitespace.  [str.strip] and the pattern [\s] use
    the same test. *)
Definition isspace (c : ascii) : bool :=
  let n := code c in
  between 9 13 n || between 28 32 n || (n =? 133)%N || (n =? 160)%N.

(** [str.isalnum] on one character, and the pattern [\w]. *)
Definition isalnum (c : ascii) : bool :=
  let n := code c in
  between 48 57 n || between 65 90 n || between 97 122 n
  || (n =? 170)%N || between 178 179 n || (n =? 181)%N
  || between 185 186 n || between 188 190 n
  || between 192 214 n || between 216 246 n || between 248 255 n.

Definition isword (c : ascii) : bool :=
  isalnum c || (code c =? 95)%N.

Definition lower (c : ascii) : ascii :=
  let n := code c in
  if between 65 90 n || (between 192 222 n && negb (n =? 215)%N)
  then ascii_of_N (n + 32) else c.

Definition upper (c : ascii) : ascii :=
  let n := code c in
  if between 97 122 n || (between 224 254 n && negb (n =? 247)%N)
  then ascii_of_N (n - 32) else c.

Definition ascii_eqb (a b : ascii) : bool := (code a =? code b)%N.

Fixpoint lstrip (s : str) : str :=
  match s with
  | c :: s' => if isspace c then lstrip s' else s
  | [] => []
  end.

Definition rstrip (s : str) : str := rev (lstrip (rev s)).

Definition strip (s : str) : str := rstrip (lstrip s).

Fixpoint startswith (p s : str) : bool :=
  match p, s with
  | [], _ => true
  | a :: p', b :: s' => ascii_eqb a b && startswith p' s'
  | _ :: _, [] => false
  end.

Definition endswith (s suffix : str) : bool :=
  startswith (rev suffix) (rev s).

(** ** Regular expressions *)

Module Re.

Record flags := Flags {
  ignorecase : bool;   (* re.I *)
  multiline : bool;    (* re.M *)
  dotall : bool        (* re.S *)
}.

Definition no_flags := Flags false false false.
Definition flag_M := Flags false true false.
Definition flag_I := Flags true false false.
Definition flag_MS := Flags false true true.

(** Members of a bracketed set. *)
Inductive item :=
| IChar (c : ascii)
| IRange (lo hi : ascii).

(** Patterns that consume exactly one character. *)
Inductive atom :=
| Lit (c : ascii)               (* a literal character *)
| Dot                           (* .   *)
| Space                         (* \s  *)
| Word                          (* \w  *)
| OneOf (items : list item)     (* [...]  *)
| NoneOf (items : list item).   (* [^...] *)

(** Every repetition in the source is applied to a one-character
    pattern, so [Rep] takes an atom. *)
Inductive re :=
| Eps
| One (a : atom)
| Bol                           (* ^   *)
| Eol                           (* $   *)
| Boundary                      (* \b  *)
| Seq (r1 r2 : re)
| Alt (r1 r2 : re)
| Rep (a : atom) (lo : nat) (hi : option nat) (greedy : bool)
| Group (n : nat) (r : re)      (* (...), numbered *)
| Backref (n : nat).            (* \n  *)

Fixpoint text (s : str) : re :=
  match s with
  | [] => Eps
  | c :: s' => Seq (One (Lit c)) (text s')
  end.

Definition cat (rs : list re) : re := foldr Seq Eps rs.

Definition alt (rs : list re) : re :=
  match rs with
  | [] => Eps
  | r :: rs' => foldl (fun acc x => Alt acc x) r rs'
  end.

Definition star (a : atom) : re := Rep a 0 None true.
Definition plus (a : atom) : re := Rep a 1 None true.

(** The position of the matcher in the subject: the character before
    it (none at the start of the string), the text after it, the number
    of characters consumed since the match began, and the groups
    captured so far (most recent first). *)
Record mstate := MState {
  ms_prev : option ascii;
  ms_rest : str;
  ms_pos : nat;
  ms_caps : list (nat * str)
}.

Fixpoint cap_lookup (n : nat) (caps : list (nat * str)) : option str :=
  match caps with
  | [] => None
  | (i, s) :: caps' => if Nat.eqb i n then Some s else cap_lookup n caps'
  end.

Definition item_ok (fl : flags) (c : ascii) (i : item) : bool :=
  match i with
  | IChar x =>
      if ignorecase fl then ascii_eqb (lower x) (lower c) else ascii_eqb x c
  | IRange lo hi =>
      let inside y := between (code lo) (code hi) (code y) in
      inside c || (ignorecase fl && (inside (lower c) || inside (upper c)))
  end.

Definition atom_ok (fl : flags) (a : atom) (c : ascii) : bool :=
  match a with
  | Lit x =>
      if ignorecase fl then ascii_eqb (lower x) (lower c) else ascii_eqb x c
  | Dot => dotall fl || negb (ascii_eqb c LF)
  | Space => isspace c
  | Word => isword c
  | OneOf items => existsb (item_ok fl c) items
  | NoneOf items => negb (existsb (item_ok fl c) items)
  end.

Definition at_bol (fl : flags) (prev : option ascii) : bool :=
  match prev with
  | None => true
  | Some c => multiline fl && ascii_eqb c LF
  end.

Definition at_eol (fl : flags) (rest : str) : bool :=
  match rest with
  | [] => true
  | c :: rest' =>
      ascii_eqb c LF && (multiline fl || match rest' with [] => true | _ => false end)
  end.

Definition word_before (prev : option ascii) : bool :=
  match prev with Some c => isword c | None => false end.

Definition word_after (rest : str) : bool :=
  match rest with c :: _ => isword c | [] => false end.

Definition at_boundary (prev : option ascii) (rest : str) : bool :=
  xorb (word_before prev) (word_after rest).

Definition room (hi : option nat) : bool :=
  match hi with Some 0 => false | _ => true end.

Definition less (hi : option nat) : option nat := pred <$> hi.

Section Repeat.
Context {R : Type}.
Variable ok : ascii -> bool.
Variable k : option ascii -> str -> nat -> option R.

(** Greedy repetition: take as many characters as allowed, then give
    them back one at a time until the rest of the pattern matches. *)
Fixpoint rep_greedy (lo : nat) (hi : option nat)
    (prev : option ascii) (rest : str) (pos : nat) : option R :=
  let stop := match lo with 0 => k prev rest pos | S _ => None end in
  match rest with
  | c :: rest' =>
      if ok c && room hi then
        match rep_greedy (pred lo) (less hi) (Some c) rest' (S pos) with
        | Some r => Some r
        | None => stop
        end
      else stop
  | [] => stop
  end.

(** Lazy repetition: try the rest of the pattern first, and take one
    more character only when that fails. *)
Fixpoint rep_lazy (lo : nat) (hi : option nat)
    (prev : option ascii) (rest : str) (pos : nat) : option R :=
  let stop := match lo with 0 => k prev rest pos | S _ => None end in
  match stop with
  | Some r => Some r
  | None =>
      match rest with
      | c :: rest' =>
          if ok c && room hi
          then rep_lazy (pred lo) (less hi) (Some c) rest' (S pos)
          else None
      | [] => None
      end
  end.
End Repeat.

Definition set_cap (n : nat) (from to : mstate) : mstate :=
  MState (ms_prev to) (ms_rest to) (ms_pos to)
         ((n, take (ms_pos to - ms_pos from) (ms_rest from)) :: ms_caps to).

Definition last_of (prev : option ascii) (s : str) : option ascii :=
  match last s with Some c => Some c | None => prev end.

Definition same_text (fl : flags) (a b : str) : bool :=
  if ignorecase fl then bool_decide (map lower a = map lower b)
  else bool_decide (a = b).

(** The backtracking matcher, in continuation-passing style: [k] is the
    rest of the pattern, and the first path that succeeds is the
    match. *)
Fixpoint exec (fl : flags) (r : re) (st : mstate)
    (k : mstate -> option mstate) : option mstate :=
  match r with
  | Eps => k st
  | One a =>
      match ms_rest st with
      | c :: rest' =>
          if atom_ok fl a c
          then k (MState (Some c) rest' (S (ms_pos st)) (ms_caps st))
          else None
      | [] => None
      end
  | Bol => if at_bol fl (ms_prev st) then k st else None
  | Eol => if at_eol fl (ms_rest st) then k st else None
  | Boundary => if at_boundary (ms_prev st) (ms_rest st) then k st else None
  | Seq r1 r2 => exec fl r1 st (fun st1 => exec fl r2 st1 k)
  | Alt r1 r2 =>
      match exec fl r1 st k with
      | Some m => Some m
      | None => exec fl r2 st k
      end
  | Rep a lo hi greedy =>
      (if greedy then rep_greedy else rep_lazy)
        (atom_ok fl a)
        (fun prev rest pos => k (MState prev rest pos (ms_caps st)))
        lo hi (ms_prev st) (ms_rest st) (ms_pos st)
  | Group n r1 => exec fl r1 st (fun st1 => k (set_cap n st st1))
  | Backref n =>
      match cap_lookup n (ms_caps st) with
      | Some s =>
          let len := length s in
          let t := take len (ms_rest st) in
          if same_text fl s t
          then k (MState (last_of (ms_prev st) t) (drop len (ms_rest st))
                         (ms_pos st + len) (ms_caps st))
          else None
      | None => None
      end
  end.

(** One attempt at the current position. *)
Definition match_here (fl : flags) (r : re)
    (prev : option ascii) (rest : str) : option mstate :=
  exec fl r (MState prev rest 0 []) Some.

(** [re.search]: the first position, left to right, with a match. *)
Fixpoint search_from (fl : flags) (r : re)
    (prev : option ascii) (rest : str) : option (nat * mstate) :=
  match match_here fl r prev rest with
  | Some m => Some (0, m)
  | None =>
      match rest with
      | [] => None
      | c :: rest' =>
          match search_from fl r (Some c) rest' with
          | Some (i, m) => Some (S i, m)
          | None => None
          end
      end
  end.

Definition search (fl : flags) (r : re) (s : str) : bool :=
  bool_decide (is_Some (search_from fl r None s)).

(** A match object: the matched text (group 0) and the final state with
    its captures. *)
Record mobj := MObj { whole : str; final : mstate }.

Definition group (n : nat) (m : mobj) : str :=
  default [] (cap_lookup n (ms_caps (final m))).

(** What [re.sub] sees while it walks the subject: a character copied
    as it is, or a match handed to the replacement. *)
Inductive piece :=
| Keep (c : ascii)
| Hit (m : mobj).

(** The walk of [re.sub]: at each position try a match; on success the
    scan resumes where the match ended ([skip] counts the characters of
    the match still to pass over). Both patterns the source substitutes
    match at least one character; an empty match would be replaced and
    the character after it copied. *)
Fixpoint scan (fl : flags) (r : re) (skip : nat)
    (prev : option ascii) (rest : str) : list piece :=
  match skip with
  | S n =>
      match rest with
      | [] => []
      | c :: rest' => scan fl r n (Some c) rest'
      end
  | 0 =>
      match match_here fl r prev rest with
      | Some m =>
          Hit (MObj (take (ms_pos m) rest) m) ::
          match rest with
          | [] => []
          | c :: rest' =>
              match ms_pos m with
              | 0 => Keep c :: scan fl r 0 (Some c) rest'
              | S n => scan fl r n (Some c) rest'
              end
          end
      | None =>
          match rest with
          | [] => []
          | c :: rest' => Keep c :: scan fl r 0 (Some c) rest'
          end
      end
  end.

Definition render (repl : mobj -> str) (p : piece) : str :=
  match p with
  | Keep c => [c]
  | Hit m => repl m
  end.

(** [re.sub(pattern, repl, s)] with a function as replacement. *)
Definition sub (fl : flags) (r : re) (repl : mobj -> str) (s : str) : str :=
  concat (map (render repl) (scan fl r 0 None s)).

End Re.

Import Re.

(** ** Values produced by the JSON decoder *)

(** What [json.load] returns: [None], a bool, a number (kept as its
    lexeme), a string, a list, or a dict with string keys. *)
Inductive pyval :=
| PNone
| PBool (b : bool)
| PNum (lexeme : str)
| PStr (s : str)
| PList (items : list pyval)
| PDict (d : gmap str pyval).

(** ** The patterns of the source *)

(** "^\s*[{\[]" *)
Definition json_start : re :=
  cat [Bol; star Space; One (OneOf [IChar "{"; IChar "["])].

(** "^\s*def\s+\w+\s*\(" *)
Definition py_def : re :=
  cat [Bol; star Space; text (lit "def"); plus Space; plus Word;
       star Space; One (Lit "(")].

(** "^\s*(import|from)\s+\w+" *)
Definition py_import : re :=
  cat [Bol; star Space;
       Group 1 (alt [text (lit "import"); text (lit "from")]);
       plus Space; plus Word].

(** "\b(function\s+\w+\s*\(|const\s+\w+\s*=)" *)
Definition js_decl : re :=
  cat [Boundary;
       Group 1 (alt [cat [text (lit "function"); plus Space; plus Word;
                          star Space; One (Lit "(")];
                     cat [text (lit "const"); plus Space; plus Word;
                          star Space; One (Lit "=")]])].

(** "=>|console\.(log|error)" *)
Definition js_arrow : re :=
  alt [text (lit "=>");
       cat [text (lit "console"); One (Lit ".");
            Group 1 (alt [text (lit "log"); text (lit "error")])]].

(** "^#!.*\b(bash|sh)\b", with re.M *)
Definition sh_bang : re :=
  cat [Bol; text (lit "#!"); star Dot; Boundary;
       Group 1 (alt [text (lit "bash"); text (lit "sh")]); Boundary].

(** "\b(if|then|fi|for|in|do|done)\b" *)
Definition sh_words : re :=
  cat [Boundary;
       Group 1 (alt [text (lit "if"); text (lit "then"); text (lit "fi");
                     text (lit "for"); text (lit "in"); text (lit "do");
                     text (lit "done")]);
       Boundary].

(** "\b(SELECT|INSERT|UPDATE|DELETE|CREATE)\s+", with re.I *)
Definition sql_words : re :=
  cat [Boundary;
       Group 1 (alt [text (lit "SELECT"); text (lit "INSERT");
                     text (lit "UPDATE"); text (lit "DELETE");
                     text (lit "CREATE")]);
       plus Space].

Definition FENCE : str := lit "```".

(** [fence_pattern] of [format_markdown], compiled with the flags m and
    s: a line start; group 1, up to three spaces or tabs; three
    backticks; group 2, the rest of the line; a newline; group 3, the
    body, as short as possible; group 4, a newline, the text of group 1
    again and three backticks; any whitespace; a line end. *)
Definition fence_pattern : re :=
  cat [Bol;
       Group 1 (Rep (OneOf [IChar " "; IChar TAB]) 0 (Some 3) true);
       text FENCE;
       Group 2 (star (NoneOf [IChar LF]));
       One (Lit LF);
       Group 3 (Rep Dot 0 None false);
       Group 4 (cat [One (Lit LF); Backref 1; text FENCE]);
       star Space;
       Eol].

(** "\n{3,}" *)
Definition blank_lines : re :=
  Rep (Lit LF) 3 None true.

(** ** The language detector and the document transform *)

Definition languages : list str :=
  [lit "json"; lit "python"; lit "javascript"; lit "bash"; lit "sql";
   lit "text"].

Section Formatter.

(** [json.loads] belongs to Python's library, not to the repository:
    the formatter is stated over any decoder.  [None] stands for
    [json.JSONDecodeError], the error the decoder raises on a
    document that is not JSON. *)
Variable json_loads : str -> option pyval.

Definition detect_language (code : str) : str :=
  let s := strip code in
  if search no_flags json_start s && bool_decide (is_Some (json_loads s))
  then lit "json"
  else if search flag_M py_def s || search flag_M py_import s
  then lit "python"
  else if search no_flags js_decl s || search no_flags js_arrow s
  then lit "javascript"
  else if search flag_M sh_bang s || search no_flags sh_words s
  then lit "bash"
  else if search flag_I sql_words s
  then lit "sql"
  else lit "text".

Definition add_lang_to_fence (m : mobj) : str :=
  let indent := group 1 m in
  let info := group 2 m in
  let body := group 3 m in
  let closing := group 4 m in
  if bool_decide (strip info = [])
  then indent ++ FENCE ++ detect_language body ++ [LF] ++ body ++ closing ++ [LF]
  else whole m.

Definition rewrite_fences (text : str) : str :=
  sub flag_MS fence_pattern add_lang_to_fence text.

Definition collapse_blank_lines (text : str) : str :=
  sub no_flags blank_lines (fun _ => [LF; LF]) text.

Definition format_markdown (text : str) : str :=
  let formatted_content := rewrite_fences text in
  let formatted_content := collapse_blank_lines formatted_content in
  rstrip formatted_content ++ [LF].

End Formatter.

(** ** The process: standard input, the file system, the exit status *)

Inductive exn :=
| JSONDecodeError
| OSError
| UnicodeDecodeError
| AttributeError
| ValueError
| UnicodeEncodeError
| RecursionError
| SystemExit (status : Z).

(** What a path of the file system holds: a text file (its decoded
    content, and whether it can be opened for writing), a file whose
    bytes are not UTF-8, or an entry that cannot be opened at all (a
    directory, a file without permission). *)
Inductive node :=
| File (content : str) (writable : bool)
| Undecodable
| Unreadable.

Inductive mode := ForReading | ForWriting.

(** What the process prints: the two messages of the script, one line
    each, and the report of the interpreter on an uncaught exception,
    a traceback of several lines that is kept as one entry. *)
Inductive line :=
| Fixed (path : str)        (* the confirmation on standard output *)
| Failed (e : exn)          (* "Error formatting markdown: ..." *)
| Traceback (e : exn).      (* the interpreter's report of an uncaught exception *)

Record world := World {
  files : gmap str node;
  opened : list (str * mode);   (* every open(), oldest first *)
  stdout : list line;
  stderr : list line
}.

Inductive res (A : Type) :=
| Ok (a : A)
| Raise (e : exn).
Arguments Ok {A} a.
Arguments Raise {A} e.

(** Statements of the script: they change the world and either finish
    or raise. *)
Definition M (A : Type) : Type := world -> res A * world.

Definition ret {A} (a : A) : M A := fun w => (Ok a, w).

Definition raise {A} (e : exn) : M A := fun w => (Raise e, w).

Definition bind {A B} (m : M A) (f : A -> M B) : M B :=
  fun w =>
    match m w with
    | (Ok a, w1) => f a w1
    | (Raise e, w1) => (Raise e, w1)
    end.

Notation "'do' x <- m ; k" := (bind m (fun x => k))
  (at level 10, x name, m at level 100, k at level 200).

Definition lift {A} (r : res A) : M A := fun w => (r, w).

Definition note_open (p : str) (md : mode) (w : world) : world :=
  World (files w) (opened w ++ [(p, md)]) (stdout w) (stderr w).

(** [os.path.exists] *)
Definition path_exists (p : str) : M bool :=
  fun w => (Ok (bool_decide (is_Some (files w !! p))), w).

(** [with open(p, 'r', encoding='utf-8') as f: f.read()] *)
Definition read_text (p : str) : M str :=
  fun w =>
    let w1 := note_open p ForReading w in
    match files w !! p with
    | Some (File content _) => (Ok content, w1)
    | Some Undecodable => (Raise UnicodeDecodeError, w1)
    | Some Unreadable | None => (Raise OSError, w1)
    end.

(** [with open(p, 'w', encoding='utf-8') as f: f.write(s)] *)
Definition write_text (p : str) (s : str) : M unit :=
  fun w =>
    let w1 := note_open p ForWriting w in
    match files w !! p with
    | Some (File _ true) | None =>
        (Ok tt, World (<[p := File s true]> (files w1)) (opened w1)
                      (stdout w1) (stderr w1))
    | Some (File _ false) | Some Undecodable | Some Unreadable =>
        (Raise OSError, w1)
    end.

Definition print (l : line) : M unit :=
  fun w => (Ok tt, World (files w) (opened w) (stdout w ++ [l]) (stderr w)).

Definition eprint (l : line) (w : world) : world :=
  World (files w) (opened w) (stdout w) (stderr w ++ [l]).

(** [v.get(key, dflt)]: only a dict has the method. *)
Definition py_get (v : pyval) (key : str) (dflt : pyval) : res pyval :=
  match v with
  | PDict d => Ok (default dflt (d !! key))
  | _ => Raise AttributeError
  end.

Definition is_markdown (p : str) : bool :=
  endswith p (lit ".md") || endswith p (lit ".mdx").

Section Driver.

Variable json_loads : str -> option pyval.

(** [json.load(sys.stdin)] *)
Definition json_load (stdin : str) : res pyval :=
  match json_loads stdin with
  | Some v => Ok v
  | None => Raise JSONDecodeError
  end.

(** [input_data.get('tool_input', {}).get('file_path', '')] *)
Definition extract_path (input_data : pyval) : res pyval :=
  match py_get input_data (lit "tool_input") (PDict ∅) with
  | Ok tool_input => py_get tool_input (lit "file_path") (PStr [])
  | Raise e => Raise e
  end.

(** The body of the module-level [try]. *)
Definition main (stdin : str) : M unit :=
  do input_data <- lift (json_load stdin);
  do file_path <- lift (extract_path input_data);
  match file_path with
  | PStr p =>
      if negb (is_markdown p) then raise (SystemExit 0)
      else
        do found <- path_exists p;
        if found then
          do content <- read_text p;
          let formatted := format_markdown json_loads content in
          if bool_decide (formatted = content) then ret tt
          else (do _ <- write_text p formatted; print (Fixed p))
        else ret tt
  | _ => raise AttributeError    (* no method endswith *)
  end.

(** The exceptions named by the [except] clause. *)
Definition handled (e : exn) : bool :=
  match e with
  | JSONDecodeError | OSError | UnicodeDecodeError => true
  | AttributeError | ValueError | UnicodeEncodeError | RecursionError
  | SystemExit _ => false
  end.

(** The whole run: the [try] with its handler, and what the
    interpreter does with whatever leaves it. The exit status comes
    with the world the process leaves behind. *)
Definition run (stdin : str) (w : world) : Z * world :=
  match main stdin w with
  | (Ok _, w1) => (0%Z, w1)
  | (Raise (SystemExit status), w1) => (status, w1)
  | (Raise e, w1) =>
      if handled e then (1%Z, eprint (Failed e) w1)
      else (1%Z, eprint (Traceback e) w1)
  end.

End Driver.

(** ** The hook with the other ways its calls can end

    The definitions above take [json.loads] as a decoder that returns
    a value or fails with the error its caller expects, a file system
    in which a write happens or is refused when the file is opened,
    and a standard output that takes every line.  The definitions of
    this module follow the same source lines with the other endings of
    these calls: [json.loads] may raise any exception, [open(path, 'w')]
    empties the file before anything is written to it, writing to the
    opened file may fail, and [print] may raise. *)

Module Raising.

(** The [except (json.JSONDecodeError, ValueError)] of the detector.
    [JSONDecodeError], [UnicodeDecodeError] and [UnicodeEncodeError]
    are subclasses of [ValueError]. *)
Definition is_value_error (e : exn) : bool :=
  match e with
  | JSONDecodeError | ValueError | UnicodeDecodeError | UnicodeEncodeError =>
      true
  | OSError | AttributeError | RecursionError | SystemExit _ => false
  end.

(** The decoder as the definitions above take it: its value, or no
    value when it raises. *)
Definition answers (json_loads : str -> res pyval) : str -> option pyval :=
  fun s => match json_loads s with Ok v => Some v | Raise _ => None end.

(** [re.sub] with a replacement function that may raise: the matches
    are replaced from left to right, and the first exception ends the
    substitution. *)
Fixpoint replace_all (repl : mobj -> res str) (ps : list piece) : res str :=
  match ps with
  | [] => Ok []
  | Keep c :: ps' =>
      match replace_all repl ps' with
      | Ok t => Ok (c :: t)
      | Raise e => Raise e
      end
  | Hit m :: ps' =>
      match repl m with
      | Ok s =>
          match replace_all repl ps' with
          | Ok t => Ok (s ++ t)
          | Raise e => Raise e
          end
      | Raise e => Raise e
      end
  end.

Section Hook.

(** [json.loads], and [json.load] on the text of standard input: the
    value returned or the exception raised. *)
Variable json_loads : str -> res pyval.

(** The first rule of the detector: whether it returns [json]. *)
Definition try_json (s : str) : res bool :=
  if search no_flags json_start s
  then match json_loads s with
       | Ok _ => Ok true
       | Raise e => if is_value_error e then Ok false else Raise e
       end
  else Ok false.

Definition detect_language (code : str) : res str :=
  let s := strip code in
  match try_json s with
  | Raise e => Raise e
  | Ok true => Ok (lit "json")
  | Ok false =>
      Ok (if search flag_M py_def s || search flag_M py_import s
          then lit "python"
          else if search no_flags js_decl s || search no_flags js_arrow s
          then lit "javascript"
          else if search flag_M sh_bang s || search no_flags sh_words s
          then lit "bash"
          else if search flag_I sql_words s
          then lit "sql"
          else lit "text")
  end.

Definition add_lang_to_fence (m : mobj) : res str :=
  let indent := group 1 m in
  let info := group 2 m in
  let body := group 3 m in
  let closing := group 4 m in
  if bool_decide (strip info = [])
  then match detect_language body with
       | Ok lang =>
           Ok (indent ++ FENCE ++ lang ++ [LF] ++ body ++ closing ++ [LF])
       | Raise e => Raise e
       end
  else Ok (whole m).

Definition rewrite_fences (text : str) : res str :=
  replace_all add_lang_to_fence (scan flag_MS fence_pattern 0 None text).

Definition format_markdown (text : str) : res str :=
  match rewrite_fences text with
  | Ok formatted_content =>
      Ok (rstrip (collapse_blank_lines formatted_content) ++ [LF])
  | Raise e => Raise e
  end.

(** What the environment does with the output of the process:
    [stdout_fault] is the exception [print] raises, if it raises;
    [disk_fault] says that writing to a file that has been opened
    fails.  (A standard output that fails only when the interpreter
    flushes it at exit is not among them.) *)
Variable stdout_fault : option exn.
Variable disk_fault : bool.

(** [with open(p, 'w', encoding='utf-8') as f: f.write(s)]: opening
    the file empties it; when the write then fails the file stays
    empty. *)
Definition write_text (p : str) (s : str) : M unit :=
  fun w =>
    let w1 := note_open p ForWriting w in
    match files w !! p with
    | Some (File _ true) | None =>
        if disk_fault
        then (Raise OSError,
              World (<[p := File [] true]> (files w1)) (opened w1)
                    (stdout w1) (stderr w1))
        else (Ok tt,
              World (<[p := File s true]> (files w1)) (opened w1)
                    (stdout w1) (stderr w1))
    | Some (File _ false) | Some Undecodable | Some Unreadable =>
        (Raise OSError, w1)
    end.

Definition print (l : line) : M unit :=
  fun w =>
    match stdout_fault with
    | Some e => (Raise e, w)
    | None =>
        (Ok tt, World (files w) (opened w) (stdout w ++ [l]) (stderr w))
    end.

(** The body of the module-level [try]. *)
Definition main (stdin : str) : M unit :=
  do input_data <- lift (json_loads stdin);
  do file_path <- lift (extract_path input_data);
  match file_path with
  | PStr p =>
      if negb (is_markdown p) then raise (SystemExit 0)
      else
        do found <- path_exists p;
        if found then
          do content <- read_text p;
          do formatted <- lift (format_markdown content);
          if bool_decide (formatted = content) then ret tt
          else (do _ <- write_text p formatted; print (Fixed p))
        else ret tt
  | _ => raise AttributeError    (* no method endswith *)
  end.

(** The whole run: the [try] with its handler, and what the
    interpreter does with whatever leaves it. *)
Definition run (stdin : str) (w : world) : Z * world :=
  match main stdin w with
  | (Ok _, w1) => (0%Z, w1)
  | (Raise (SystemExit status), w1) => (status, w1)
  | (Raise e, w1) =>
      if handled e then (1%Z, eprint (Failed e) w1)
      else (1%Z, eprint (Traceback e) w1)
  end.

End Hook.

End Raising.

(** ** Definitions used to state the properties *)

(** Rules 2 to 6 of the detector, the ones that follow the JSON rule. *)
Definition later_rules (s : str) : str :=
  if search flag_M py_def s || search flag_M py_import s then lit "python"
  else if search no_flags js_decl s || search no_flags js_arrow s
  then lit "javascript"
  else if search flag_M sh_bang s || search no_flags sh_words s
  then lit "bash"
  else if search flag_I sql_words s then lit "sql"
  else lit "text".

Definition quoted (s : string) : str := [QUOTE] ++ lit s ++ [QUOTE].

(** The body [print("hi")] and a document that holds it in a fence
    without a tag. *)
Definition hi_body : str := lit "print(" ++ quoted "hi" ++ lit ")".

Definition hi_doc (info : str) : str :=
  FENCE ++ info ++ [LF] ++ hi_body ++ [LF] ++ FENCE ++ [LF].

(** A decoder that accepts nothing, for bodies that are not JSON. *)
Definition rejecting : str -> option pyval := fun _ => None.

(** The request of the hook for the path [/tmp/notes.txt], as it
    arrives on standard input, and the value it decodes to. *)
Definition notes_path : str := lit "/tmp/notes.txt".

Definition notes_request : str :=
  lit "{" ++ quoted "tool_input" ++ lit ":{" ++ quoted "file_path" ++ lit ":"
  ++ quoted "/tmp/notes.txt" ++ lit "}}".

Definition notes_value : pyval :=
  PDict {[ lit "tool_input" := PDict {[ lit "file_path" := PStr notes_path ]} ]}.

(** The answers of [json.loads] on the inputs used as examples: the
    request above, the empty object, the empty list; [not json] and
    every other text of the table's domain is rejected. *)
Definition sample_loads (s : str) : option pyval :=
  if bool_decide (s = notes_request) then Some notes_value
  else if bool_decide (s = lit "{}") then Some (PDict ∅)
  else if bool_decide (s = lit "[]") then Some (PList [])
  else None.

Definition notes_world : world :=
  World {[ notes_path := File (lit "a note   ") true ]} [] [] [].

(** A file read, write or decoding error on the path [p]: the entry
    cannot be opened or decoded, or its text has to be rewritten and
    the file cannot be opened for writing. *)
Definition file_fails (json_loads : str -> option pyval)
    (w : world) (p : str) : Prop :=
  match files w !! p with
  | Some Unreadable | Some Undecodable => True
  | Some (File content false) => format_markdown json_loads content ≠ content
  | Some (File _ true) | None => False
  end.

(** The conditions the exit status 1 is documented for: standard input
    is not JSON, or the request names a markdown file on which a file
    error occurs. *)
Definition listed_error (json_loads : str -> option pyval)
    (stdin : str) (w : world) : Prop :=
  json_loads stdin = None
  ∨ ∃ v p, json_loads stdin = Some v ∧ extract_path v = Ok (PStr p)
           ∧ is_markdown p = true ∧ file_fails json_loads w p.

(** *** What a pattern accepts

    [Matches fl r st t st'] says that the pattern [r] can take the
    matcher from the state [st] to the state [st'] by consuming the
    text [t]; it lists the paths the matcher may take, without the
    order in which it tries them. *)

Definition with_cap (n : nat) (t : str) (st : mstate) : mstate :=
  MState (ms_prev st) (ms_rest st) (ms_pos st) ((n, t) :: ms_caps st).

Definition after (st : mstate) (t rest' : str) : mstate :=
  MState (last_of (ms_prev st) t) rest' (ms_pos st + length t) (ms_caps st).

Definition within (hi : option nat) (n : nat) : Prop :=
  match hi with Some h => n ≤ h | None => True end.

Inductive Matches (fl : flags) : re → mstate → str → mstate → Prop :=
| M_Eps st : Matches fl Eps st [] st
| M_One a c st rest' :
    ms_rest st = c :: rest' → atom_ok fl a c = true →
    Matches fl (One a) st [c] (after st [c] rest')
| M_Bol st : at_bol fl (ms_prev st) = true → Matches fl Bol st [] st
| M_Eol st : at_eol fl (ms_rest st) = true → Matches fl Eol st [] st
| M_Boundary st :
    at_boundary (ms_prev st) (ms_rest st) = true → Matches fl Boundary st [] st
| M_Seq r1 r2 st t1 st1 t2 st2 :
    Matches fl r1 st t1 st1 → Matches fl r2 st1 t2 st2 →
    Matches fl (Seq r1 r2) st (t1 ++ t2) st2
| M_AltL r1 r2 st t st' :
    Matches fl r1 st t st' → Matches fl (Alt r1 r2) st t st'
| M_AltR r1 r2 st t st' :
    Matches fl r2 st t st' → Matches fl (Alt r1 r2) st t st'
| M_Rep a lo hi greedy st t rest' :
    ms_rest st = t ++ rest' →
    Forall (λ c, atom_ok fl a c = true) t →
    lo ≤ length t → within hi (length t) →
    Matches fl (Rep a lo hi greedy) st t (after st t rest')
| M_Group n r st t st1 :
    Matches fl r st t st1 → Matches fl (Group n r) st t (with_cap n t st1)
| M_Backref n s st t rest' :
    cap_lookup n (ms_caps st) = Some s →
    ms_rest st = t ++ rest' → length t = length s →
    same_text fl s t = true →
    Matches fl (Backref n) st t (after st t rest').

(** The text a piece of the scan stands for in the subject. *)
Definition written (p : piece) : str :=
  match p with
  | Keep c => [c]
  | Hit m => whole m
  end.

(** The parts of a fence match: the matched text is the indentation,
    three backticks, the info string, a newline, the body, the closing
    line (a newline, the same indentation, three backticks) and a tail
    of whitespace; the four groups hold the indentation, the info
    string, the body and the closing line. *)
Definition fence_shape (m : mobj) : Prop :=
  ∃ indent info body tail,
    ms_caps (final m) =
      [(4, LF :: indent ++ FENCE); (3, body); (2, info); (1, indent)]
    ∧ whole m = indent ++ FENCE ++ info ++ [LF] ++ body
                ++ [LF] ++ indent ++ FENCE ++ tail
    ∧ Forall (λ c, c = " "%char ∨ c = TAB) indent
    ∧ (length indent ≤ 3)
    ∧ (LF ∉ info)
    ∧ Forall (λ c, isspace c = true) tail.

(** The matches the fence rewriter finds in a document, and the pieces
    it walks through. *)
Definition fence_pieces (text : str) : list piece :=
  scan flag_MS fence_pattern 0 None text.

(** The length of the longest prefix of [s] whose characters all
    satisfy [ok]; [lead s] counts the newlines [s] starts with. *)
Fixpoint span (ok : ascii → bool) (s : str) : nat :=
  match s with
  | c :: s' => if ok c then S (span ok s') else 0
  | [] => 0
  end.

Definition is_LF (c : ascii) : bool := ascii_eqb LF c.

Definition lead (s : str) : nat := span is_LF s.

(** What [re.sub] writes for the blank-line pattern, from a given point
    of its walk. *)
Definition squeezed (skip : nat) (prev : option ascii) (rest : str) : str :=
  concat (map (render (λ _, [LF; LF])) (scan no_flags blank_lines skip prev rest)).

(** The match of the fence rewriter in the document of the first
    example, and in a document whose fence carries a tag. *)
Definition first_hit (text : str) : mobj :=
  match fence_pieces text with
  | Hit m :: _ => m
  | _ => MObj [] (MState None [] 0 [])
  end.

Definition hi_match : mobj := Eval vm_compute in first_hit (hi_doc []).



(** *** The fence rewriter, line by line

    A second description of what [re.sub] does with the fence pattern,
    on the lines of the document instead of its characters. It is
    proved equal to [rewrite_fences] below and is the form on which
    the transform is shown to be idempotent. *)

Fixpoint unlines (ls : list str) : str :=
  match ls with
  | [] => []
  | l :: ls' =>
      match ls' with
      | [] => l
      | _ :: _ => l ++ LF :: unlines ls'
      end
  end.

(** The text that follows a line when [ls] are the lines after it. *)
Definition unl (ls : list str) : str :=
  match ls with
  | [] => []
  | _ :: _ => LF :: unlines ls
  end.

Fixpoint lines (s : str) : list str :=
  match s with
  | [] => [[]]
  | c :: s' =>
      if is_LF c then [] :: lines s'
      else match lines s' with
           | l :: ls => (c :: l) :: ls
           | [] => [[c]]
           end
  end.

Definition plain (l : str) : Prop := Forall (λ c, c ≠ LF) l.

Definition is_indent (c : ascii) : bool := ascii_eqb " " c || ascii_eqb TAB c.

Definition blank (l : str) : bool := forallb isspace l.

(** A line that opens a fence: at most three spaces or tabs, three
    backticks, the info string. *)
Definition split_opener (l : str) : option (str * str) :=
  let n := span is_indent l in
  if (n <=? 3) && startswith FENCE (drop n l)
  then Some (take n l, drop (n + 3) l)
  else None.

(** A line that closes a fence opened with [indent]. *)
Definition closes (indent l : str) : bool :=
  startswith (indent ++ FENCE) l && blank (drop (length indent + 3) l).

Fixpoint find_close (indent : str) (ls : list str) : option nat :=
  match ls with
  | [] => None
  | l :: ls' => if closes indent l then Some 0 else S <$> find_close indent ls'
  end.

Fixpoint count_blank (ls : list str) : nat :=
  match ls with
  | l :: ls' => if blank l then S (count_blank ls') else 0
  | [] => 0
  end.

(** A fence that starts at the line [l], the lines after it being
    [ls]: the indentation, the info string, the number of lines of the
    body, and the number of blank lines after the closing line. The
    closing line is the first one, from the second line after the
    opener on, that closes the indentation. *)
Record fence := Fence {
  f_indent : str;
  f_info : str;
  f_body : nat;
  f_blank : nat
}.

Definition fence_at (l : str) (ls : list str) : option fence :=
  match split_opener l with
  | Some (indent, info) =>
      match ls with
      | [] => None
      | _ :: ls' =>
          match find_close indent ls' with
          | Some j =>
              Some (Fence indent info (S j) (count_blank (drop (S (S j)) ls)))
          | None => None
          end
      end
  | None => None
  end.

(** How the walk treats the next lines: copy [k] of them, drop [k] of
    them, and look for a fence when [k] is zero. *)
Inductive walk :=
| Copy (k : nat)
| Drop (k : nat).

Section Lines.

Variable detect : str → str.

Fixpoint rewrite_lines (w : walk) (ls : list str) : list str :=
  match ls with
  | [] => []
  | l :: ls' =>
      match w with
      | Copy (S k) => l :: rewrite_lines (Copy k) ls'
      | Drop (S k) => rewrite_lines (Drop k) ls'
      | Copy 0 | Drop 0 =>
          match fence_at l ls' with
          | Some f =>
              if bool_decide (strip (f_info f) = [])
              then (f_indent f ++ FENCE ++ detect (unlines (take (f_body f) ls')))
                   :: take (f_body f) ls'
                   ++ [f_indent f ++ FENCE; []]
                   ++ rewrite_lines (Drop (S (f_body f) + f_blank f)) ls'
              else l :: rewrite_lines (Copy (S (f_body f))) ls'
          | None => l :: rewrite_lines (Copy 0) ls'
          end
      end
  end.

End Lines.

(** No fence found by the walk is without a tag. *)
Fixpoint all_tagged (skip : nat) (ls : list str) : bool :=
  match ls with
  | [] => true
  | l :: ls' =>
      match skip with
      | S k => all_tagged k ls'
      | 0 =>
          match fence_at l ls' with
          | Some f =>
              negb (bool_decide (strip (f_info f) = []))
              && all_tagged (S (f_body f)) ls'
          | None => all_tagged 0 ls'
          end
      end
  end.

(** What [re.sub] writes for the fence pattern from a given point of
    its walk. *)
Definition fenced (json_loads : str → option pyval)
    (skip : nat) (prev : option ascii) (rest : str) : str :=
  concat (map (render (add_lang_to_fence json_loads))
              (scan flag_MS fence_pattern skip prev rest)).

(** The part of the fence pattern that follows the body. *)
Definition fence_close : re :=
  cat [Group 4 (cat [One (Lit LF); Backref 1; text FENCE]); star Space; Eol].

(** *** Runs of newlines

    [calm s]: the text [s] has no three newlines in a row. *)
Fixpoint calm (s : str) : bool :=
  match s with
  | [] => true
  | _ :: s' => (lead s <? 3) && calm s'
  end.

(** The characters of a text that are not newlines. *)
Definition ink (s : str) : str := List.filter (λ c, negb (is_LF c)) s.

(** A request for the markdown file [/tmp/README.md] and a world in
    which the file holds text with blanks at its end. *)
Definition readme_path : str := lit "/tmp/README.md".

Definition readme_value : pyval :=
  PDict {[ lit "tool_input" := PDict {[ lit "file_path" := PStr readme_path ]} ]}.

Definition readme_world : world :=
  World {[ readme_path := File (lit "a note   ") true ]} [] [] [].

(** The closing line seen from an opener with indentation [indent]:
    the first line that closes it among the lines [ls] after the
    opener, the first of them left out (the body has at least one
    line); the index counts from the second line. *)
Definition door (indent : str) (ls : list str) : option nat :=
  match ls with
  | [] => None
  | _ :: ls' => find_close indent ls'
  end.

(** A request whose [tool_input] is [null], and a decoder that answers
    with it. *)
Definition null_request : pyval := PDict {[ lit "tool_input" := PNone ]}.

Definition null_loads : str -> option pyval := fun _ => Some null_request.

(** A document that opens a fence and never closes it. *)
Definition open_doc : str :=
  lit "intro" ++ [LF] ++ FENCE ++ [LF] ++ lit "code".

(** *** Examples for the hook with its other endings *)

(** A body of 1200 opening and 1200 closing brackets, on which
    [json.loads] raises [RecursionError], and a decoder that does so
    (it rejects every other text). *)
Definition deep_body : str := repeat "["%char 1200 ++ repeat "]"%char 1200.

Definition deep_loads (s : str) : res pyval :=
  if bool_decide (s = deep_body) then Raise RecursionError
  else Raise JSONDecodeError.

(** The decoder of the examples with the error it raises on a text
    that is not JSON. *)
Definition sample_raising (s : str) : res pyval :=
  match sample_loads s with
  | Some v => Ok v
  | None => Raise JSONDecodeError
  end.

(** A decoder that answers every text with the request for
    [/tmp/README.md]. *)
Definition readme_raising : str -> res pyval := fun _ => Ok readme_value.

(** The errors the exit status 1 is documented for, as the driver
    meets them: [json.load] raises on standard input an error the
    handler names ([JSONDecodeError] on a text that is not JSON); or
    the request names a markdown file that cannot be read or decoded;
    or the transform of its text differs from the text and the file
    cannot be opened for writing or the write fails. *)
Definition documented_error (json_loads : str -> res pyval)
    (disk_fault : bool) (stdin : str) (w : world) : Prop :=
  (∃ e, json_loads stdin = Raise e ∧ handled e = true)
  ∨ ∃ v p, json_loads stdin = Ok v ∧ extract_path v = Ok (PStr p)
      ∧ is_markdown p = true
      ∧ match files w !! p with
        | Some Unreadable | Some Undecodable => True
        | Some (File content writable) =>
            ∃ formatted,
              Raising.format_markdown json_loads content = Ok formatted
              ∧ formatted ≠ content
              ∧ (writable = false ∨ disk_fault = true)
        | None => False
        end.

(** The file [/tmp/README.md] holding a fence without a tag around the
    body of brackets, and a decoder that raises [RecursionError] on
    that body and answers every other text with the request for the
    file. *)
Definition deep_doc : str := FENCE ++ [LF] ++ deep_body ++ [LF] ++ FENCE ++ [LF].

Definition deep_request (s : str) : res pyval :=
  if bool_decide (s = deep_body) then Raise RecursionError
  else Ok readme_value.

Definition deep_world : world :=
  World {[ readme_path := File deep_doc true ]} [] [] [].

(** The claim on the exit status, read as an equivalence: the process
    exits with status 1 and writes to the error stream exactly when one
    of the documented conditions holds. *)
Definition exits_1_exactly_when_listed : Prop :=
  ∀ (json_loads : str → option pyval) (stdin : str) (w : world),
    (fst (run json_loads stdin w) = 1%Z
     ∧ stderr (snd (run json_loads stdin w)) ≠ stderr w)
    ↔ listed_error json_loads stdin w.

Definition empty_world : world := World ∅ [] [] [].

(** * Properties *)

(** ** The language detector *)

Lemma detect_language_unfold json_loads code :
  detect_language json_loads code =
    if search no_flags json_start (strip code)
       && bool_decide (is_Some (json_loads (strip code)))
    then lit "json" else later_rules (strip code).
Proof. reflexivity. Qed.

Lemma json_start_brace c rest :
  c = "{"%char ∨ c = "["%char →
  search no_flags json_start (c :: rest) = true.
Proof. intros [-> | ->]; reflexivity. Qed.

Lemma later_rules_closed s : later_rules s ∈ languages.
Proof.
  unfold later_rules, languages.
  repeat match goal with
         | |- context [if ?b then _ else _] => destruct b
         end; set_solver.
Qed.

(** C1 (as stated, refuted): no JSON decoder makes the detector answer
    [python] on the body [print("hi")], and the transform of the
    document does not carry that tag. *)
Lemma hi_body_is_not_python :
  ¬ (∃ json_loads, detect_language json_loads hi_body = lit "python")
  ∧ ¬ (∃ json_loads,
         format_markdown json_loads (hi_doc []) =
         FENCE ++ lit "python" ++ [LF] ++ hi_body ++ [LF] ++ FENCE ++ [LF]).
Proof.
  split; intros [loads H]; vm_compute in H; discriminate H.
Qed.

(** C1 (amended): for the document whose fence has no tag (or only a
    blank after the backticks) and whose body is [print("hi")], the
    detector answers [text] on the body, no rule matching it, and the
    full transform produces the fence tagged [text]. *)
Theorem hi_fence_tagged_text json_loads :
  detect_language json_loads hi_body = lit "text"
  ∧ format_markdown json_loads (hi_doc []) =
      FENCE ++ lit "text" ++ [LF] ++ hi_body ++ [LF] ++ FENCE ++ [LF]
  ∧ format_markdown json_loads (hi_doc (lit " ")) =
      FENCE ++ lit "text" ++ [LF] ++ hi_body ++ [LF] ++ FENCE ++ [LF].
Proof. repeat split; vm_compute; reflexivity. Qed.

(** C4: when the trimmed input starts with an opening brace or
    bracket, the detector answers [json] if the decoder accepts the
    trimmed text; if the decoder rejects it, the answer is the one of
    the later rules (python, javascript, bash, sql, then text), so the
    brace alone forces neither [json] nor [text]. *)
Theorem json_rule json_loads code c rest :
  strip code = c :: rest →
  c = "{"%char ∨ c = "["%char →
  (is_Some (json_loads (strip code)) →
     detect_language json_loads code = lit "json")
  ∧ (json_loads (strip code) = None →
     detect_language json_loads code = later_rules (strip code)
     ∧ (detect_language json_loads code = lit "json" →
        later_rules (strip code) = lit "json")).
Proof.
  intros Hs Hc. rewrite detect_language_unfold, Hs.
  rewrite (json_start_brace c rest Hc). rewrite <- Hs. split.
  - intros Hok. rewrite bool_decide_true by done. reflexivity.
  - intros Hno. rewrite Hno. rewrite bool_decide_false by (intros [? ?]; done).
    simpl. split; [reflexivity | auto].
Qed.

(** The body [{not valid}] starts with a brace, is rejected by the
    decoder, and falls through every later rule to [text]; the body
    [{const x = 1}], rejected too, is caught by the javascript rule. *)
Lemma json_rule_witness :
  detect_language rejecting (lit "{not valid}") = lit "text"
  ∧ detect_language rejecting (lit "{const x = 1}") = lit "javascript".
Proof.
  split.
  - destruct (json_rule rejecting (lit "{not valid}") "{"%char (lit "not valid}"))
      as [_ H]; [reflexivity | left; reflexivity |].
    destruct (H eq_refl) as [-> _]. vm_compute. reflexivity.
  - destruct (json_rule rejecting (lit "{const x = 1}") "{"%char (lit "const x = 1}"))
      as [_ H]; [reflexivity | left; reflexivity |].
    destruct (H eq_refl) as [-> _]. vm_compute. reflexivity.
Defined.

Lemma detect_language_tag json_loads code :
  detect_language json_loads code ∈ languages.
Proof.
  rewrite detect_language_unfold.
  destruct (_ && _); [| apply later_rules_closed].
  unfold languages. apply elem_of_cons. by left.
Qed.

(** ** The driver *)

Lemma ascii_eqb_eq a b : ascii_eqb a b = true ↔ a = b.
Proof.
  unfold ascii_eqb, code. rewrite N.eqb_eq. split; [| by intros ->].
  intros H. rewrite <- (ascii_N_embedding a), <- (ascii_N_embedding b).
  by rewrite H.
Qed.

Lemma startswith_spec p s : startswith p s = true ↔ ∃ t, s = p ++ t.
Proof.
  revert s. induction p as [| a p IH]; intros s; simpl.
  - split; eauto.
  - destruct s as [| b s].
    + split; [done | intros [t Ht]; done].
    + rewrite andb_true_iff, ascii_eqb_eq, IH. split.
      * intros [-> [t ->]]. eauto.
      * intros [t Ht]. injection Ht as -> ->. eauto.
Qed.

Lemma endswith_spec s suffix :
  endswith s suffix = true ↔ ∃ stem, s = stem ++ suffix.
Proof.
  unfold endswith. rewrite startswith_spec. split.
  - intros [t Ht]. exists (rev t).
    rewrite <- (rev_involutive s), Ht, rev_app_distr, rev_involutive. done.
  - intros [stem ->]. exists (rev stem). by rewrite rev_app_distr.
Qed.

Lemma is_markdown_spec p :
  is_markdown p = true ↔
  (∃ stem, p = stem ++ lit ".md") ∨ (∃ stem, p = stem ++ lit ".mdx").
Proof. unfold is_markdown. by rewrite orb_true_iff, !endswith_spec. Qed.

Lemma run_not_markdown json_loads stdin w v p :
  json_loads stdin = Some v → extract_path v = Ok (PStr p) →
  is_markdown p = false → run json_loads stdin w = (0%Z, w).
Proof.
  intros Hv Hp Hmd. unfold run, main, bind, lift, json_load.
  by rewrite Hv, Hp, Hmd.
Qed.

Lemma run_not_found json_loads stdin w v p :
  json_loads stdin = Some v → extract_path v = Ok (PStr p) →
  files w !! p = None → run json_loads stdin w = (0%Z, w).
Proof.
  intros Hv Hp Hf. unfold run, main, bind, lift, json_load, path_exists.
  rewrite Hv, Hp. destruct (is_markdown p); simpl; [| done].
  rewrite Hf. rewrite bool_decide_false by (intros [? ?]; done). done.
Qed.

(** C9: when the path taken from the request does not end in [.md] or
    [.mdx], or names nothing on disk, the process exits with status 0
    and leaves the world as it found it: no file is opened, none is
    changed, nothing is printed. *)
Theorem skip_leaves_world json_loads stdin w v p :
  json_loads stdin = Some v →
  extract_path v = Ok (PStr p) →
  (¬ (∃ stem, p = stem ++ lit ".md") ∧ ¬ (∃ stem, p = stem ++ lit ".mdx"))
  ∨ files w !! p = None →
  run json_loads stdin w = (0%Z, w).
Proof.
  intros Hv Hp [[Hmd Hmdx] | Hf].
  - eapply run_not_markdown; [done.. |].
    destruct (is_markdown p) eqn:E; [| done].
    apply is_markdown_spec in E as [? | ?]; tauto.
  - by eapply run_not_found.
Qed.

Lemma not_suffix (s suffix : str) :
  endswith s suffix = false → ¬ ∃ stem, s = stem ++ suffix.
Proof. intros H Hs. apply endswith_spec in Hs. congruence. Qed.

(** The request for [/tmp/notes.txt]: exit status 0, the file and the
    streams untouched. *)
Lemma skip_leaves_world_witness :
  run sample_loads notes_request notes_world = (0%Z, notes_world).
Proof.
  apply (skip_leaves_world sample_loads notes_request notes_world
           notes_value notes_path).
  - reflexivity.
  - reflexivity.
  - left. split; apply not_suffix; reflexivity.
Defined.

(** C10: a request that is a JSON object without the key [tool_input],
    or whose [tool_input] is an object without the key [file_path],
    yields the empty string as its path; the empty string is no
    markdown name, and the process exits with status 0 with the world
    as it was and nothing on the error stream. *)
Theorem missing_path_is_skipped json_loads stdin w d :
  json_loads stdin = Some (PDict d) →
  d !! lit "tool_input" = None
  ∨ (∃ d2, d !! lit "tool_input" = Some (PDict d2)
           ∧ d2 !! lit "file_path" = None) →
  extract_path (PDict d) = Ok (PStr [])
  ∧ is_markdown [] = false
  ∧ run json_loads stdin w = (0%Z, w).
Proof.
  intros Hv Hd.
  assert (Hp : extract_path (PDict d) = Ok (PStr [])).
  { unfold extract_path, py_get.
    destruct Hd as [-> | [d2 [-> Hd2]]]; unfold default;
      cbv beta iota delta [from_option id].
    - by rewrite lookup_empty.
    - by rewrite Hd2. }
  split; [done |]. split; [done |].
  by eapply run_not_markdown.
Qed.

Lemma missing_path_is_skipped_witness :
  run sample_loads (lit "{}") notes_world = (0%Z, notes_world).
Proof.
  apply (missing_path_is_skipped sample_loads (lit "{}") notes_world ∅).
  - reflexivity.
  - left. apply lookup_empty.
Defined.

(** C8 (as stated, refuted): the empty list is valid JSON and no file
    is involved, yet the process exits with status 1 and a traceback:
    a list has no method [get], and [AttributeError] is not among the
    exceptions the handler names. *)
Lemma exit_1_on_a_list : ¬ exits_1_exactly_when_listed.
Proof.
  intros H.
  destruct (H sample_loads (lit "[]") empty_world) as [Hlisted _].
  destruct Hlisted as [Hno | (v & p & Hv & Hp & _)].
  - split; [reflexivity | discriminate].
  - discriminate Hno.
  - injection Hv as <-. discriminate Hp.
Qed.

(** ** The matcher is sound for [Matches] *)

Lemma last_of_app prev (t1 t2 : str) :
  last_of (last_of prev t1) t2 = last_of prev (t1 ++ t2).
Proof.
  unfold last_of. rewrite last_app.
  destruct (last t2); [done |]. by destruct (last t1).
Qed.

Lemma last_of_cons prev c (t : str) :
  last_of prev (c :: t) = last_of (Some c) t.
Proof. symmetry. apply (last_of_app prev [c] t). Qed.

Lemma Matches_frame fl r st t st' :
  Matches fl r st t st' →
  ms_rest st = t ++ ms_rest st'
  ∧ ms_pos st' = ms_pos st + length t
  ∧ ms_prev st' = last_of (ms_prev st) t.
Proof.
  induction 1; simpl; try (repeat split; (done || lia)); try assumption.
  destruct IHMatches1 as (H1 & H2 & H3), IHMatches2 as (H4 & H5 & H6).
  split; [| split].
  - by rewrite H1, H4, app_assoc.
  - rewrite length_app. lia.
  - by rewrite H6, H3, last_of_app.
Qed.

Lemma rep_greedy_sound {R} ok (k : option ascii → str → nat → option R)
    lo hi prev rest pos r :
  rep_greedy ok k lo hi prev rest pos = Some r →
  ∃ t rest', rest = t ++ rest' ∧ Forall (λ c, ok c = true) t
             ∧ lo ≤ length t ∧ within hi (length t)
             ∧ k (last_of prev t) rest' (pos + length t) = Some r.
Proof.
  revert lo hi prev pos.
  induction rest as [| c rest IH]; intros lo hi prev pos H; simpl in H.
  - destruct lo; [| done]. exists [], []. simpl.
    rewrite Nat.add_0_r. repeat split; (done || lia || by destruct hi; simpl; lia).
  - assert (Hstop : match lo with 0 => k prev (c :: rest) pos | S _ => None end
                    = Some r →
            ∃ t rest', c :: rest = t ++ rest' ∧ Forall (λ c, ok c = true) t
               ∧ lo ≤ length t ∧ within hi (length t)
               ∧ k (last_of prev t) rest' (pos + length t) = Some r).
    { intros Hk. destruct lo; [| done]. exists [], (c :: rest). simpl.
      rewrite Nat.add_0_r.
      repeat split; (done || lia || by destruct hi; simpl; lia). }
    destruct (ok c && room hi) eqn:Hc; [| by apply Hstop].
    destruct (rep_greedy ok k (pred lo) (less hi) (Some c) rest (S pos))
      as [r' |] eqn:Hrec; [| by apply Hstop].
    injection H as ->. apply andb_true_iff in Hc as [Hc Hroom].
    apply IH in Hrec as (t & rest' & -> & Ht & Hlo & Hhi & Hk).
    exists (c :: t), rest'. rewrite last_of_cons. simpl.
    replace (pos + S (length t)) with (S pos + length t) by lia.
    repeat split; [by constructor | lia | | done].
    destruct hi as [[| h] |]; simpl in *; (done || lia).
Qed.

Lemma rep_lazy_sound {R} ok (k : option ascii → str → nat → option R)
    lo hi prev rest pos r :
  rep_lazy ok k lo hi prev rest pos = Some r →
  ∃ t rest', rest = t ++ rest' ∧ Forall (λ c, ok c = true) t
             ∧ lo ≤ length t ∧ within hi (length t)
             ∧ k (last_of prev t) rest' (pos + length t) = Some r.
Proof.
  revert lo hi prev pos.
  induction rest as [| c rest IH]; intros lo hi prev pos H; simpl in H.
  - destruct lo; [| done].
    destruct (k prev [] pos) eqn:Hk; [| done]. injection H as ->.
    exists [], []. simpl. rewrite Nat.add_0_r.
    repeat split; (done || lia || by destruct hi; simpl; lia).
  - destruct (match lo with 0 => k prev (c :: rest) pos | S _ => None end)
      as [r' |] eqn:Hstop.
    + injection H as ->. destruct lo; [| done].
      exists [], (c :: rest). simpl. rewrite Nat.add_0_r.
      repeat split; (done || lia || by destruct hi; simpl; lia).
    + destruct (ok c && room hi) eqn:Hc; [| done].
      apply andb_true_iff in Hc as [Hc Hroom].
      apply IH in H as (t & rest' & -> & Ht & Hlo & Hhi & Hk).
      exists (c :: t), rest'. rewrite last_of_cons. simpl.
      replace (pos + S (length t)) with (S pos + length t) by lia.
      repeat split; [by constructor | lia | | done].
      destruct hi as [[| h] |]; simpl in *; (done || lia).
Qed.

Lemma set_cap_with_cap fl r n st t st1 :
  Matches fl r st t st1 → set_cap n st st1 = with_cap n t st1.
Proof.
  intros H. apply Matches_frame in H as (Hrest & Hpos & _).
  unfold set_cap, with_cap. rewrite Hrest, Hpos.
  replace (ms_pos st + length t - ms_pos st) with (length t) by lia.
  by rewrite take_app_length.
Qed.

Lemma same_text_length fl (a b : str) :
  same_text fl a b = true → length a = length b.
Proof.
  unfold same_text. destruct (ignorecase fl); intros H%bool_decide_eq_true.
  - by rewrite <- (length_map lower a), H, length_map.
  - by rewrite H.
Qed.

Theorem exec_sound fl r st k res :
  exec fl r st k = Some res →
  ∃ t st', Matches fl r st t st' ∧ k st' = Some res.
Proof.
  revert st k. induction r as
    [ | a | | | | r1 IH1 r2 IH2 | r1 IH1 r2 IH2 | a lo hi greedy | n r IH | n ];
    intros st k H; simpl in H.
  - exists [], st. split; [constructor | done].
  - destruct (ms_rest st) as [| c rest'] eqn:Hrest; [done |].
    destruct (atom_ok fl a c) eqn:Hc; [| done].
    exists [c], (after st [c] rest'). split; [by constructor |].
    unfold after. simpl. by rewrite Nat.add_1_r.
  - destruct (at_bol fl (ms_prev st)) eqn:E; [| done].
    exists [], st. split; [by constructor | done].
  - destruct (at_eol fl (ms_rest st)) eqn:E; [| done].
    exists [], st. split; [by constructor | done].
  - destruct (at_boundary (ms_prev st) (ms_rest st)) eqn:E; [| done].
    exists [], st. split; [by constructor | done].
  - apply IH1 in H as (t1 & st1 & H1 & H).
    apply IH2 in H as (t2 & st2 & H2 & H).
    exists (t1 ++ t2), st2. split; [by econstructor | done].
  - destruct (exec fl r1 st k) as [m |] eqn:E.
    + injection H as ->. apply IH1 in E as (t & st' & H1 & Hk).
      exists t, st'. split; [by apply M_AltL | done].
    + apply IH2 in H as (t & st' & H2 & Hk).
      exists t, st'. split; [by apply M_AltR | done].
  - assert (∃ t rest', ms_rest st = t ++ rest'
              ∧ Forall (λ c, atom_ok fl a c = true) t
              ∧ lo ≤ length t ∧ within hi (length t)
              ∧ k (after st t rest') = Some res) as (t & rest' & ? & ? & ? & ? & ?).
    { destruct greedy; [apply rep_greedy_sound in H | apply rep_lazy_sound in H];
        exact H. }
    exists t, (after st t rest'). split; [by constructor | done].
  - apply IH in H as (t & st1 & H1 & H).
    exists t, (with_cap n t st1). split; [by constructor |].
    by rewrite <- (set_cap_with_cap fl r n st t st1).
  - destruct (cap_lookup n (ms_caps st)) as [s |] eqn:Hs; [| done].
    destruct (same_text fl s (take (length s) (ms_rest st))) eqn:Hsame; [| done].
    exists (take (length s) (ms_rest st)), (after st (take (length s) (ms_rest st))
                                              (drop (length s) (ms_rest st))).
    pose proof (same_text_length _ _ _ Hsame) as Hlen.
    split.
    + econstructor; [done | by rewrite take_drop | done | done].
    + unfold after. by rewrite <- Hlen.
Qed.

Lemma match_here_sound fl r prev rest m :
  match_here fl r prev rest = Some m →
  ∃ t, Matches fl r (MState prev rest 0 []) t m
       ∧ rest = t ++ ms_rest m ∧ ms_pos m = length t
       ∧ take (ms_pos m) rest = t.
Proof.
  intros H. apply exec_sound in H as (t & st' & H & [= ->]).
  exists t. split; [done |].
  apply Matches_frame in H as (Hrest & Hpos & _). simpl in *.
  split; [done |]. split; [done |].
  by rewrite Hpos, Hrest, take_app_length.
Qed.

(** ** The fence rewriter *)

Ltac inv_matches :=
  repeat match goal with
  | H : Matches _ (Seq _ _) _ _ _ |- _ => inversion H; subst; clear H
  | H : Matches _ (Group _ _) _ _ _ |- _ => inversion H; subst; clear H
  | H : Matches _ (One _) _ _ _ |- _ => inversion H; subst; clear H
  | H : Matches _ (Rep _ _ _ _) _ _ _ |- _ => inversion H; subst; clear H
  | H : Matches _ (Backref _) _ _ _ |- _ => inversion H; subst; clear H
  | H : Matches _ Eps _ _ _ |- _ => inversion H; subst; clear H
  | H : Matches _ Bol _ _ _ |- _ => inversion H; subst; clear H
  | H : Matches _ Eol _ _ _ |- _ => inversion H; subst; clear H
  end.

Ltac eq_chars :=
  repeat match goal with
  | H : atom_ok flag_MS (Lit ?x) ?c = true |- _ =>
      change (ascii_eqb x c = true) in H
  | H : ascii_eqb _ _ = true |- _ => apply ascii_eqb_eq in H; subst
  end.

Lemma fence_match_shape prev rest st :
  match_here flag_MS fence_pattern prev rest = Some st →
  fence_shape (MObj (take (ms_pos st) rest) st)
  ∧ at_bol flag_MS prev = true
  ∧ at_eol flag_MS (ms_rest st) = true
  ∧ rest = take (ms_pos st) rest ++ ms_rest st.
Proof.
  intros H. apply match_here_sound in H as (t & H & Hrest & Hpos & Htake).
  rewrite Htake. split; [| split; [| split]]; [| | | done].
  - let p := eval vm_compute in fence_pattern in change fence_pattern with p in H.
    inv_matches. simpl in *. eq_chars.
    match goal with H : Some _ = Some _ |- _ => injection H as <- end.
    match goal with
    | H : same_text _ _ _ = true |- _ =>
        apply bool_decide_eq_true in H; subst
    end.
    match goal with
    | |- fence_shape (MObj (?i ++ _ :: _ :: _ :: ?f ++ _ :: ?b ++ _ :: _ ++ ?tl ++ []) _) =>
        exists i, f, b, tl
    end.
    simpl. rewrite app_nil_r. split_and!; try done.
    + by rewrite <- app_assoc.
    + match goal with
      | H : Forall _ ?i |- Forall _ ?i =>
          eapply Forall_impl; [exact H |]
      end.
      intros c Hc. simpl in Hc.
      apply orb_true_iff in Hc as [Hc | Hc].
      * left. by apply ascii_eqb_eq in Hc.
      * rewrite orb_false_r in Hc. right. by apply ascii_eqb_eq in Hc.
    + intros Hin.
      match goal with
      | H : Forall (λ c, negb _ = true) ?f, Hin : _ ∈ ?f |- _ =>
          rewrite Forall_forall in H; apply H in Hin
      end.
      done.
  - let p := eval vm_compute in fence_pattern in change fence_pattern with p in H.
    inv_matches. done.
  - let p := eval vm_compute in fence_pattern in change fence_pattern with p in H.
    inv_matches. done.
Qed.

Lemma scan_hits fl r skip prev rest m :
  Hit m ∈ scan fl r skip prev rest →
  ∃ prev' rest', match_here fl r prev' rest' = Some (final m)
                 ∧ whole m = take (ms_pos (final m)) rest'.
Proof.
  revert skip prev. induction rest as [| c rest IH]; intros skip prev H.
  - destruct skip; simpl in H; [| by apply elem_of_nil in H].
    destruct (match_here fl r prev []) as [st |] eqn:E;
      [| by apply elem_of_nil in H].
    apply list_elem_of_singleton in H as [= ->]. by exists prev, [].
  - destruct skip; simpl in H; [| by eapply IH].
    destruct (match_here fl r prev (c :: rest)) as [st |] eqn:E.
    + apply elem_of_cons in H as [[= ->] | H]; [by exists prev, (c :: rest) |].
      destruct (ms_pos st); [| by eapply IH].
      apply elem_of_cons in H as [[=] | H]. by eapply IH.
    + apply elem_of_cons in H as [[=] | H]. by eapply IH.
Qed.

(** The pieces of a scan lie end to end in the subject. *)
Lemma scan_written fl r skip prev rest :
  concat (map written (scan fl r skip prev rest)) = drop skip rest.
Proof.
  revert skip prev. induction rest as [| c rest IH]; intros skip prev.
  - destruct skip; simpl; [| done].
    destruct (match_here fl r prev []); simpl; [| done].
    by rewrite take_nil.
  - destruct skip; simpl; [| by rewrite IH].
    destruct (match_here fl r prev (c :: rest)) as [st |]; simpl.
    + destruct (ms_pos st) as [| n]; simpl; rewrite IH; [done |].
      by rewrite take_drop.
    + by rewrite IH.
Qed.

Lemma fence_hit_shape text m :
  Hit m ∈ fence_pieces text → fence_shape m.
Proof.
  intros H. apply scan_hits in H as (prev & rest & H & Hw).
  apply fence_match_shape in H as [H _].
  destruct m as [w st]. simpl in *. by subst w.
Qed.

Lemma rewrite_fences_pieces json_loads text :
  text = concat (map written (fence_pieces text))
  ∧ rewrite_fences json_loads text =
      concat (map (render (add_lang_to_fence json_loads)) (fence_pieces text)).
Proof.
  split; [| done]. unfold fence_pieces. by rewrite scan_written.
Qed.

Lemma fence_shape_groups m indent info body :
  ms_caps (final m) =
    [(4, LF :: indent ++ FENCE); (3, body); (2, info); (1, indent)] →
  group 1 m = indent ∧ group 2 m = info ∧ group 3 m = body
  ∧ group 4 m = [LF] ++ indent ++ FENCE.
Proof. unfold group. by intros ->. Qed.

(** C2: for every fence the rewriter matches whose info string is empty
    or blank, the matched text consists of the indentation, the
    backticks, the info string, a newline, the body, the closing line
    and a tail of whitespace; in the text the rewriter returns it is
    replaced, between the replacements of what the scan found before
    and after it, by the indentation, the backticks, exactly one tag of
    the closed set (the answer of the detector on the body), a newline,
    the same body, the same closing line and one newline. *)
Theorem untagged_fence_gets_tag json_loads text m :
  Hit m ∈ fence_pieces text →
  strip (group 2 m) = [] →
  ∃ before after tail tag,
    fence_pieces text = before ++ Hit m :: after
    ∧ text = concat (map written before) ++ whole m
             ++ concat (map written after)
    ∧ rewrite_fences json_loads text =
        concat (map (render (add_lang_to_fence json_loads)) before)
        ++ (group 1 m ++ FENCE ++ tag ++ [LF] ++ group 3 m ++ group 4 m
            ++ [LF])
        ++ concat (map (render (add_lang_to_fence json_loads)) after)
    ∧ whole m = group 1 m ++ FENCE ++ group 2 m ++ [LF] ++ group 3 m
                ++ group 4 m ++ tail
    ∧ Forall (λ c, isspace c = true) tail
    ∧ group 4 m = [LF] ++ group 1 m ++ FENCE
    ∧ tag ∈ languages
    ∧ tag = detect_language json_loads (group 3 m)
    ∧ render (add_lang_to_fence json_loads) (Hit m) =
        group 1 m ++ FENCE ++ tag ++ [LF] ++ group 3 m ++ group 4 m ++ [LF].
Proof.
  intros Hm Hblank.
  destruct (list_elem_of_split _ _ Hm) as (before & after & Hsplit).
  assert (Hrender : render (add_lang_to_fence json_loads) (Hit m) =
            group 1 m ++ FENCE ++ detect_language json_loads (group 3 m)
            ++ [LF] ++ group 3 m ++ group 4 m ++ [LF]).
  { cbn [render]. unfold add_lang_to_fence.
    by rewrite bool_decide_true by done. }
  destruct (fence_hit_shape text m Hm)
    as (indent & info & body & tail & Hcaps & Hwhole & _ & _ & _ & Htail).
  destruct (fence_shape_groups m _ _ _ Hcaps) as (Hg1 & Hg2 & Hg3 & Hg4).
  exists before, after, tail, (detect_language json_loads (group 3 m)).
  destruct (rewrite_fences_pieces json_loads text) as [Htext Hout].
  split_and!.
  - done.
  - rewrite Htext at 1. rewrite Hsplit, map_app, concat_app. reflexivity.
  - rewrite Hout, Hsplit, map_app, concat_app. cbn [map concat].
    by rewrite Hrender.
  - rewrite Hwhole, Hg1, Hg2, Hg3, Hg4. by rewrite <- !app_assoc.
  - done.
  - by rewrite Hg1, Hg4.
  - apply detect_language_tag.
  - done.
  - exact Hrender.
Qed.


Lemma untagged_fence_gets_tag_witness :
  Hit hi_match ∈ fence_pieces (hi_doc [])
  ∧ ∃ before after tail tag,
      fence_pieces (hi_doc []) = before ++ Hit hi_match :: after
      ∧ hi_doc [] = concat (map written before) ++ whole hi_match
                    ++ concat (map written after)
      ∧ rewrite_fences rejecting (hi_doc []) =
          concat (map (render (add_lang_to_fence rejecting)) before)
          ++ (group 1 hi_match ++ FENCE ++ tag ++ [LF] ++ group 3 hi_match
              ++ group 4 hi_match ++ [LF])
          ++ concat (map (render (add_lang_to_fence rejecting)) after)
      ∧ whole hi_match = group 1 hi_match ++ FENCE ++ group 2 hi_match ++ [LF]
                         ++ group 3 hi_match ++ group 4 hi_match ++ tail
      ∧ Forall (λ c, isspace c = true) tail
      ∧ group 4 hi_match = [LF] ++ group 1 hi_match ++ FENCE
      ∧ tag ∈ languages
      ∧ tag = detect_language rejecting (group 3 hi_match)
      ∧ render (add_lang_to_fence rejecting) (Hit hi_match) =
          group 1 hi_match ++ FENCE ++ tag ++ [LF] ++ group 3 hi_match
          ++ group 4 hi_match ++ [LF].
Proof.
  assert (H1 : Hit hi_match ∈ fence_pieces (hi_doc [])).
  { replace (fence_pieces (hi_doc [])) with [Hit hi_match]
      by (vm_compute; reflexivity).
    apply list_elem_of_here. }
  split; [exact H1 |].
  apply (untagged_fence_gets_tag rejecting (hi_doc []) hi_match H1).
  vm_compute. reflexivity.
Defined.


(** ** The blank-line normalizer *)

Lemma rep_greedy_all {R} ok (k : option ascii → str → nat → option R)
    lo prev rest pos :
  (∀ p r n, k p r n ≠ None) →
  rep_greedy ok k lo None prev rest pos =
    if lo <=? span ok rest
    then k (last_of prev (take (span ok rest) rest))
           (drop (span ok rest) rest) (pos + span ok rest)
    else None.
Proof.
  intros Hk. revert lo prev pos.
  induction rest as [| c rest IH]; intros lo prev pos; simpl.
  - destruct lo; simpl; [by rewrite Nat.add_0_r | done].
  - destruct (ok c) eqn:Hc; simpl.
    + rewrite IH. rewrite last_of_cons.
      replace (pos + S (span ok rest)) with (S pos + span ok rest) by lia.
      destruct lo as [| lo]; simpl.
      * destruct (k _ _ _) eqn:E; [done | by apply Hk in E].
      * destruct (lo <=? span ok rest) eqn:Hlo; [| done].
        destruct (k _ _ _) eqn:E; [done | by apply Hk in E].
    + destruct lo; simpl; [by rewrite Nat.add_0_r | done].
Qed.

Lemma blank_lines_here prev rest :
  match_here no_flags blank_lines prev rest =
    if 3 <=? lead rest
    then Some (MState (last_of prev (take (lead rest) rest))
                      (drop (lead rest) rest) (lead rest) [])
    else None.
Proof.
  unfold match_here, blank_lines. simpl.
  rewrite rep_greedy_all by done. done.
Qed.

Lemma squeezed_nil skip prev : squeezed skip prev [] = [].
Proof.
  unfold squeezed. destruct skip; [| done].
  cbn [scan]. by rewrite blank_lines_here.
Qed.

Lemma squeezed_skip skip prev c rest :
  squeezed (S skip) prev (c :: rest) = squeezed skip (Some c) rest.
Proof. done. Qed.

Lemma squeezed_here prev c rest :
  squeezed 0 prev (c :: rest) =
    if 3 <=? lead (c :: rest)
    then [LF; LF] ++ squeezed (pred (lead (c :: rest))) (Some c) rest
    else c :: squeezed 0 (Some c) rest.
Proof.
  unfold squeezed. cbn [scan]. rewrite blank_lines_here.
  destruct (3 <=? lead (c :: rest)) eqn:E; [| done].
  simpl ms_pos. apply Nat.leb_le in E.
  destruct (lead (c :: rest)); [lia | done].
Qed.

(** The pattern looks neither behind nor at the groups: what is written
    does not depend on the character before the position. *)
Lemma squeezed_prev skip p1 p2 rest :
  squeezed skip p1 rest = squeezed skip p2 rest.
Proof.
  revert skip p1 p2. induction rest as [| c rest IH]; intros skip p1 p2.
  - by rewrite !squeezed_nil.
  - destruct skip; [| done]. by rewrite !squeezed_here.
Qed.

Lemma squeezed_pass (t : str) prev rest :
  squeezed (length t) prev (t ++ rest) = squeezed 0 None rest.
Proof.
  revert prev. induction t as [| c t IH]; intros prev; simpl.
  - apply squeezed_prev.
  - rewrite squeezed_skip. apply IH.
Qed.

Lemma lead_repeat n post :
  head post ≠ Some LF → lead (repeat LF n ++ post) = n.
Proof.
  intros Hpost. unfold lead. induction n as [| n IH]; simpl.
  - destruct post as [| c post]; [done |]. simpl.
    destruct (is_LF c) eqn:E; [| done].
    apply ascii_eqb_eq in E. by subst c.
  - by rewrite IH.
Qed.

(** A run of newlines followed by something else: three or more become
    two, fewer stay. *)
Lemma squeezed_run n post prev :
  head post ≠ Some LF →
  squeezed 0 prev (repeat LF n ++ post) =
    (if 3 <=? n then [LF; LF] else repeat LF n) ++ squeezed 0 None post.
Proof.
  intros Hpost. revert prev. induction n as [| n IH]; intros prev.
  - simpl. apply squeezed_prev.
  - change (repeat LF (S n) ++ post) with (LF :: (repeat LF n ++ post)).
    rewrite squeezed_here.
    change (LF :: (repeat LF n ++ post)) with (repeat LF (S n) ++ post).
    rewrite lead_repeat by done.
    destruct (3 <=? S n) eqn:E.
    + simpl pred. rewrite <- (repeat_length LF n) at 1.
      by rewrite squeezed_pass.
    + rewrite IH. apply Nat.leb_gt in E.
      destruct (3 <=? n) eqn:E'; [apply Nat.leb_le in E'; lia | done].
Qed.

Lemma squeezed_other c rest prev :
  c ≠ LF → squeezed 0 prev (c :: rest) = c :: squeezed 0 None rest.
Proof.
  intros Hc. rewrite squeezed_here. unfold lead. simpl.
  destruct (is_LF c) eqn:E.
  - apply ascii_eqb_eq in E. by subst c.
  - simpl. f_equal. apply squeezed_prev.
Qed.

(** Every text is a run of newlines, then nothing or a character that
    is not a newline and a remainder. *)
Lemma lead_split (s : str) :
  s = repeat LF (lead s) ++ drop (lead s) s
  ∧ head (drop (lead s) s) ≠ Some LF.
Proof.
  induction s as [| c s [IH1 IH2]]; [done |]. unfold lead in *. simpl.
  destruct (is_LF c) eqn:E; simpl.
  - apply ascii_eqb_eq in E. subst c. split; [by rewrite <- IH1 | done].
  - split; [done |]. intros [= ->]. by vm_compute in E.
Qed.

Lemma last_repeat_LF k : last (repeat LF (S k)) = Some LF.
Proof.
  induction k as [| k IH]; [done |].
  change (repeat LF (S (S k))) with (LF :: repeat LF (S k)).
  by rewrite last_cons, IH.
Qed.

Lemma squeezed_app (pre rest : str) :
  last pre ≠ Some LF →
  squeezed 0 None (pre ++ rest) = squeezed 0 None pre ++ squeezed 0 None rest.
Proof.
  remember (length pre) as len eqn:Hlen. revert pre Hlen.
  induction len as [len IH] using lt_wf_ind. intros pre Hlen Hlast.
  destruct (lead_split pre) as [Hsplit Hhead].
  remember (lead pre) as k eqn:Hk. clear Hk.
  remember (drop k pre) as tl0 eqn:Htl0. clear Htl0. subst pre.
  destruct tl0 as [| d tl].
  - (* a run of newlines alone: empty, or it would end with a newline *)
    destruct k as [| k]; [by rewrite squeezed_nil |].
    exfalso. apply Hlast. rewrite app_nil_r. apply last_repeat_LF.
  - assert (Hd : d ≠ LF) by (intros ->; by apply Hhead).
    rewrite <- app_assoc.
    rewrite !squeezed_run by done.
    rewrite <- app_assoc. f_equal.
    change ((d :: tl) ++ rest) with (d :: (tl ++ rest)).
    rewrite !squeezed_other by done. simpl. f_equal.
    apply (IH (length tl)); [| done |].
    + subst len. rewrite length_app. simpl. lia.
    + rewrite last_app in Hlast.
      destruct tl as [| e tl']; [done |].
      rewrite last_cons_cons in Hlast.
      by destruct (last (e :: tl')).
Qed.

(** C6: in every document, a maximal run of three or more newlines
    (the text before it does not end with a newline, the text after it
    does not start with one) is replaced by exactly two newlines, the
    texts on both sides being normalized on their own; no fence
    boundary enters the rule. The transform applies this after the
    fence rewriter, to the whole rewritten document. *)
Theorem blank_run_collapses json_loads pre n post :
  3 ≤ n → last pre ≠ Some LF → head post ≠ Some LF →
  collapse_blank_lines (pre ++ repeat LF n ++ post) =
    collapse_blank_lines pre ++ [LF; LF] ++ collapse_blank_lines post
  ∧ ∀ text, format_markdown json_loads text =
      rstrip (collapse_blank_lines (rewrite_fences json_loads text)) ++ [LF].
Proof.
  intros Hn Hpre Hpost. split; [| done].
  change (squeezed 0 None (pre ++ repeat LF n ++ post) =
          squeezed 0 None pre ++ [LF; LF] ++ squeezed 0 None post).
  rewrite squeezed_app by done. f_equal.
  rewrite squeezed_run by done.
  apply Nat.leb_le in Hn. by rewrite Hn.
Qed.

(** Five blank lines between two paragraphs become one. *)
Lemma blank_run_collapses_witness :
  collapse_blank_lines (lit "one" ++ repeat LF 6 ++ lit "two") =
    lit "one" ++ [LF; LF] ++ lit "two".
Proof.
  destruct (blank_run_collapses rejecting (lit "one") 6 (lit "two")) as [-> _].
  - lia.
  - vm_compute. discriminate.
  - vm_compute. discriminate.
  - vm_compute. reflexivity.
Defined.

(** ** The matcher is complete for [Matches], and the order of its search *)

Lemma rep_greedy_complete {R} ok (k : option ascii → str → nat → option R)
    lo hi prev rest pos t rest' :
  rest = t ++ rest' → Forall (λ c, ok c = true) t →
  lo ≤ length t → within hi (length t) →
  is_Some (k (last_of prev t) rest' (pos + length t)) →
  is_Some (rep_greedy ok k lo hi prev rest pos).
Proof.
  revert lo hi prev rest pos.
  induction t as [| c t IH]; intros lo hi prev rest pos -> Hok Hlo Hhi Hk.
  - simpl in *. rewrite Nat.add_0_r in Hk.
    assert (lo = 0) as -> by lia.
    destruct rest' as [| c rest']; simpl; [done |].
    destruct (ok c && room hi); [| done].
    by destruct (rep_greedy _ _ _ _ _ _ _).
  - simpl. apply Forall_cons in Hok as [Hc Hok]. rewrite Hc.
    assert (room hi = true) as -> by (destruct hi as [[| h] |]; simpl in *; (done || lia)).
    simpl.
    assert (is_Some (rep_greedy ok k (pred lo) (less hi) (Some c) (t ++ rest') (S pos)))
      as [r ->].
    { apply (IH _ _ _ _ _ eq_refl Hok).
      - simpl in Hlo. lia.
      - destruct hi as [[| h] |]; simpl in *; (done || lia).
      - rewrite last_of_cons in Hk. simpl in Hk.
        by replace (S pos + length t) with (pos + S (length t)) by lia. }
    done.
Qed.

Lemma rep_lazy_complete {R} ok (k : option ascii → str → nat → option R)
    lo hi prev rest pos t rest' :
  rest = t ++ rest' → Forall (λ c, ok c = true) t →
  lo ≤ length t → within hi (length t) →
  is_Some (k (last_of prev t) rest' (pos + length t)) →
  is_Some (rep_lazy ok k lo hi prev rest pos).
Proof.
  revert lo hi prev rest pos.
  induction t as [| c t IH]; intros lo hi prev rest pos -> Hok Hlo Hhi Hk.
  - simpl in *. rewrite Nat.add_0_r in Hk.
    assert (lo = 0) as -> by lia.
    change (last_of prev []) with prev in Hk.
    destruct Hk as [r Hk]. destruct rest' as [| c rest']; simpl; by rewrite Hk.
  - simpl. apply Forall_cons in Hok as [Hc Hok]. rewrite Hc.
    assert (room hi = true) as -> by (destruct hi as [[| h] |]; simpl in *; (done || lia)).
    simpl.
    destruct (match lo with 0 => k prev (c :: t ++ rest') pos | S _ => None end);
      [done |].
    apply (IH _ _ _ _ _ eq_refl Hok).
    + simpl in Hlo. lia.
    + destruct hi as [[| h] |]; simpl in *; (done || lia).
    + rewrite last_of_cons in Hk. simpl in Hk.
      by replace (S pos + length t) with (pos + S (length t)) by lia.
Qed.

Theorem exec_complete fl r st t st' :
  Matches fl r st t st' →
  ∀ k, is_Some (k st') → is_Some (exec fl r st k).
Proof.
  induction 1 as
    [ st | a c st rest' Hrest Hc | st Hb | st He | st Hb
    | r1 r2 st t1 st1 t2 st2 H1 IH1 H2 IH2
    | r1 r2 st t st' H1 IH1 | r1 r2 st t st' H2 IH2
    | a lo hi greedy st t rest' Hrest Hok Hlo Hhi
    | n r st t st1 H1 IH1
    | n s st t rest' Hs Hrest Hlen Hsame ]; intros k Hk; simpl.
  - done.
  - rewrite Hrest, Hc. unfold after in Hk. simpl in Hk.
    by rewrite Nat.add_1_r in Hk.
  - by rewrite Hb.
  - by rewrite He.
  - by rewrite Hb.
  - apply IH1. by apply IH2.
  - destruct (IH1 k Hk) as [m ->]. done.
  - destruct (exec fl r1 st k); [done |]. by apply IH2.
  - destruct greedy;
      [eapply rep_greedy_complete | eapply rep_lazy_complete]; eauto.
  - apply IH1. by rewrite (set_cap_with_cap fl r n st t st1).
  - rewrite Hs. rewrite Hrest, <- Hlen, take_app_length, Hsame.
    rewrite drop_app_length. exact Hk.
Qed.

(** A lazy repetition stops at the first length for which the rest of
    the pattern matches. *)
Lemma rep_lazy_first {R} ok (k : option ascii → str → nat → option R)
    lo hi prev rest pos r :
  rep_lazy ok k lo hi prev rest pos = Some r →
  ∃ t rest', rest = t ++ rest' ∧ Forall (λ c, ok c = true) t
    ∧ lo ≤ length t ∧ within hi (length t)
    ∧ k (last_of prev t) rest' (pos + length t) = Some r
    ∧ ∀ t1 r1, rest = t1 ++ r1 → lo ≤ length t1 → length t1 < length t →
        k (last_of prev t1) r1 (pos + length t1) = None.
Proof.
  revert lo hi prev pos.
  induction rest as [| c rest IH]; intros lo hi prev pos H; simpl in H.
  - destruct lo; [| done].
    destruct (k prev [] pos) eqn:Hk; [| done]. injection H as ->.
    exists [], []. simpl. rewrite Nat.add_0_r.
    split_and!;
      try (done || lia || (by destruct hi; simpl; lia)
           || (intros; simpl in *; lia)).
  - destruct (match lo with 0 => k prev (c :: rest) pos | S _ => None end)
      as [r' |] eqn:Hstop.
    + injection H as ->. destruct lo; [| done].
      exists [], (c :: rest). simpl. rewrite Nat.add_0_r.
      split_and!;
        try (done || lia || (by destruct hi; simpl; lia)
             || (intros; simpl in *; lia)).
    + destruct (ok c && room hi) eqn:Hc; [| done].
      apply andb_true_iff in Hc as [Hc Hroom].
      apply IH in H as (t & rest' & -> & Ht & Hlo & Hhi & Hk & Hmin).
      exists (c :: t), rest'. rewrite last_of_cons. simpl.
      replace (pos + S (length t)) with (S pos + length t) by lia.
      split_and!; [done | by constructor | lia | | done |].
      * destruct hi as [[| h] |]; simpl in *; (done || lia).
      * intros t1 r1 Ht1 Hlo1 Hlen1. destruct t1 as [| c1 t1].
        -- simpl in *. subst r1. rewrite Nat.add_0_r.
           destruct lo; [done | lia].
        -- simpl in *. injection Ht1 as <- Ht1. rewrite last_of_cons.
           replace (pos + S (length t1)) with (S pos + length t1) by lia.
           apply Hmin; [done | lia | lia].
Qed.

(** A greedy repetition stops at the last length for which the rest of
    the pattern matches. *)
Lemma rep_greedy_last {R} ok (k : option ascii → str → nat → option R)
    lo hi prev rest pos r :
  rep_greedy ok k lo hi prev rest pos = Some r →
  ∃ t rest', rest = t ++ rest' ∧ Forall (λ c, ok c = true) t
    ∧ lo ≤ length t ∧ within hi (length t)
    ∧ k (last_of prev t) rest' (pos + length t) = Some r
    ∧ ∀ t1 r1, rest = t1 ++ r1 → Forall (λ c, ok c = true) t1 →
        within hi (length t1) → length t < length t1 →
        k (last_of prev t1) r1 (pos + length t1) = None.
Proof.
  revert lo hi prev pos.
  induction rest as [| c rest IH]; intros lo hi prev pos H; simpl in H.
  - destruct lo; [| done]. exists [], []. simpl.
    rewrite Nat.add_0_r.
    split_and!; try (done || lia || by destruct hi; simpl; lia).
    intros t1 r1 Ht1 _ _ Hlen. destruct t1; simpl in *; [lia | done].
  - assert (Hstop : match lo with 0 => k prev (c :: rest) pos | S _ => None end
                    = Some r →
            (∀ t1 r1, c :: rest = t1 ++ r1 → Forall (λ c, ok c = true) t1 →
               within hi (length t1) → 0 < length t1 →
               k (last_of prev t1) r1 (pos + length t1) = None) →
            ∃ t rest', c :: rest = t ++ rest' ∧ Forall (λ c, ok c = true) t
               ∧ lo ≤ length t ∧ within hi (length t)
               ∧ k (last_of prev t) rest' (pos + length t) = Some r
               ∧ ∀ t1 r1, c :: rest = t1 ++ r1 → Forall (λ c, ok c = true) t1 →
                   within hi (length t1) → length t < length t1 →
                   k (last_of prev t1) r1 (pos + length t1) = None).
    { intros Hk Hmax. destruct lo; [| done]. exists [], (c :: rest). simpl.
      rewrite Nat.add_0_r.
      split_and!; try (done || lia || by destruct hi; simpl; lia). }
    destruct (ok c && room hi) eqn:Hc.
    + destruct (rep_greedy ok k (pred lo) (less hi) (Some c) rest (S pos))
        as [r' |] eqn:Hrec.
      * injection H as ->. apply andb_true_iff in Hc as [Hc Hroom].
        apply IH in Hrec as (t & rest' & -> & Ht & Hlo & Hhi & Hk & Hmax).
        exists (c :: t), rest'. rewrite last_of_cons. simpl.
        replace (pos + S (length t)) with (S pos + length t) by lia.
        split_and!; [done | by constructor | lia | | done |].
        -- destruct hi as [[| h] |]; simpl in *; (done || lia).
        -- intros t1 r1 Ht1 Hok1 Hhi1 Hlen1. destruct t1 as [| c1 t1];
             simpl in *; [lia |].
           injection Ht1 as <- Ht1. rewrite last_of_cons.
           replace (pos + S (length t1)) with (S pos + length t1) by lia.
           apply Forall_cons in Hok1 as [_ Hok1].
           apply Hmax; [done | done | | lia].
           destruct hi as [[| h] |]; simpl in *; (done || lia).
      * apply Hstop; [done |].
        intros t1 r1 Ht1 Hok1 Hhi1 Hlen1.
        destruct t1 as [| c1 t1]; simpl in *; [lia |].
        injection Ht1 as <- Ht1. apply Forall_cons in Hok1 as [_ Hok1].
        destruct (k (last_of prev (c :: t1)) r1 (pos + S (length t1)))
          as [x |] eqn:Hx; [| done].
        exfalso.
        assert (is_Some (rep_greedy ok k (pred lo) (less hi) (Some c) rest (S pos)))
          as [y Hy]; [| congruence].
        eapply rep_greedy_complete; [exact Ht1 | done | | |].
        -- destruct lo; [simpl; lia |].
           simpl in H. (* the stop branch gave a result only when lo is 0 *)
           done.
        -- destruct hi as [[| h] |]; simpl in *; (done || lia).
        -- rewrite last_of_cons in Hx.
           replace (S pos + length t1) with (pos + S (length t1)) by lia.
           by rewrite Hx.
    + apply Hstop; [done |].
      intros t1 r1 Ht1 Hok1 Hhi1 Hlen1.
      destruct t1 as [| c1 t1]; simpl in *; [lia |].
      injection Ht1 as <- Ht1. apply Forall_cons in Hok1 as [Hc1 _].
      rewrite Hc1 in Hc. simpl in Hc.
      destruct hi as [[| h] |]; simpl in *; (done || lia).
Qed.

(** ** Lines *)

Lemma is_LF_true c : is_LF c = true ↔ c = LF.
Proof. unfold is_LF. rewrite ascii_eqb_eq. split; congruence. Qed.

Lemma is_LF_false c : is_LF c = false ↔ c ≠ LF.
Proof.
  rewrite <- is_LF_true. destruct (is_LF c); split; congruence.
Qed.

Lemma unlines_cons l ls : unlines (l :: ls) = l ++ unl ls.
Proof. destruct ls; simpl; [by rewrite app_nil_r | done]. Qed.

Lemma unl_app ls1 ls2 : unl (ls1 ++ ls2) = unl ls1 ++ unl ls2.
Proof.
  induction ls1 as [| l ls1 IH]; [done |].
  change ((l :: ls1) ++ ls2) with (l :: (ls1 ++ ls2)).
  unfold unl at 1 2. rewrite !unlines_cons, IH. simpl.
  by rewrite <- app_assoc.
Qed.

Lemma unlines_app ls1 ls2 :
  ls1 ≠ [] → unlines (ls1 ++ ls2) = unlines ls1 ++ unl ls2.
Proof.
  destruct ls1 as [| l ls1]; [done |]. intros _.
  change ((l :: ls1) ++ ls2) with (l :: (ls1 ++ ls2)).
  by rewrite !unlines_cons, unl_app, app_assoc.
Qed.

Lemma unlines_take_drop n ls :
  0 < n → n ≤ length ls → unlines ls = unlines (take n ls) ++ unl (drop n ls).
Proof.
  intros Hn Hlen. rewrite <- (take_drop n ls) at 1.
  apply unlines_app. destruct ls, n; simpl in *; (done || lia).
Qed.

Lemma lines_nonempty s : lines s ≠ [].
Proof.
  destruct s as [| c s]; simpl; [done |].
  destruct (is_LF c); [done |]. by destruct (lines s).
Qed.

Lemma lines_plain s : Forall plain (lines s).
Proof.
  induction s as [| c s IH]; simpl.
  - repeat constructor.
  - destruct (is_LF c) eqn:E.
    + constructor; [constructor | done].
    + apply is_LF_false in E. destruct (lines s) as [| l ls].
      * repeat constructor. done.
      * apply Forall_cons in IH as [Hl Hls].
        constructor; [by constructor | done].
Qed.

Lemma unlines_lines s : unlines (lines s) = s.
Proof.
  induction s as [| c s IH]; [done |]. simpl.
  destruct (is_LF c) eqn:E.
  - apply is_LF_true in E. subst c. rewrite unlines_cons.
    pose proof (lines_nonempty s). destruct (lines s); [done |].
    simpl in *. by rewrite IH.
  - pose proof (lines_nonempty s). destruct (lines s) as [| l ls]; [done |].
    rewrite unlines_cons in *. simpl. by rewrite IH.
Qed.

Lemma lines_app_LF a b : lines (a ++ LF :: b) = lines a ++ lines b.
Proof.
  induction a as [| c a IH]; [done |]. simpl. rewrite IH.
  destruct (is_LF c); [done |].
  pose proof (lines_nonempty a). by destruct (lines a).
Qed.

Lemma lines_of_plain l : plain l → lines l = [l].
Proof.
  induction 1 as [| c l Hc _ IH]; [done |]. simpl.
  apply is_LF_false in Hc. by rewrite Hc, IH.
Qed.

Lemma lines_app_plain l s :
  plain l → lines (l ++ s) = match lines s with
                             | l' :: ls => (l ++ l') :: ls
                             | [] => [l]
                             end.
Proof.
  pose proof (lines_nonempty s) as Hne.
  induction 1 as [| c l Hc _ IH]; simpl.
  - by destruct (lines s).
  - apply is_LF_false in Hc. rewrite Hc, IH. by destruct (lines s).
Qed.

Lemma lines_unlines ls :
  Forall plain ls → ls ≠ [] → lines (unlines ls) = ls.
Proof.
  induction 1 as [| l ls Hl Hls IH]; [done |]. intros _.
  destruct ls as [| l2 ls].
  - simpl. by apply lines_of_plain.
  - change (unlines (l :: l2 :: ls)) with (l ++ LF :: unlines (l2 :: ls)).
    rewrite lines_app_LF, IH by done. by rewrite lines_of_plain.
Qed.

(** Two ways to cut a text at a newline, the first line being plain:
    either at the end of that line, or later. *)
Lemma cut_at_newline (l y body x : str) :
  plain l → l ++ LF :: y = body ++ LF :: x →
  (body = l ∧ x = y) ∨ (∃ body2, body = l ++ LF :: body2 ∧ y = body2 ++ LF :: x).
Proof.
  intros Hl. revert body. induction Hl as [| c l Hc _ IH]; intros body H.
  - destruct body as [| c body]; simpl in *.
    + left. by injection H as <-.
    + right. injection H as <- ->. eauto.
  - destruct body as [| c2 body]; simpl in *.
    + injection H as -> _. done.
    + injection H as <- H. apply IH in H as [[-> ->] | (body2 & -> & ->)].
      * by left.
      * right. eauto.
Qed.

(** A plain prefix of a text made of lines lies within the first line. *)
Lemma plain_prefix (p y l : str) ls :
  plain p → plain l → p ++ y = l ++ unl ls →
  ∃ w, l = p ++ w ∧ y = w ++ unl ls.
Proof.
  intros Hp. revert l. induction Hp as [| c p Hc _ IH]; intros l Hl H.
  - exists l. done.
  - destruct l as [| c2 l]; simpl in *.
    + destruct ls; simpl in *; [done |]. injection H as -> _. done.
    + injection H as <- H. apply Forall_cons in Hl as [_ Hl].
      destruct (IH l Hl H) as (w & -> & ->). eauto.
Qed.

(** Where a text made of lines can be cut before a newline. *)
Lemma unlines_cut ls body x :
  Forall plain ls → unlines ls = body ++ LF :: x →
  ∃ i, S i < length ls ∧ body = unlines (take (S i) ls)
       ∧ x = unlines (drop (S i) ls).
Proof.
  intros Hls. revert body.
  induction Hls as [| l ls Hl Hls IH]; intros body H.
  - by destruct body.
  - rewrite unlines_cons in H. destruct ls as [| l2 ls].
    + simpl in H. rewrite app_nil_r in H. subst l. exfalso.
      unfold plain in Hl. rewrite Forall_app, Forall_cons in Hl.
      by destruct Hl as [_ [Hc _]].
    + simpl unl in H.
      apply cut_at_newline in H as [[-> ->] | (body2 & -> & H)]; [| | done].
      * exists 0. simpl. split; [lia | done].
      * apply IH in H as (i & Hi & -> & ->).
        exists (S i). split; [simpl in *; lia |].
        split; [| done].
        change (take (S (S i)) (l :: l2 :: ls)) with (l :: take (S i) (l2 :: ls)).
        rewrite unlines_cons. simpl take.
        destruct (take i ls); done.
Qed.

(** ** Openers and closers *)

Lemma span_app_stop ok (t rest : str) :
  Forall (λ c, ok c = true) t →
  match rest with c :: _ => ok c = false | [] => True end →
  span ok (t ++ rest) = length t.
Proof.
  intros Ht Hrest. induction Ht as [| c t Hc _ IH]; simpl.
  - destruct rest as [| c rest]; [done |]. simpl. by rewrite Hrest.
  - by rewrite Hc, IH.
Qed.

Lemma span_take ok (s : str) : Forall (λ c, ok c = true) (take (span ok s) s).
Proof.
  induction s as [| c s IH]; simpl; [constructor |].
  destruct (ok c) eqn:E; simpl; [by constructor | constructor].
Qed.

Lemma span_le ok (s : str) : span ok s ≤ length s.
Proof. induction s as [| c s IH]; simpl; [lia |]. destruct (ok c); simpl; lia. Qed.

Lemma startswith_app p s : startswith p (p ++ s) = true.
Proof. apply startswith_spec. eauto. Qed.

Lemma split_opener_intro indent info :
  Forall (λ c, is_indent c = true) indent → length indent ≤ 3 →
  split_opener (indent ++ FENCE ++ info) = Some (indent, info).
Proof.
  intros Hind Hlen. unfold split_opener.
  rewrite (span_app_stop is_indent indent (FENCE ++ info)) by done.
  apply Nat.leb_le in Hlen. rewrite Hlen.
  rewrite drop_app_length, startswith_app, take_app_length. simpl.
  rewrite drop_app_add'; [| done]. done.
Qed.

Lemma split_opener_elim l indent info :
  split_opener l = Some (indent, info) →
  l = indent ++ FENCE ++ info
  ∧ Forall (λ c, is_indent c = true) indent ∧ length indent ≤ 3.
Proof.
  unfold split_opener. intros H.
  destruct (span is_indent l <=? 3) eqn:Hlen; [| done].
  destruct (startswith FENCE (drop (span is_indent l) l)) eqn:Hf; [| done].
  injection H as <- <-. apply Nat.leb_le in Hlen.
  apply startswith_spec in Hf as [t Ht].
  split_and!.
  - rewrite <- (take_drop (span is_indent l) l) at 1. f_equal.
    rewrite Ht. f_equal. rewrite <- drop_drop, Ht. done.
  - apply span_take.
  - rewrite length_take. lia.
Qed.

Lemma blank_Forall l : blank l = true ↔ Forall (λ c, isspace c = true) l.
Proof.
  unfold blank. rewrite forallb_forall, Forall_forall.
  split; intros H c Hc; apply H; by apply list_elem_of_In.
Qed.

Lemma closes_intro indent w :
  blank w = true → closes indent (indent ++ FENCE ++ w) = true.
Proof.
  intros Hw. unfold closes. rewrite app_assoc, startswith_app. simpl.
  rewrite <- app_assoc.
  rewrite drop_app_add'; [| done]. by simpl.
Qed.

Lemma closes_elim indent l :
  closes indent l = true → ∃ w, l = indent ++ FENCE ++ w ∧ blank w = true.
Proof.
  unfold closes. intros [Hs Hb]%andb_true_iff.
  apply startswith_spec in Hs as [w ->]. exists w.
  rewrite <- app_assoc. split; [done |].
  rewrite <- app_assoc in Hb. rewrite drop_app_add' in Hb; [| done]. done.
Qed.

Lemma find_close_Some indent ls j :
  find_close indent ls = Some j ↔
  (∃ l, ls !! j = Some l ∧ closes indent l = true)
  ∧ ∀ i l, i < j → ls !! i = Some l → closes indent l = false.
Proof.
  revert j. induction ls as [| l0 ls IH]; intros j; simpl.
  - split; [done | intros [(l & H & _) _]; done].
  - destruct (closes indent l0) eqn:E.
    + split.
      * intros [= <-]. split; [eauto | intros; lia].
      * intros [_ Hmin]. destruct j as [| j]; [done |].
        specialize (Hmin 0 l0 ltac:(lia) eq_refl). congruence.
    + split.
      * intros H. destruct (find_close indent ls) as [j' |]; [| done].
        injection H as <-. destruct (IH j') as [[Hj Hmin] _]; [done |].
        split; [done |].
        intros [| i] l Hi Hl; simpl in *; [congruence |].
        eapply Hmin; [| done]. lia.
      * intros [(l & Hl & Hc) Hmin]. destruct j as [| j];
          simpl in *; [congruence |].
        assert (find_close indent ls = Some j) as ->; [| done].
        apply IH. split; [eauto |].
        intros i l' Hi Hl'. apply (Hmin (S i) l'); [lia | done].
Qed.

Lemma find_close_None indent ls :
  find_close indent ls = None ↔ Forall (λ l, closes indent l = false) ls.
Proof.
  induction ls as [| l ls IH]; simpl.
  - split; [constructor | done].
  - destruct (closes indent l) eqn:E.
    + split; [done | intros [H _]%Forall_cons; congruence].
    + destruct (find_close indent ls); simpl.
      * split; [done | intros [_ H]%Forall_cons]. by apply IH in H.
      * split; [| done]. intros _. constructor; [done | by apply IH].
Qed.

(** The blank lines that follow a line are whitespace, and what comes
    after them is nothing or a line that is not blank. *)
Lemma count_blank_spec ls :
  ∃ ws, unl ls = ws ++ unl (drop (count_blank ls) ls)
        ∧ Forall (λ c, isspace c = true) ws
        ∧ match drop (count_blank ls) ls with
          | l :: _ => blank l = false
          | [] => True
          end.
Proof.
  induction ls as [| l ls (ws & Hws & Hsp & Hnext)].
  - exists []. done.
  - cbn [count_blank]. destruct (blank l) eqn:E.
    + cbn [drop]. exists (LF :: l ++ ws).
      change (unl (l :: ls)) with (LF :: unlines (l :: ls)).
      rewrite unlines_cons, Hws.
      split_and!; [simpl; by rewrite <- app_assoc | | done].
      constructor; [done |]. apply Forall_app. split; [| done].
      by apply blank_Forall.
    + exists []. done.
Qed.

(** ** The fence pattern on a text given by its lines *)

Lemma exec_seq_inv fl r1 r2 st k res :
  exec fl (Seq r1 r2) st k = Some res →
  ∃ t st1, Matches fl r1 st t st1 ∧ exec fl r2 st1 k = Some res.
Proof. simpl. intros H. by apply exec_sound in H. Qed.

Lemma set_cap_after n st t rest' :
  ms_rest st = t ++ rest' →
  set_cap n st (after st t rest') = with_cap n t (after st t rest').
Proof.
  unfold set_cap, with_cap, after. simpl. intros ->.
  replace (ms_pos st + length t - ms_pos st) with (length t) by lia.
  by rewrite take_app_length.
Qed.

Lemma exec_seq_lazy fl n a lo hi r2 st k res :
  exec fl (Seq (Group n (Rep a lo hi false)) r2) st k = Some res →
  ∃ t rest', ms_rest st = t ++ rest'
    ∧ Forall (λ c, atom_ok fl a c = true) t
    ∧ lo ≤ length t ∧ within hi (length t)
    ∧ exec fl r2 (with_cap n t (after st t rest')) k = Some res
    ∧ ∀ t1 r1, ms_rest st = t1 ++ r1 → lo ≤ length t1 →
        length t1 < length t →
        exec fl r2 (with_cap n t1 (after st t1 r1)) k = None.
Proof.
  simpl. intros H.
  apply rep_lazy_first in H as (t & rest' & Hrest & Hok & Hlo & Hhi & Hk & Hmin).
  exists t, rest'. split_and!; try done.
  - rewrite <- (set_cap_after n st t rest' Hrest). exact Hk.
  - intros t1 r1 Hr1 Hlo1 Hlen1.
    rewrite <- (set_cap_after n st t1 r1 Hr1). by apply Hmin.
Qed.

Lemma exec_seq_greedy fl a lo hi r2 st k res :
  exec fl (Seq (Rep a lo hi true) r2) st k = Some res →
  ∃ t rest', ms_rest st = t ++ rest'
    ∧ Forall (λ c, atom_ok fl a c = true) t
    ∧ lo ≤ length t ∧ within hi (length t)
    ∧ exec fl r2 (after st t rest') k = Some res
    ∧ ∀ t1 r1, ms_rest st = t1 ++ r1 →
        Forall (λ c, atom_ok fl a c = true) t1 → within hi (length t1) →
        length t < length t1 →
        exec fl r2 (after st t1 r1) k = None.
Proof.
  simpl. intros H.
  apply rep_greedy_last in H as (t & rest' & Hrest & Hok & Hlo & Hhi & Hk & Hmax).
  exists t, rest'. split_and!; try done.
Qed.

Lemma fence_pattern_parts :
  fence_pattern =
    Seq Bol
      (Seq (Group 1 (Rep (OneOf [IChar " "; IChar TAB]) 0 (Some 3) true))
        (Seq (text FENCE)
          (Seq (Group 2 (star (NoneOf [IChar LF])))
            (Seq (One (Lit LF))
              (Seq (Group 3 (Rep Dot 0 None false)) fence_close))))).
Proof. reflexivity. Qed.

Lemma fence_close_parts :
  fence_close =
    Seq (Group 4 (Seq (One (Lit LF)) (Seq (Backref 1) (Seq (text FENCE) Eps))))
      (Seq (Rep Space 0 None true) (Seq Eol Eps)).
Proof. reflexivity. Qed.

Lemma exec_seq_complete fl r1 r2 st t st1 k :
  Matches fl r1 st t st1 → is_Some (exec fl r2 st1 k) →
  is_Some (exec fl (Seq r1 r2) st k).
Proof. intros H Hk. simpl. by eapply exec_complete. Qed.

Lemma FENCE_chars : FENCE = ["`"%char; "`"%char; "`"%char].
Proof. reflexivity. Qed.

Ltac states := cbn [ms_rest ms_caps ms_pos ms_prev after with_cap] in *.

(** The closing line and what follows it. *)
Lemma fence_close_sound st indent res :
  cap_lookup 1 (ms_caps st) = Some indent →
  exec flag_MS fence_close st Some = Some res →
  ∃ tail, ms_rest st = LF :: indent ++ FENCE ++ tail ++ ms_rest res
    ∧ Forall (λ c, isspace c = true) tail
    ∧ at_eol flag_MS (ms_rest res) = true
    ∧ ms_caps res = (4, LF :: indent ++ FENCE) :: ms_caps st
    ∧ ∀ t1 r1, tail ++ ms_rest res = t1 ++ r1 →
        Forall (λ c, isspace c = true) t1 → length tail < length t1 →
        at_eol flag_MS r1 = false.
Proof.
  intros Hcap H. rewrite fence_close_parts in H.
  apply exec_seq_inv in H as (t6 & s7 & M6 & H).
  apply exec_seq_greedy in H as (tail & r7 & Hr7 & Htail & _ & _ & H & Hmax).
  rewrite FENCE_chars in M6. cbn [text] in M6.
  inv_matches. states. eq_chars.
  match goal with
  | H : cap_lookup 1 _ = Some ?s, H' : same_text _ ?s ?t = true |- _ =>
      rewrite Hcap in H; injection H as <-;
      apply bool_decide_eq_true in H'; subst t
  end.
  simpl in H. destruct (at_eol flag_MS r7) eqn:Heol; [| done].
  injection H as <-. states.
  exists tail. split_and!; try done.
  intros t1 r1 Ht1 Hok1 Hlen1.
  specialize (Hmax t1 r1 Ht1 Hok1 I Hlen1). simpl in Hmax.
  by destruct (at_eol flag_MS r1).
Qed.

Lemma fence_close_complete st indent tail r :
  cap_lookup 1 (ms_caps st) = Some indent →
  ms_rest st = LF :: indent ++ FENCE ++ tail ++ r →
  Forall (λ c, isspace c = true) tail →
  at_eol flag_MS r = true →
  is_Some (exec flag_MS fence_close st Some).
Proof.
  intros Hcap Hrest Htail Heol. rewrite fence_close_parts.
  rewrite FENCE_chars in *. cbn [text].
  eapply exec_seq_complete.
  { apply M_Group. eapply M_Seq; [by eapply M_One |].
    eapply M_Seq.
    { eapply (M_Backref _ 1 indent _ indent); states; [done | done | done |].
      by apply bool_decide_eq_true. }
    eapply M_Seq; [| apply M_Eps].
    eapply M_Seq; [eapply M_One; states; [reflexivity | done] |].
    eapply M_Seq; [eapply M_One; states; [reflexivity | done] |].
    eapply M_Seq; [eapply M_One; states; [reflexivity | done] |].
    apply M_Eps. }
  eapply exec_seq_complete.
  { eapply (M_Rep _ _ _ _ _ _ tail r); states; [done | done | lia | done]. }
  simpl. states. by rewrite Heol.
Qed.

Lemma at_eol_unl ls : at_eol flag_MS (unl ls) = true.
Proof. by destruct ls. Qed.

Lemma plain_app (a b : str) : plain (a ++ b) ↔ plain a ∧ plain b.
Proof. apply Forall_app. Qed.

(** Whitespace that runs up to a line end covers the rest of the line
    it starts in. *)
Lemma tail_covers_line (tail r w : str) ls :
  tail ++ r = w ++ unl ls →
  Forall (λ c, isspace c = true) tail → plain w →
  at_eol flag_MS r = true →
  Forall (λ c, isspace c = true) w.
Proof.
  intros H Htail Hw. revert tail H Htail.
  induction Hw as [| c w Hc _ IH]; intros tail H Htail Heol; [constructor |].
  destruct tail as [| c' tail]; simpl in H.
  - subst r. simpl in Heol. apply andb_true_iff in Heol as [Heol _].
    apply ascii_eqb_eq in Heol. done.
  - injection H as -> H. apply Forall_cons in Htail as [Hc' Htail].
    constructor; [done |]. by eapply IH.
Qed.

Lemma app_cut (a b c d : str) :
  a ++ b = c ++ d → length c ≤ length a → ∃ e, a = c ++ e ∧ d = e ++ b.
Proof.
  revert a. induction c as [| x c IH]; intros a H Hlen; simpl in *.
  - exists a. done.
  - destruct a as [| y a]; simpl in *; [lia |].
    injection H as -> H. destruct (IH a H) as (e & -> & ->); [lia |]. eauto.
Qed.

Lemma plain_opener indent info :
  Forall (λ c, is_indent c = true) indent →
  Forall (λ c, atom_ok flag_MS (NoneOf [IChar LF]) c = true) info →
  plain (indent ++ FENCE) ∧ plain (indent ++ FENCE ++ info).
Proof.
  intros Hind Hinfo.
  assert (plain indent).
  { eapply Forall_impl; [exact Hind |]. intros c Hc ->. by vm_compute in Hc. }
  assert (plain FENCE) by (repeat constructor; done).
  assert (plain info).
  { eapply Forall_impl; [exact Hinfo |]. intros c Hc ->. by vm_compute in Hc. }
  split; rewrite ?plain_app; done.
Qed.

Lemma is_indent_atom c :
  atom_ok flag_MS (OneOf [IChar " "; IChar TAB]) c = is_indent c.
Proof. unfold is_indent. simpl. by rewrite orb_false_r. Qed.

Lemma unlines_take_lt i j ls :
  j < i → S i ≤ length ls →
  length (unlines (take (S j) ls)) < length (unlines (take (S i) ls)).
Proof.
  intros Hji Hi.
  rewrite (unlines_take_drop (S j) (take (S i) ls)); [| lia |].
  2:{ rewrite length_take. lia. }
  rewrite take_take, Nat.min_l by lia. rewrite length_app.
  assert (0 < length (unl (drop (S j) (take (S i) ls)))); [| lia].
  destruct (drop (S j) (take (S i) ls)) eqn:E.
  - apply (f_equal length) in E.
    rewrite length_drop, length_take, Nat.min_l in E by lia.
    change (length []) with 0 in E. lia.
  - simpl. lia.
Qed.

Lemma fence_here_sound prev l0 ls st :
  Forall plain (l0 :: ls) →
  match_here flag_MS fence_pattern prev (unlines (l0 :: ls)) = Some st →
  ∃ f, fence_at l0 ls = Some f
    ∧ ms_caps st = [(4, LF :: f_indent f ++ FENCE);
                    (3, unlines (take (f_body f) ls));
                    (2, f_info f); (1, f_indent f)]
    ∧ ms_rest st = unl (drop (S (f_body f) + f_blank f) ls)
    ∧ at_bol flag_MS prev = true.
Proof.
  intros Hplain H. apply Forall_cons in Hplain as [Hl0 Hls].
  unfold match_here in H. rewrite fence_pattern_parts in H.
  apply exec_seq_inv in H as (t0 & s1 & M0 & H).
  apply exec_seq_inv in H as (indent & s2 & M1 & H).
  apply exec_seq_inv in H as (t2 & s3 & M2 & H).
  apply exec_seq_inv in H as (info & s4 & M3 & H).
  apply exec_seq_inv in H as (t4 & s5 & M4 & H).
  apply exec_seq_lazy in H as (body & r5 & Hr5 & _ & _ & _ & H & Hmin).
  rewrite FENCE_chars in M2. cbn [text] in M2. unfold star in M3.
  inv_matches. states. eq_chars.
  repeat match goal with
         | H : ?x = _ ++ _ |- _ => is_var x; subst x
         | H : ?x = _ :: _ |- _ => is_var x; subst x
         end.
  match goal with
  | Ht : unlines (l0 :: ls) = _,
    Hi : Forall _ indent, Hw : within (Some 3) _,
    Hf : Forall _ info, Hb : at_bol _ _ = true |- _ =>
      rename Ht into Htext; rename Hi into Hind; rename Hw into Hlen;
      rename Hf into Hinfo; rename Hb into Hbol
  end.
  apply (fence_close_sound _ indent) in H
    as (tail & Hclose & Htail & Heol & Hcaps & Hmax); [| reflexivity].
  states. subst r5.
  assert (Hind' : Forall (λ c, is_indent c = true) indent).
  { eapply Forall_impl; [exact Hind |]. intros c Hc. by rewrite <- is_indent_atom. }
  destruct (plain_opener indent info Hind' Hinfo) as [Hpf Hpo].
  (* the first line is the opener *)
  rewrite unlines_cons in Htext.
  change (indent ++ "`"%char :: "`"%char :: "`"%char :: info ++ ?x)
    with (indent ++ FENCE ++ info ++ x) in Htext.
  assert (Hopen : l0 = indent ++ FENCE ++ info
                  ∧ unl ls = LF :: body ++ LF :: indent ++ FENCE ++ tail ++ ms_rest st).
  { assert (Htext' : (indent ++ FENCE ++ info)
                       ++ (LF :: body ++ LF :: indent ++ FENCE ++ tail ++ ms_rest st)
                     = l0 ++ unl ls).
    { rewrite Htext, <- !app_assoc. reflexivity. }
    destruct (plain_prefix _ _ _ _ Hpo Hl0 Htext') as (w & Hw1 & Hw2).
    destruct w as [| c w].
    - rewrite app_nil_r in Hw1. simpl in Hw2. by split.
    - exfalso. injection Hw2 as <- _. rewrite Hw1 in Hl0.
      apply plain_app in Hl0 as [_ Hl0]. by apply Forall_cons in Hl0 as [? _]. }
  destruct Hopen as [-> Hafter].
  destruct ls as [| b0 ls']; [done |].
  assert (Hafter' : unlines (b0 :: ls')
                    = body ++ LF :: indent ++ FENCE ++ tail ++ ms_rest st)
    by (unfold unl in Hafter; congruence).
  clear Hafter. rename Hafter' into Hafter.
  (* the body ends before a line that closes the fence *)
  destruct (unlines_cut _ _ _ Hls Hafter) as (i & Hi & Hbody & Hx).
  destruct (drop (S i) (b0 :: ls')) as [| cl more] eqn:Hdrop.
  { apply (f_equal length) in Hdrop. rewrite length_drop in Hdrop.
    change (length []) with 0 in Hdrop. lia. }
  assert (Hcl : plain cl ∧ Forall plain more).
  { apply Forall_cons. rewrite <- Hdrop. by apply Forall_drop. }
  destruct Hcl as [Hcl Hmore].
  rewrite unlines_cons in Hx.
  rewrite app_assoc in Hx.
  destruct (plain_prefix _ _ _ _ Hpf Hcl Hx) as (w & Hw1 & Hw2).
  assert (Hw : Forall (λ c, isspace c = true) w).
  { eapply tail_covers_line; [exact Hw2 | done | | done].
    rewrite Hw1 in Hcl. by apply plain_app in Hcl as [_ ?]. }
  assert (Hcloses : closes indent cl = true).
  { rewrite Hw1, <- app_assoc. apply closes_intro. by apply blank_Forall. }
  assert (Hlook : ls' !! i = Some cl).
  { change (ls' !! i) with ((b0 :: ls') !! (S i)).
    rewrite <- (Nat.add_0_r (S i)), <- lookup_drop, Hdrop. done. }
  assert (Hmore_eq : drop (S (S i)) (b0 :: ls') = more).
  { replace (S (S i)) with (S i + 1) by lia.
    by rewrite <- drop_drop, Hdrop. }
  (* no earlier line closes the fence *)
  assert (Hfirst : find_close indent ls' = Some i).
  { apply find_close_Some. split; [eauto |].
    intros j l Hj Hl. destruct (closes indent l) eqn:Hc; [exfalso | done].
    apply closes_elim in Hc as (w' & -> & Hw').
    assert (Hdj : drop (S j) (b0 :: ls')
                  = (indent ++ FENCE ++ w') :: drop (S (S j)) (b0 :: ls')).
    { by apply drop_S. }
    specialize (Hmin (unlines (take (S j) (b0 :: ls')))
                     (unl (drop (S j) (b0 :: ls')))).
    match type of Hmin with
    | _ → _ → _ → exec _ _ ?s0 _ = None =>
        assert (is_Some (exec flag_MS fence_close s0 Some)) as [x Hx']
    end.
    { eapply (fence_close_complete _ indent w'
                (unl (drop (S (S j)) (b0 :: ls')))).
      - reflexivity.
      - states. rewrite Hdj. unfold unl at 1. rewrite unlines_cons.
        by rewrite <- !app_assoc.
      - by apply blank_Forall.
      - apply at_eol_unl. }
    rewrite Hmin in Hx'; [done | | lia |].
    - rewrite <- Hafter. apply unlines_take_drop; [lia | simpl in *; lia].
    - rewrite Hbody. apply unlines_take_lt; [done | simpl in *; lia]. }
  (* the whitespace after the closing line runs to the last blank line *)
  destruct (count_blank_spec more) as (ws & Hws & Hwsp & Hnext).
  assert (Hrest : ms_rest st = unl (drop (count_blank more) more)).
  { rewrite Hws, app_assoc in Hw2.
    assert (Hle : length (w ++ ws) ≤ length tail).
    { destruct (Nat.le_gt_cases (length (w ++ ws)) (length tail)) as [? | Hgt];
        [done | exfalso].
      specialize (Hmax _ _ Hw2). rewrite at_eol_unl in Hmax.
      assert (true = false); [| done]. apply Hmax; [| done].
      apply Forall_app. done. }
    destruct (app_cut _ _ _ _ Hw2 Hle) as (e & He1 & He2).
    destruct e as [| c e]; [done | exfalso].
    rewrite He1 in Htail. apply Forall_app in Htail as [_ Htail].
    apply Forall_cons in Htail as [_ Htail].
    destruct (drop (count_blank more) more) as [| q more'] eqn:Hq; [done |].
    assert (Hq' : plain q).
    { assert (Forall plain (q :: more')) as [? _]%Forall_cons; [| done].
      rewrite <- Hq. by apply Forall_drop. }
    unfold unl in He2. rewrite unlines_cons in He2. injection He2 as _ He2.
    assert (Forall (λ c, isspace c = true) q).
    { eapply (tail_covers_line e (ms_rest st) q more'); done. }
    apply blank_Forall in H. congruence. }
  exists (Fence indent info (S i) (count_blank more)).
  cbn [f_indent f_info f_body f_blank]. split_and!.
  - unfold fence_at. rewrite split_opener_intro by (simpl in *; (done || lia)).
    rewrite Hfirst. by rewrite Hmore_eq.
  - by rewrite Hcaps, Hbody.
  - rewrite Hrest, <- Hmore_eq, drop_drop. done.
  - done.
Qed.

Lemma plain_NoneOf info :
  plain info → Forall (λ c, atom_ok flag_MS (NoneOf [IChar LF]) c = true) info.
Proof.
  intros H. eapply Forall_impl; [exact H |]. intros c Hc. simpl.
  destruct (ascii_eqb LF c) eqn:E; [| done].
  apply ascii_eqb_eq in E. simpl in Hc. congruence.
Qed.

(** Where the lines have a fence, the pattern matches. *)
Lemma fence_here_complete prev l0 ls f :
  Forall plain (l0 :: ls) →
  fence_at l0 ls = Some f → at_bol flag_MS prev = true →
  is_Some (match_here flag_MS fence_pattern prev (unlines (l0 :: ls))).
Proof.
  intros Hplain Hf Hbol. apply Forall_cons in Hplain as [Hl0 Hls].
  unfold fence_at in Hf.
  destruct (split_opener l0) as [[indent info] |] eqn:Hop; [| done].
  destruct ls as [| b0 ls']; [done |].
  destruct (find_close indent ls') as [j |] eqn:Hj; [| done]. clear Hf.
  apply split_opener_elim in Hop as (-> & Hind & Hlen).
  apply find_close_Some in Hj as [(cl & Hcl & Hc) _].
  apply closes_elim in Hc as (w & -> & Hw).
  assert (Hdrop : drop (S j) (b0 :: ls')
                  = (indent ++ FENCE ++ w) :: drop (S (S j)) (b0 :: ls')).
  { by apply drop_S. }
  assert (Hlt : S j < length (b0 :: ls')).
  { apply lookup_lt_Some in Hcl. simpl. lia. }
  match goal with
  | |- is_Some (match_here _ _ _ ?t) => assert (Htext : t
                  = indent ++ FENCE ++ info ++ LF
                    :: unlines (take (S j) (b0 :: ls'))
                    ++ LF :: indent ++ FENCE ++ w
                    ++ unl (drop (S (S j)) (b0 :: ls')))
  end.
  { rewrite unlines_cons. unfold unl at 1.
    rewrite (unlines_take_drop (S j) (b0 :: ls')) by lia.
    rewrite Hdrop. unfold unl at 1. rewrite unlines_cons.
    by rewrite <- !app_assoc. }
  rewrite Htext. clear Htext.
  apply plain_app in Hl0 as [_ Hl0]. apply plain_app in Hl0 as [_ Hinfo].
  unfold match_here. rewrite fence_pattern_parts.
  rewrite FENCE_chars in *. cbn [text].
  eapply exec_seq_complete; [by apply M_Bol |].
  eapply exec_seq_complete.
  { apply M_Group. eapply (M_Rep _ _ _ _ _ _ indent); states.
    - reflexivity.
    - eapply Forall_impl; [exact Hind |]. intros c Hc. by rewrite is_indent_atom.
    - lia.
    - done. }
  eapply exec_seq_complete.
  { eapply M_Seq; [eapply M_One; states; [reflexivity | done] |].
    eapply M_Seq; [eapply M_One; states; [reflexivity | done] |].
    eapply M_Seq; [eapply M_One; states; [reflexivity | done] |].
    apply M_Eps. }
  eapply exec_seq_complete.
  { apply M_Group. eapply (M_Rep _ _ _ _ _ _ info); states.
    - reflexivity.
    - by apply plain_NoneOf.
    - lia.
    - done. }
  eapply exec_seq_complete.
  { eapply M_One; states; [reflexivity | done]. }
  eapply exec_seq_complete.
  { apply M_Group.
    eapply (M_Rep _ _ _ _ _ _ (unlines (take (S j) (b0 :: ls')))); states.
    - reflexivity.
    - apply Forall_forall. done.
    - lia.
    - done. }
  eapply (fence_close_complete _ indent w).
  - reflexivity.
  - states. reflexivity.
  - by apply blank_Forall.
  - apply at_eol_unl.
Qed.

(** ** More on the blank-line normalizer *)

Lemma lead_three b : lead (LF :: LF :: LF :: b) = 3 + lead b.
Proof. reflexivity. Qed.

Lemma calm_spec s :
  calm s = true ↔ ∀ a b, s ≠ a ++ [LF; LF; LF] ++ b.
Proof.
  induction s as [| c s IH].
  - split; [| done]. intros _ a b H.
    apply (f_equal length) in H. rewrite length_app in H. simpl in H. lia.
  - cbn [calm]. rewrite andb_true_iff, IH, Nat.ltb_lt. split.
    + intros [Hlead Hs] [| d a] b H.
      * simpl in H. rewrite H, lead_three in Hlead. lia.
      * injection H as _ H. by apply (Hs a b).
    + intros H. split.
      * destruct (Nat.lt_ge_cases (lead (c :: s)) 3) as [? | Hge]; [done |].
        exfalso. destruct (lead_split (c :: s)) as [Hsplit _].
        destruct (lead (c :: s)) as [| [| [| n]]]; [lia | lia | lia |].
        apply (H [] (repeat LF n ++ drop (S (S (S n))) (c :: s))).
        exact Hsplit.
      * intros a b ->. by apply (H (c :: a) b).
Qed.

Lemma squeezed_calm_id s prev : calm s = true → squeezed 0 prev s = s.
Proof.
  revert prev. induction s as [| c s IH]; intros prev.
  - intros _. apply squeezed_nil.
  - cbn [calm]. intros [Hlead Hs]%andb_true_iff.
    rewrite squeezed_here. apply Nat.ltb_lt in Hlead.
    destruct (3 <=? lead (c :: s)) eqn:E; [apply Nat.leb_le in E; lia |].
    f_equal. by apply IH.
Qed.

Lemma calm_run k d s :
  k ≤ 2 → d ≠ LF → calm s = true → calm (repeat LF k ++ d :: s) = true.
Proof.
  intros Hk Hd Hs. apply is_LF_false in Hd.
  assert (Hds : calm (d :: s) = true).
  { cbn [calm]. unfold lead. simpl. by rewrite Hd. }
  assert (Hcons : ∀ c t, calm (c :: t) = (lead (c :: t) <? 3) && calm t) by done.
  destruct k as [| [| [| k]]]; [done | | | lia]; cbn [repeat app].
  - rewrite Hcons, Hds. unfold lead. simpl. by rewrite Hd.
  - rewrite 2!Hcons, Hds. unfold lead. simpl. by rewrite Hd.
Qed.

Lemma calm_newlines k : k ≤ 2 → calm (repeat LF k) = true.
Proof. intros Hk. destruct k as [| [| [| k]]]; [done | done | done | lia]. Qed.

Lemma squeezed_calm s : calm (squeezed 0 None s) = true.
Proof.
  remember (length s) as len eqn:Hlen. revert s Hlen.
  induction len as [len IH] using lt_wf_ind. intros s Hlen.
  destruct (lead_split s) as [Hsplit Hhead].
  remember (lead s) as k eqn:Hk. clear Hk.
  remember (drop k s) as post eqn:Hpost. clear Hpost. subst s.
  rewrite squeezed_run by done.
  destruct post as [| d tl].
  - rewrite squeezed_nil, app_nil_r.
    destruct (3 <=? k) eqn:E; [done |].
    apply calm_newlines. apply Nat.leb_gt in E. lia.
  - assert (Hd : d ≠ LF) by (intros ->; by apply Hhead).
    rewrite squeezed_other by done.
    assert (Htl : calm (squeezed 0 None tl) = true).
    { apply (IH (length tl)); [| done].
      subst len. rewrite length_app. simpl. lia. }
    destruct (3 <=? k) eqn:E.
    + by apply (calm_run 2).
    + apply calm_run; [| done | done]. apply Nat.leb_gt in E. lia.
Qed.

Lemma ink_newlines k : ink (repeat LF k) = [].
Proof. induction k as [| k IH]; [done |]. simpl. exact IH. Qed.

Lemma ink_app a b : ink (a ++ b) = ink a ++ ink b.
Proof. apply List.filter_app. Qed.

Lemma ink_length s : length (ink s) ≤ length s.
Proof. apply List.filter_length_le. Qed.

Lemma ink_prefix (X : str) k post R :
  ink X = [] → length X ≤ k →
  ink R = ink post ∧ length R ≤ length post →
  ink (X ++ R) = ink (repeat LF k ++ post)
  ∧ length (X ++ R) ≤ length (repeat LF k ++ post).
Proof.
  intros HX Hk [HR1 HR2].
  rewrite !ink_app, HX, ink_newlines, !length_app, repeat_length.
  split; [done | lia].
Qed.

Lemma squeezed_ink s :
  ink (squeezed 0 None s) = ink s
  ∧ length (squeezed 0 None s) ≤ length s.
Proof.
  remember (length s) as len eqn:Hlen. revert s Hlen.
  induction len as [len IH] using lt_wf_ind. intros s Hlen.
  destruct (lead_split s) as [Hsplit Hhead].
  remember (lead s) as k eqn:Hk. clear Hk.
  remember (drop k s) as post eqn:Hpost. clear Hpost. subst s.
  rewrite squeezed_run by done. rewrite Hlen.
  apply ink_prefix.
  - destruct (3 <=? k); [done | apply ink_newlines].
  - destruct (3 <=? k) eqn:E.
    + apply Nat.leb_le in E. simpl. lia.
    + by rewrite repeat_length.
  - destruct post as [| d tl]; [by rewrite squeezed_nil |].
    assert (Hd : d ≠ LF) by (intros ->; by apply Hhead).
    rewrite squeezed_other by done.
    destruct (IH (length tl)) with (s := tl) as [IH1 IH2]; [| done |].
    { subst len. rewrite length_app. simpl. lia. }
    apply is_LF_false in Hd. unfold ink in *. simpl. rewrite Hd. simpl.
    split; [by rewrite IH1 | lia].
Qed.

(** X1: the blank-line pass leaves no run of three newlines behind,
    whatever the text. *)
Theorem collapse_leaves_no_run s a b :
  collapse_blank_lines s ≠ a ++ [LF; LF; LF] ++ b.
Proof. apply calm_spec, squeezed_calm. Qed.

(** X2: the blank-line pass returns a text unchanged exactly when the
    text has no three newlines in a row. *)
Theorem collapse_fixed_points s :
  collapse_blank_lines s = s ↔ ∀ a b, s ≠ a ++ [LF; LF; LF] ++ b.
Proof.
  rewrite <- calm_spec. split.
  - intros H. rewrite <- H. apply squeezed_calm.
  - apply squeezed_calm_id.
Qed.

(** X3: running the blank-line pass a second time changes nothing. *)
Theorem collapse_idempotent s :
  collapse_blank_lines (collapse_blank_lines s) = collapse_blank_lines s.
Proof. apply squeezed_calm_id, squeezed_calm. Qed.

(** X4: the blank-line pass only removes newlines: the other
    characters of the text come out unchanged and in order, and the
    text never grows. *)
Theorem collapse_keeps_ink s :
  ink (collapse_blank_lines s) = ink s
  ∧ length (collapse_blank_lines s) ≤ length s.
Proof. apply squeezed_ink. Qed.

(** ** Stripping *)

Lemma lstrip_spaces (w s : str) :
  Forall (λ c, isspace c = true) w → lstrip (w ++ s) = lstrip s.
Proof.
  induction 1 as [| c w Hc _ IH]; [done |]. simpl. by rewrite Hc.
Qed.

Lemma lstrip_all_spaces (w : str) :
  Forall (λ c, isspace c = true) w → lstrip w = [].
Proof.
  intros H. rewrite <- (app_nil_r w). by rewrite lstrip_spaces.
Qed.

Lemma lstrip_split (s : str) :
  ∃ w, s = w ++ lstrip s ∧ Forall (λ c, isspace c = true) w.
Proof.
  induction s as [| c s (w & Hs & Hw)]; [by exists [] |]. simpl.
  destruct (isspace c) eqn:E.
  - exists (c :: w). split; [simpl; congruence | by constructor].
  - by exists [].
Qed.

Lemma lstrip_head (s : str) :
  match lstrip s with c :: _ => isspace c = false | [] => True end.
Proof.
  induction s as [| c s IH]; [done |]. simpl.
  destruct (isspace c) eqn:E; [done | exact E].
Qed.

Lemma lstrip_lstrip (s : str) : lstrip (lstrip s) = lstrip s.
Proof.
  pose proof (lstrip_head s) as H.
  destruct (lstrip s) as [| c t]; [done |]. simpl. by rewrite H.
Qed.

Lemma rstrip_spaces (s w : str) :
  Forall (λ c, isspace c = true) w → rstrip (s ++ w) = rstrip s.
Proof.
  intros Hw. unfold rstrip. rewrite rev_app_distr, lstrip_spaces; [done |].
  by apply Forall_rev.
Qed.

Lemma rstrip_split (s : str) :
  ∃ w, s = rstrip s ++ w ∧ Forall (λ c, isspace c = true) w.
Proof.
  unfold rstrip. destruct (lstrip_split (rev s)) as (w & Hs & Hw).
  exists (rev w). split; [| by apply Forall_rev].
  rewrite <- rev_app_distr, <- Hs. by rewrite rev_involutive.
Qed.

Lemma rstrip_last (s r : str) c :
  rstrip s = r ++ [c] → isspace c = false.
Proof.
  unfold rstrip. intros H. pose proof (lstrip_head (rev s)) as Hh.
  apply (f_equal (@rev ascii)) in H.
  rewrite rev_involutive, rev_app_distr in H. simpl in H.
  by rewrite H in Hh.
Qed.

Lemma rstrip_rstrip (s : str) : rstrip (rstrip s) = rstrip s.
Proof. unfold rstrip. by rewrite rev_involutive, lstrip_lstrip. Qed.

Lemma strip_padding (w1 s w2 : str) :
  Forall (λ c, isspace c = true) w1 → Forall (λ c, isspace c = true) w2 →
  strip (w1 ++ s ++ w2) = strip s.
Proof.
  intros H1 H2. unfold strip. rewrite lstrip_spaces by done. clear w1 H1.
  induction s as [| c s IH].
  - simpl. by rewrite lstrip_all_spaces.
  - simpl. destruct (isspace c); [exact IH |].
    change (c :: s ++ w2) with ((c :: s) ++ w2). by apply rstrip_spaces.
Qed.

Lemma strip_all_spaces (w : str) :
  Forall (λ c, isspace c = true) w → strip w = [].
Proof. intros H. unfold strip. by rewrite lstrip_all_spaces. Qed.

(** ** More on the language detector *)

(** X5: whitespace around the code does not change the answer of the
    detector. *)
Theorem detect_language_padding json_loads (w1 code w2 : str) :
  Forall (λ c, isspace c = true) w1 → Forall (λ c, isspace c = true) w2 →
  detect_language json_loads (w1 ++ code ++ w2)
  = detect_language json_loads code.
Proof.
  intros H1 H2. rewrite !detect_language_unfold. by rewrite strip_padding.
Qed.

Lemma detect_language_padding_witness :
  detect_language sample_loads ([LF; " "%char] ++ lit "{}" ++ [LF])
  = detect_language sample_loads (lit "{}").
Proof.
  apply (detect_language_padding sample_loads [LF; " "%char] (lit "{}") [LF]).
  - repeat constructor.
  - repeat constructor.
Defined.

(** X6: a body that is empty or holds only whitespace is tagged [text];
    the JSON decoder is not consulted. *)
Theorem detect_language_blank json_loads (code : str) :
  Forall (λ c, isspace c = true) code →
  detect_language json_loads code = lit "text".
Proof.
  intros H. rewrite detect_language_unfold, strip_all_spaces by done.
  reflexivity.
Qed.

Lemma detect_language_blank_witness :
  detect_language sample_loads [" "%char; LF; TAB] = lit "text".
Proof.
  apply (detect_language_blank sample_loads [" "%char; LF; TAB]).
  repeat constructor.
Defined.

(** ** The transform as a whole *)

Lemma fence_needs_backtick prev rest st :
  match_here flag_MS fence_pattern prev rest = Some st → "`"%char ∈ rest.
Proof.
  intros H. apply fence_match_shape in H as (Hshape & _ & _ & Hrest).
  destruct Hshape as (indent & info & body & tail & _ & Hwhole & _).
  cbn [whole] in Hwhole. rewrite Hrest, Hwhole, FENCE_chars.
  rewrite !elem_of_app. left. right. left. apply elem_of_cons. by left.
Qed.

Lemma scan_no_backtick prev rest :
  "`"%char ∉ rest → scan flag_MS fence_pattern 0 prev rest = map Keep rest.
Proof.
  revert prev. induction rest as [| c rest IH]; intros prev Hno.
  - cbn [scan map].
    destruct (match_here flag_MS fence_pattern prev []) eqn:E; [| done].
    by apply fence_needs_backtick in E.
  - cbn [scan map].
    destruct (match_here flag_MS fence_pattern prev (c :: rest)) eqn:E.
    + by apply fence_needs_backtick in E.
    + rewrite IH; [done |]. intros H. apply Hno. by apply elem_of_cons; right.
Qed.

Lemma concat_keep json_loads (s : str) :
  concat (map (render (add_lang_to_fence json_loads)) (map Keep s)) = s.
Proof. induction s as [| c s IH]; [done |]. simpl. by rewrite IH. Qed.

Lemma rewrite_fences_plain json_loads (t : str) :
  "`"%char ∉ t → rewrite_fences json_loads t = t.
Proof.
  intros H. unfold rewrite_fences, sub.
  rewrite scan_no_backtick by done. apply concat_keep.
Qed.

Lemma spaces_ink (s : str) :
  Forall (λ c, isspace c = true) (ink s) → Forall (λ c, isspace c = true) s.
Proof.
  induction s as [| c s IH]; [done |]. unfold ink. simpl.
  destruct (is_LF c) eqn:E; simpl.
  - intros H. apply is_LF_true in E. subst c. constructor; [done | by apply IH].
  - intros [? ?]%Forall_cons. constructor; [done | by apply IH].
Qed.

Lemma ink_spaces (s : str) :
  Forall (λ c, isspace c = true) s → Forall (λ c, isspace c = true) (ink s).
Proof.
  induction 1 as [| c s Hc _ IH]; [done |]. unfold ink. simpl.
  destruct (negb (is_LF c)); [by constructor | done].
Qed.

(** X7: the transform of any document ends with exactly one newline,
    and no whitespace stands before it. *)
Theorem format_markdown_ending json_loads (t : str) :
  ∃ r, format_markdown json_loads t = r ++ [LF]
       ∧ rstrip r = r
       ∧ ∀ r' c, r = r' ++ [c] → isspace c = false.
Proof.
  unfold format_markdown.
  exists (rstrip (collapse_blank_lines (rewrite_fences json_loads t))).
  split; [done |]. split; [apply rstrip_rstrip |].
  intros r' c H. by eapply rstrip_last.
Qed.

Lemma tidy_calm (x : str) :
  calm x = true → calm (rstrip x ++ [LF]) = true.
Proof.
  rewrite !calm_spec. intros Hx a b H.
  destruct (rstrip_split x) as (w & Hsplit & _).
  destruct b as [| c b _] using rev_ind.
  - change (a ++ [LF; LF; LF] ++ []) with (a ++ [LF; LF] ++ [LF]) in H.
    rewrite !app_assoc in H. apply app_inj_tail in H as [H _].
    change (a ++ [LF; LF]) with (a ++ [LF] ++ [LF]) in H.
    rewrite app_assoc in H. apply rstrip_last in H. by vm_compute in H.
  - rewrite !app_assoc in H. apply app_inj_tail in H as [H _].
    apply (Hx a (b ++ w)). rewrite Hsplit, H. by rewrite <- !app_assoc.
Qed.

(** X8: the transform of any document holds no three newlines in a
    row, inside code fences included. *)
Theorem format_markdown_no_run json_loads (t a b : str) :
  format_markdown json_loads t ≠ a ++ [LF; LF; LF] ++ b.
Proof.
  revert a b. apply calm_spec. unfold format_markdown.
  apply tidy_calm, squeezed_calm.
Qed.

(** X9: a document without a backtick goes through the fence pass
    unchanged; its transform is the blank-line pass, the final strip
    and the newline, whatever the JSON decoder. *)
Theorem format_markdown_plain json_loads (t : str) :
  "`"%char ∉ t →
  rewrite_fences json_loads t = t
  ∧ format_markdown json_loads t = rstrip (collapse_blank_lines t) ++ [LF].
Proof.
  intros H. unfold format_markdown. by rewrite rewrite_fences_plain.
Qed.

Lemma format_markdown_plain_witness :
  rewrite_fences rejecting (lit "a  b" ++ [LF; LF; LF; LF] ++ lit "c ")
  = lit "a  b" ++ [LF; LF; LF; LF] ++ lit "c "
  ∧ format_markdown rejecting (lit "a  b" ++ [LF; LF; LF; LF] ++ lit "c ")
    = rstrip (collapse_blank_lines
                (lit "a  b" ++ [LF; LF; LF; LF] ++ lit "c ")) ++ [LF].
Proof.
  apply (format_markdown_plain rejecting
           (lit "a  b" ++ [LF; LF; LF; LF] ++ lit "c ")).
  vm_compute. intros H. repeat (apply elem_of_cons in H as [H | H]; [discriminate H |]).
  by apply elem_of_nil in H.
Defined.

(** X10: an empty document, or one of whitespace only, becomes a single
    newline. *)
Theorem format_markdown_blank json_loads (t : str) :
  Forall (λ c, isspace c = true) t → format_markdown json_loads t = [LF].
Proof.
  intros H. unfold format_markdown.
  rewrite rewrite_fences_plain.
  2:{ intros Hin. rewrite Forall_forall in H. by apply H in Hin. }
  change (collapse_blank_lines t) with (squeezed 0 None t).
  assert (Hs : Forall (λ c, isspace c = true) (squeezed 0 None t)).
  { apply spaces_ink. destruct (squeezed_ink t) as [-> _]. by apply ink_spaces. }
  rewrite <- (app_nil_l (squeezed 0 None t)).
  by rewrite rstrip_spaces.
Qed.

Lemma format_markdown_blank_witness :
  format_markdown rejecting [LF; " "%char; TAB; LF] = [LF].
Proof.
  apply (format_markdown_blank rejecting [LF; " "%char; TAB; LF]).
  repeat constructor.
Defined.

(** ** The fence rewriter is the walk over the lines *)

Lemma fenced_skip json_loads (t : str) prev rest :
  fenced json_loads (length t) prev (t ++ rest)
  = fenced json_loads 0 (last_of prev t) rest.
Proof.
  revert prev. induction t as [| c t IH]; intros prev; [done |].
  rewrite last_of_cons, <- IH. reflexivity.
Qed.

Lemma fence_match_pos prev rest st :
  match_here flag_MS fence_pattern prev rest = Some st → 0 < ms_pos st.
Proof.
  intros H. apply fence_match_shape in H as (Hshape & _).
  destruct Hshape as (indent & info & body & tail & _ & Hwhole & _).
  cbn [whole] in Hwhole. apply (f_equal length) in Hwhole.
  rewrite length_take, !length_app, FENCE_chars in Hwhole.
  simpl in Hwhole. lia.
Qed.

Lemma fenced_nil json_loads prev : fenced json_loads 0 prev [] = [].
Proof.
  unfold fenced. cbn [scan].
  destruct (match_here flag_MS fence_pattern prev []) eqn:E; [| done].
  apply fence_needs_backtick in E. by apply elem_of_nil in E.
Qed.

Lemma fenced_pass json_loads prev c rest :
  match_here flag_MS fence_pattern prev (c :: rest) = None →
  fenced json_loads 0 prev (c :: rest)
  = c :: fenced json_loads 0 (Some c) rest.
Proof. intros H. unfold fenced. cbn [scan]. by rewrite H. Qed.

Lemma fenced_hit json_loads prev rest st :
  match_here flag_MS fence_pattern prev rest = Some st →
  fenced json_loads 0 prev rest
  = add_lang_to_fence json_loads (MObj (take (ms_pos st) rest) st)
    ++ fenced json_loads 0 (last_of prev (take (ms_pos st) rest)) (ms_rest st).
Proof.
  intros H. pose proof (fence_match_pos _ _ _ H) as Hpos.
  destruct (match_here_sound _ _ _ _ _ H) as (t & _ & Hrest & Hlen & Htake).
  rewrite Htake.
  destruct t as [| d t]; [simpl in Hlen; lia |].
  destruct rest as [| c rest']; [done |].
  injection Hrest as -> ->.
  unfold fenced at 1. cbn [scan]. rewrite H, Hlen.
  cbn [length map concat render]. f_equal.
  - rewrite Hlen in Htake. cbn [length] in Htake. by rewrite Htake.
  - rewrite last_of_cons. apply (fenced_skip json_loads t (Some d)).
Qed.

Lemma no_fence_off_line prev rest :
  at_bol flag_MS prev = false →
  match_here flag_MS fence_pattern prev rest = None.
Proof.
  intros H. destruct (match_here _ _ _ _) eqn:E; [| done].
  apply fence_match_shape in E as (_ & Hb & _). congruence.
Qed.

Lemma no_fence_at_newline prev rest :
  match_here flag_MS fence_pattern prev (LF :: rest) = None.
Proof.
  destruct (match_here _ _ _ _) eqn:E; [| done]. exfalso.
  apply fence_match_shape in E as (Hshape & _ & _ & Hrest).
  destruct Hshape as (indent & info & body & tail & _ & Hwhole & Hind & _).
  cbn [whole] in Hwhole. rewrite Hwhole in Hrest.
  destruct indent as [| c indent].
  - rewrite FENCE_chars in Hrest. injection Hrest as Hc _. by vm_compute in Hc.
  - injection Hrest as <- _.
    apply Forall_cons in Hind as [[Hc | Hc] _]; by vm_compute in Hc.
Qed.

Lemma fenced_line json_loads (l : str) c rest :
  plain l → c ≠ LF →
  fenced json_loads 0 (Some c) (l ++ rest)
  = l ++ fenced json_loads 0 (last_of (Some c) l) rest.
Proof.
  revert c. induction l as [| d l IH]; intros c Hl Hc; [done |].
  apply Forall_cons in Hl as [Hd Hl].
  change ((d :: l) ++ rest) with (d :: (l ++ rest)).
  rewrite fenced_pass.
  2:{ apply no_fence_off_line. simpl.
      destruct (ascii_eqb c LF) eqn:E; [| done].
      by apply ascii_eqb_eq in E. }
  rewrite IH by done. by rewrite (last_of_cons (Some c)).
Qed.

Lemma fenced_first_line json_loads prev (l : str) rest :
  plain l → match_here flag_MS fence_pattern prev (l ++ rest) = None →
  fenced json_loads 0 prev (l ++ rest)
  = l ++ fenced json_loads 0 (last_of prev l) rest.
Proof.
  intros Hl H. destruct l as [| d l]; [done |].
  apply Forall_cons in Hl as [Hd Hl].
  change ((d :: l) ++ rest) with (d :: (l ++ rest)) in *.
  rewrite fenced_pass by done. rewrite fenced_line by done.
  by rewrite last_of_cons.
Qed.

Section Walk.

Variable detect : str → str.

Lemma rewrite_lines_Drop k ls :
  rewrite_lines detect (Drop k) ls
  = rewrite_lines detect (Copy 0) (drop k ls).
Proof.
  revert k. induction ls as [| l ls IH]; intros k; [by destruct k |].
  destruct k as [| k]; [done |]. apply IH.
Qed.

Lemma rewrite_lines_Copy k ls :
  rewrite_lines detect (Copy k) ls
  = take k ls ++ rewrite_lines detect (Copy 0) (drop k ls).
Proof.
  revert k. induction ls as [| l ls IH]; intros k; [by destruct k |].
  destruct k as [| k]; [done |]. simpl. by rewrite IH.
Qed.

Lemma fence_at_blank l ls : blank l = true → fence_at l ls = None.
Proof.
  intros Hl. unfold fence_at.
  destruct (split_opener l) as [[indent info] |] eqn:E; [| done].
  apply split_opener_elim in E as (-> & _). exfalso.
  apply blank_Forall in Hl.
  apply Forall_app in Hl as [_ Hl]. apply Forall_app in Hl as [Hl _].
  rewrite FENCE_chars in Hl. apply Forall_cons in Hl as [Hl _].
  by vm_compute in Hl.
Qed.

Lemma rewrite_lines_blank bl ls :
  Forall (λ l, blank l = true) bl →
  rewrite_lines detect (Copy 0) (bl ++ ls)
  = bl ++ rewrite_lines detect (Copy 0) ls.
Proof.
  induction 1 as [| l bl Hl _ IH]; [done |].
  simpl. rewrite fence_at_blank by done. by rewrite IH.
Qed.

Lemma count_blank_take ls :
  Forall (λ l, blank l = true) (take (count_blank ls) ls).
Proof.
  induction ls as [| l ls IH]; [done |]. simpl.
  destruct (blank l) eqn:E; [by constructor | done].
Qed.

Lemma rewrite_lines_nonempty l ls :
  rewrite_lines detect (Copy 0) (l :: ls) ≠ [].
Proof.
  simpl. destruct (fence_at l ls); [| done].
  by destruct (bool_decide _).
Qed.

End Walk.

Lemma unlines_take_unl k l0 ls :
  unlines (l0 :: ls) = unlines (l0 :: take k ls) ++ unl (drop k ls).
Proof.
  rewrite <- (take_drop k ls) at 1.
  change (l0 :: take k ls ++ drop k ls) with ((l0 :: take k ls) ++ drop k ls).
  by rewrite unlines_app.
Qed.

Lemma unl_cons l ls : unl (l :: ls) = LF :: l ++ unl ls.
Proof. unfold unl at 1. by rewrite unlines_cons. Qed.

Lemma fence_at_inv l0 ls f :
  fence_at l0 ls = Some f →
  ∃ b0 ls' j, ls = b0 :: ls'
    ∧ split_opener l0 = Some (f_indent f, f_info f)
    ∧ find_close (f_indent f) ls' = Some j
    ∧ f_body f = S j
    ∧ f_blank f = count_blank (drop (S (S j)) ls).
Proof.
  unfold fence_at. intros H.
  destruct (split_opener l0) as [[indent info] |]; [| done].
  destruct ls as [| b0 ls']; [done |].
  destruct (find_close indent ls') as [j |] eqn:Hj; [| done].
  injection H as <-. exists b0, ls', j. done.
Qed.

(** The pattern, tried from the start of a line, writes what the walk
    writes for the lines that remain. *)
Lemma fenced_lines json_loads n ls prev :
  length ls ≤ n → ls ≠ [] → Forall plain ls → at_bol flag_MS prev = true →
  fenced json_loads 0 prev (unlines ls)
  = unlines (rewrite_lines (detect_language json_loads) (Copy 0) ls).
Proof.
  revert ls prev. induction n as [n IH] using lt_wf_ind.
  intros ls prev Hn Hne Hplain Hbol.
  destruct ls as [| l0 ls]; [done |]. clear Hne.
  assert (HB : ∀ ls2 prev2, length ls2 ≤ length ls → Forall plain ls2 →
            fenced json_loads 0 prev2 (unl ls2)
            = unl (rewrite_lines (detect_language json_loads) (Copy 0) ls2)).
  { intros ls2 prev2 Hlen Hp2. destruct ls2 as [| q more]; [apply fenced_nil |].
    unfold unl at 1. rewrite fenced_pass by apply no_fence_at_newline.
    rewrite (IH (length (q :: more))); [| simpl in *; lia | done | done | done | done].
    pose proof (rewrite_lines_nonempty (detect_language json_loads) q more) as Hne.
    by destruct (rewrite_lines _ _ (q :: more)). }
  pose proof Hplain as Hplain'. apply Forall_cons in Hplain' as [Hl0 Hls].
  destruct (fence_at l0 ls) as [f |] eqn:Hf.
  - (* a fence starts on this line *)
    destruct (fence_here_complete prev l0 ls f Hplain Hf Hbol) as [st Hst].
    destruct (fence_here_sound prev l0 ls st Hplain Hst)
      as (f' & Hf' & Hcaps & Hrest & _).
    rewrite Hf in Hf'. injection Hf' as <-.
    rewrite (fenced_hit _ _ _ _ Hst).
    destruct (match_here_sound _ _ _ _ _ Hst) as (t & _ & Htext & _ & Htake).
    rewrite Htake, Hrest.
    rewrite HB; [| rewrite length_drop; lia | by apply Forall_drop].
    assert (Ht : t = unlines (l0 :: take (S (f_body f) + f_blank f) ls)).
    { rewrite (unlines_take_unl (S (f_body f) + f_blank f)), Hrest in Htext.
      by apply app_inv_tail in Htext. }
    destruct (fence_at_inv _ _ _ Hf) as (b0 & ls' & j & Hls' & Hop & Hj & Hb & Hfb).
    cbn [rewrite_lines]. rewrite Hf.
    unfold add_lang_to_fence.
    destruct (fence_shape_groups (MObj t st) _ _ _ Hcaps) as (-> & -> & -> & ->).
    cbn [whole].
    destruct (bool_decide (strip (f_info f) = [])) eqn:Htag.
    + rewrite rewrite_lines_Drop.
      rewrite unlines_cons.
      assert (Hne : take (f_body f) ls ≠ []) by (by rewrite Hb, Hls').
      unfold unl at 2.
      destruct (take (f_body f) ls ++ _) as [| x xs] eqn:Hx.
      { by apply app_eq_nil in Hx as [? _]. }
      rewrite <- Hx. rewrite unlines_app by done.
      cbn [app]. rewrite !unl_cons.
      repeat (progress (rewrite <- ?app_assoc; cbn [app])). reflexivity.
    + rewrite (rewrite_lines_Copy _ (S (f_body f))).
      rewrite <- (take_drop (f_blank f) (drop (S (f_body f)) ls)).
      rewrite rewrite_lines_blank.
      2:{ rewrite Hfb, Hb. apply count_blank_take. }
      rewrite drop_drop, app_assoc, take_take_drop.
      change (l0 :: take (S (f_body f) + f_blank f) ls ++ ?R)
        with ((l0 :: take (S (f_body f) + f_blank f) ls) ++ R).
      rewrite unlines_app by done. by rewrite Ht.
  - (* no fence on this line *)
    assert (Hno : match_here flag_MS fence_pattern prev (unlines (l0 :: ls)) = None).
    { destruct (match_here _ _ _ _) as [st |] eqn:E; [| done].
      destruct (fence_here_sound _ _ _ _ Hplain E) as (f & Hf' & _). congruence. }
    rewrite unlines_cons in *. rewrite fenced_first_line by done.
    rewrite HB by done.
    cbn [rewrite_lines]. rewrite Hf. by rewrite unlines_cons.
Qed.

(** The fence rewriter, on the lines of the text. *)
Lemma rewrite_fences_lines json_loads (t : str) :
  rewrite_fences json_loads t
  = unlines (rewrite_lines (detect_language json_loads) (Copy 0) (lines t)).
Proof.
  rewrite <- (unlines_lines t) at 1.
  apply (fenced_lines json_loads (length (lines t))); [done | | | done].
  - apply lines_nonempty.
  - apply lines_plain.
Qed.

(** ** Fences, line by line *)

Lemma all_tagged_here l ls :
  all_tagged 0 (l :: ls) =
    match fence_at l ls with
    | Some f =>
        negb (bool_decide (strip (f_info f) = []))
        && all_tagged (S (f_body f)) ls
    | None => all_tagged 0 ls
    end.
Proof. reflexivity. Qed.

Lemma fence_at_door l ls :
  fence_at l ls =
    match split_opener l with
    | Some (indent, info) =>
        (λ j, Fence indent info (S j) (count_blank (drop (S (S j)) ls)))
          <$> door indent ls
    | None => None
    end.
Proof.
  unfold fence_at, door. destruct (split_opener l) as [[indent info] |]; [| done].
  destruct ls as [| b0 ls']; [done |]. by destruct (find_close indent ls').
Qed.

Lemma closes_blank indent l : blank l = true → closes indent l = false.
Proof.
  intros Hl. destruct (closes indent l) eqn:E; [| done]. exfalso.
  apply closes_elim in E as (w & -> & _). apply blank_Forall in Hl.
  apply Forall_app in Hl as [_ Hl]. apply Forall_app in Hl as [Hl _].
  rewrite FENCE_chars in Hl. apply Forall_cons in Hl as [Hl _].
  by vm_compute in Hl.
Qed.

Lemma closes_trim indent (a w : str) :
  blank w = true → closes indent (a ++ w) = closes indent a.
Proof.
  intros Hw. apply eq_true_iff_eq. split.
  - intros H. apply closes_elim in H as (w' & H & Hw').
    rewrite app_assoc in H.
    apply app_eq_app in H as [e [[-> ->] | [Hp ->]]].
    + rewrite <- app_assoc. apply closes_intro.
      apply blank_Forall. apply blank_Forall in Hw'.
      by apply Forall_app in Hw' as [? _].
    + destruct e as [| c e _] using rev_ind.
      * rewrite app_nil_r in Hp. subst a.
        rewrite <- (app_nil_r (indent ++ FENCE)), <- app_assoc.
        by apply closes_intro.
      * exfalso. apply blank_Forall in Hw.
        apply Forall_app in Hw as [Hw _]. apply Forall_app in Hw as [_ Hw].
        apply Forall_cons in Hw as [Hc _].
        rewrite FENCE_chars in Hp.
        change (indent ++ ["`"%char; "`"%char; "`"%char])
          with (indent ++ ["`"%char; "`"%char] ++ ["`"%char]) in Hp.
        rewrite !app_assoc in Hp. apply app_inj_tail in Hp as [_ <-].
        by vm_compute in Hc.
  - intros H. apply closes_elim in H as (w' & -> & Hw').
    rewrite <- !app_assoc. apply closes_intro.
    apply blank_Forall, Forall_app. split; by apply blank_Forall.
Qed.

Lemma find_close_cons_blank indent l ls :
  blank l = true → find_close indent (l :: ls) = S <$> find_close indent ls.
Proof. intros H. simpl. by rewrite closes_blank. Qed.

Lemma find_close_app indent la lb :
  find_close indent (la ++ lb) =
    match find_close indent la with
    | Some j => Some j
    | None => (λ j, length la + j) <$> find_close indent lb
    end.
Proof.
  induction la as [| l la IH]; simpl.
  - by destruct (find_close indent lb).
  - destruct (closes indent l); [done |]. rewrite IH.
    destruct (find_close indent la); [done |].
    by destruct (find_close indent lb).
Qed.

Lemma find_close_blanks indent bl :
  Forall (λ l, blank l = true) bl → find_close indent bl = None.
Proof.
  intros H. apply find_close_None. eapply Forall_impl; [exact H |].
  intros l Hl. by apply closes_blank.
Qed.

Lemma find_close_take indent ls j :
  find_close indent ls = Some j →
  find_close indent (take j ls) = None ∧ j < length ls
  ∧ ∃ w, ls !! j = Some (indent ++ FENCE ++ w) ∧ blank w = true.
Proof.
  revert j. induction ls as [| l ls IH]; intros j H; [done |].
  simpl in H. destruct (closes indent l) eqn:E.
  - injection H as <-. split; [done |]. split; [simpl; lia |].
    apply closes_elim in E as (w & -> & Hw). by exists w.
  - destruct (find_close indent ls) as [j' |]; [| done].
    injection H as <-. destruct (IH j' eq_refl) as (H1 & H2 & H3).
    split; [| split; [simpl; lia | done]].
    simpl. by rewrite E, H1.
Qed.

Lemma all_tagged_skip la lb k :
  all_tagged (length la + k) (la ++ lb) = all_tagged k lb.
Proof. induction la as [| l la IH]; [done |]. exact IH. Qed.

Lemma all_tagged_blanks bl k :
  Forall (λ l, blank l = true) bl → all_tagged k bl = true.
Proof.
  intros H. revert k. induction H as [| l bl Hl _ IH]; intros k; [done |].
  destruct k as [| k]; [| apply IH].
  rewrite all_tagged_here, fence_at_blank by done. apply IH.
Qed.

Lemma door_blanks indent la bl :
  Forall (λ l, blank l = true) bl → door indent (la ++ bl) = door indent la.
Proof.
  intros Hbl. destruct la as [| m la]; simpl.
  - destruct bl as [| b bl]; [done |]. simpl.
    apply Forall_cons in Hbl as [_ Hbl]. by apply find_close_blanks.
  - rewrite find_close_app, (find_close_blanks indent bl) by done.
    by destruct (find_close indent la).
Qed.

Lemma door_last indent la (a w : str) :
  blank w = true → door indent (la ++ [a ++ w]) = door indent (la ++ [a]).
Proof.
  intros Hw. destruct la as [| m la]; [done |]. simpl.
  rewrite !find_close_app. simpl. by rewrite closes_trim.
Qed.

Lemma door_squeeze indent la lb :
  match door indent (la ++ [] :: [] :: lb) with
  | Some j =>
      (S j < length la ∧ door indent (la ++ [] :: lb) = Some j)
      ∨ (length la + 2 ≤ S j ∧ door indent (la ++ [] :: lb) = Some (pred j))
  | None => door indent (la ++ [] :: lb) = None
  end.
Proof.
  destruct la as [| m la]; cbn [door app length].
  - rewrite find_close_cons_blank by done.
    destruct (find_close indent lb) as [x |]; simpl; [| done].
    right. split; [lia | done].
  - rewrite !find_close_app.
    destruct (find_close indent la) as [j |] eqn:E.
    + left. apply find_close_take in E as (_ & E & _).
      split; [exact (proj1 (Nat.succ_lt_mono _ _) E) | done].
    + rewrite !find_close_cons_blank by done.
      destruct (find_close indent lb) as [x |]; simpl; [| done].
      change (list ascii) with str in *.
      right. split; [lia |]. f_equal. lia.
Qed.

(** Dropping one of two empty lines that follow each other keeps a
    text without untagged fences so; [k] lines are still to be passed
    over. *)
Lemma all_tagged_squeeze la lb k :
  all_tagged k (la ++ [] :: [] :: lb) = true →
  all_tagged (if k <=? length la then k else pred k) (la ++ [] :: lb) = true.
Proof.
  revert k. induction la as [| l la IH]; intros k.
  - destruct k as [| k]; [done |]. simpl. by destruct k.
  - destruct k as [| k].
    + change (0 <=? length (l :: la)) with true. cbv iota.
      change ((l :: la) ++ ?x) with (l :: (la ++ x)).
      rewrite !all_tagged_here, !fence_at_door.
      destruct (split_opener l) as [[indent info] |]; [| apply (IH 0)].
      pose proof (door_squeeze indent la lb) as Hd.
      destruct (door indent (la ++ [] :: [] :: lb)) as [j |].
      * cbn [fmap option_fmap option_map f_info f_body].
        intros [Htag Hrest]%andb_true_iff. apply IH in Hrest.
        destruct Hd as [[Hj ->] | [Hj ->]];
          cbn [fmap option_fmap option_map f_info f_body];
          rewrite Htag; cbn [andb].
        -- destruct (S (S j) <=? length la) eqn:E; [done |].
           apply Nat.leb_gt in E. lia.
        -- destruct (S (S j) <=? length la) eqn:E;
             [apply Nat.leb_le in E; lia |].
           destruct j as [| j]; [lia | done].
      * rewrite Hd. apply (IH 0).
    + change ((l :: la) ++ ?x) with (l :: (la ++ x)). cbn [all_tagged].
      intros H. apply IH in H. cbn [length].
      destruct (k <=? length la) eqn:E.
      * apply Nat.leb_le in E.
        destruct (S k <=? S (length la)) eqn:E'; [done |].
        apply Nat.leb_gt in E'. lia.
      * apply Nat.leb_gt in E.
        destruct (S k <=? S (length la)) eqn:E';
          [apply Nat.leb_le in E'; lia |].
        cbn [pred]. destruct k as [| k]; [lia | done].
Qed.

Lemma all_tagged_blanks_end la bl k :
  Forall (λ l, blank l = true) bl → all_tagged k (la ++ bl) = all_tagged k la.
Proof.
  intros Hbl. revert k. induction la as [| l la IH]; intros k.
  - simpl. rewrite all_tagged_blanks by done. by destruct k.
  - destruct k as [| k]; [| apply IH].
    change ((l :: la) ++ bl) with (l :: (la ++ bl)).
    rewrite !all_tagged_here, !fence_at_door.
    destruct (split_opener l) as [[indent info] |]; [| apply IH].
    rewrite door_blanks by done.
    destruct (door indent la); cbn [fmap option_fmap option_map f_info f_body];
      by rewrite IH.
Qed.

Lemma all_tagged_last la (a w : str) k :
  blank w = true → all_tagged k (la ++ [a ++ w]) = all_tagged k (la ++ [a]).
Proof.
  intros Hw. revert k. induction la as [| l la IH]; intros k.
  - destruct k as [| k]; [| by destruct k].
    cbn [app]. rewrite !all_tagged_here. unfold fence_at.
    by destruct (split_opener (a ++ w)) as [[? ?] |],
                (split_opener a) as [[? ?] |].
  - destruct k as [| k]; [| apply IH].
    change ((l :: la) ++ ?x) with (l :: (la ++ x)).
    rewrite !all_tagged_here, !fence_at_door.
    destruct (split_opener l) as [[indent info] |]; [| apply IH].
    rewrite door_last by done.
    destruct (door indent (la ++ [a]));
      cbn [fmap option_fmap option_map f_info f_body]; by rewrite IH.
Qed.

(** A text without untagged fences is left as it is by the walk. *)
Lemma rewrite_lines_tagged detect k ls :
  all_tagged k ls = true → rewrite_lines detect (Copy k) ls = ls.
Proof.
  revert k. induction ls as [| l ls IH]; intros k; [done |].
  destruct k as [| k].
  - rewrite all_tagged_here. cbn [rewrite_lines].
    destruct (fence_at l ls) as [f |].
    + intros [Htag Hrest]%andb_true_iff.
      apply negb_true_iff in Htag. rewrite Htag. f_equal. by apply IH.
    + intros H. f_equal. by apply IH.
  - cbn [all_tagged rewrite_lines]. intros H. f_equal. by apply IH.
Qed.

Lemma fence_at_closer l ls f :
  fence_at l ls = Some f →
  ∃ b0 ls' j w, ls = b0 :: ls' ∧ f_body f = S j
    ∧ split_opener l = Some (f_indent f, f_info f)
    ∧ find_close (f_indent f) ls' = Some j
    ∧ find_close (f_indent f) (take j ls') = None
    ∧ j < length ls'
    ∧ ls' !! j = Some (f_indent f ++ FENCE ++ w) ∧ blank w = true.
Proof.
  intros H. apply fence_at_inv in H as (b0 & ls' & j & -> & Hop & Hj & Hb & _).
  destruct (find_close_take _ _ _ Hj) as (Hnone & Hlt & w & Hw & Hbl).
  by exists b0, ls', j, w.
Qed.

Lemma find_close_upto indent ls j :
  find_close indent ls = Some j → find_close indent (take (S j) ls) = Some j.
Proof.
  revert j. induction ls as [| l ls IH]; intros j H; [done |].
  simpl in *. destruct (closes indent l); [done |].
  destruct (find_close indent ls) as [j' |]; [| done].
  injection H as <-. by rewrite (IH j' eq_refl).
Qed.

Lemma not_closer_end indent (x : str) c :
  isspace c = false → c ≠ "`"%char → closes indent (x ++ [c]) = false.
Proof.
  intros Hc Hq. destruct (closes indent (x ++ [c])) eqn:E; [| done]. exfalso.
  apply closes_elim in E as (w & H & Hw).
  destruct w as [| d w _] using rev_ind.
  - rewrite app_nil_r, FENCE_chars in H.
    change (indent ++ ["`"%char; "`"%char; "`"%char])
      with (indent ++ ["`"%char; "`"%char] ++ ["`"%char]) in H.
    rewrite !app_assoc in H. by apply app_inj_tail in H as [_ ->].
  - rewrite !app_assoc in H. apply app_inj_tail in H as [_ ->].
    apply blank_Forall, Forall_app in Hw as [_ Hw].
    apply Forall_cons in Hw as [Hd _]. congruence.
Qed.

Lemma language_facts lang :
  lang ∈ languages →
  strip lang ≠ [] ∧ plain lang
  ∧ ∀ indent p, closes indent (p ++ FENCE ++ lang) = false.
Proof.
  unfold languages. rewrite !elem_of_cons, elem_of_nil.
  intros [-> | [-> | [-> | [-> | [-> | [-> | []]]]]]];
    (split; [by vm_compute | split; [repeat constructor; by vm_compute |]]);
    intros indent p.
  - change (lit "json") with (lit "jso" ++ ["n"%char]).
    rewrite !app_assoc. by apply not_closer_end.
  - change (lit "python") with (lit "pytho" ++ ["n"%char]).
    rewrite !app_assoc. by apply not_closer_end.
  - change (lit "javascript") with (lit "javascrip" ++ ["t"%char]).
    rewrite !app_assoc. by apply not_closer_end.
  - change (lit "bash") with (lit "bas" ++ ["h"%char]).
    rewrite !app_assoc. by apply not_closer_end.
  - change (lit "sql") with (lit "sq" ++ ["l"%char]).
    rewrite !app_assoc. by apply not_closer_end.
  - change (lit "text") with (lit "tex" ++ ["t"%char]).
    rewrite !app_assoc. by apply not_closer_end.
Qed.

Section Tagging.

Variable detect : str → str.
Hypothesis detect_tag : ∀ s, detect s ∈ languages.

(** The lines after the first one that the walk writes close no
    indentation the lines it read did not close. *)
Lemma walk_tail_closers indent b ls :
  (∀ w, Forall (λ l, closes indent l = false) (rewrite_lines detect w ls)) →
  Forall (λ l, closes indent l = false) ls →
  Forall (λ l, closes indent l = false)
    (tail (rewrite_lines detect (Copy 0) (b :: ls))).
Proof.
  intros IH Hls. cbn [rewrite_lines].
  destruct (fence_at b ls) as [f |] eqn:Hf; [| apply IH].
  destruct (bool_decide (strip (f_info f) = [])); [| apply IH].
  cbn [tail]. apply Forall_app. split; [by apply Forall_take |].
  destruct (fence_at_closer _ _ _ Hf)
    as (b0 & ls' & j & w & -> & Hb & _ & _ & _ & _ & Hw & Hbl).
  constructor; [| constructor; [by apply closes_blank | apply IH]].
  apply Forall_cons in Hls as [_ Hls].
  rewrite Forall_lookup in Hls. specialize (Hls _ _ Hw). cbv beta in Hls.
  rewrite app_assoc, closes_trim in Hls by done. exact Hls.
Qed.

Lemma walk_closers indent w ls :
  Forall (λ l, closes indent l = false) ls →
  Forall (λ l, closes indent l = false) (rewrite_lines detect w ls).
Proof using Type*.
  revert w. induction ls as [| l ls IH]; intros w Hls; [done |].
  pose proof Hls as Hls'. apply Forall_cons in Hls' as [Hl Hrest].
  assert (Hhere : Forall (λ l, closes indent l = false)
                    (rewrite_lines detect (Copy 0) (l :: ls))).
  { pose proof (walk_tail_closers indent l ls (λ w, IH w Hrest) Hrest) as Ht.
    cbn [rewrite_lines] in *.
    destruct (fence_at l ls) as [f |]; [| by constructor].
    destruct (bool_decide (strip (f_info f) = [])); [| by constructor].
    constructor; [| exact Ht].
    by apply (language_facts _ (detect_tag _)). }
  destruct w as [[| k] | [| k]]; [exact Hhere | | exact Hhere |].
  - cbn [rewrite_lines]. constructor; [done | by apply IH].
  - cbn [rewrite_lines]. by apply IH.
Qed.

Lemma door_walk indent ls :
  door indent ls = None →
  door indent (rewrite_lines detect (Copy 0) ls) = None.
Proof using Type*.
  destruct ls as [| b ls]; [done |]. cbn [door]. intros H.
  apply find_close_None in H.
  pose proof (walk_tail_closers indent b ls
                (λ w, walk_closers indent w ls H) H) as Ht.
  destruct (rewrite_lines detect (Copy 0) (b :: ls)) as [| x Y]; [done |].
  cbn [door]. by apply find_close_None.
Qed.

(** What the walk writes holds no untagged fence. *)
Lemma walk_all_tagged w ls :
  all_tagged (match w with Copy k => k | Drop _ => 0 end)
             (rewrite_lines detect w ls) = true.
Proof using Type*.
  revert w. induction ls as [| l ls IH]; intros w; [by destruct w as [[| k] | [| k]] |].
  assert (Hhere : all_tagged 0 (rewrite_lines detect (Copy 0) (l :: ls)) = true).
  { cbn [rewrite_lines].
    destruct (fence_at l ls) as [f |] eqn:Hf.
    - destruct (fence_at_closer _ _ _ Hf)
        as (b0 & ls' & j & w0 & -> & Hb & Hop & Hj & Hnone & Hlt & Hw & Hbl).
      pose proof Hop as Hop'.
      apply split_opener_elim in Hop' as (Hl & Hind & Hlen).
      destruct (bool_decide (strip (f_info f) = [])) eqn:Htag.
      + rewrite all_tagged_here, fence_at_door.
        rewrite split_opener_intro by done.
        rewrite Hb.
        change (take (S j) (b0 :: ls')) with (b0 :: take j ls').
        cbn [app door]. rewrite find_close_app, Hnone.
        cbn [find_close].
        rewrite <- (app_nil_r (f_indent f ++ FENCE)) at 1.
        rewrite <- app_assoc, closes_intro by done.
        cbn [fmap option_fmap option_map f_info f_body].
        destruct (language_facts _ (detect_tag (unlines (b0 :: take j ls'))))
          as (Hstrip & _).
        rewrite bool_decide_false by done. cbn [negb andb all_tagged].
        rewrite length_take, Nat.min_l, Nat.add_0_r by lia.
        change (take j ls' ++ (f_indent f ++ FENCE) :: [] :: ?R)
          with (take j ls' ++ [f_indent f ++ FENCE] ++ [] :: R).
        rewrite app_assoc.
        replace (S j) with (length (take j ls' ++ [f_indent f ++ FENCE]) + 0).
        2:{ rewrite length_app, length_take, Nat.min_l by lia. simpl. lia. }
        rewrite all_tagged_skip, all_tagged_here, fence_at_blank by done.
        apply (IH (Drop _)).
      + rewrite all_tagged_here, fence_at_door, Hop.
        assert (Hd : door (f_indent f)
                       (rewrite_lines detect (Copy (S (f_body f))) (b0 :: ls'))
                     = Some j).
        { rewrite rewrite_lines_Copy, Hb.
          change (take (S (S j)) (b0 :: ls')) with (b0 :: take (S j) ls').
          cbn [app door]. by rewrite find_close_app, find_close_upto. }
        rewrite Hd. cbn [fmap option_fmap option_map f_info f_body].
        rewrite Htag. cbn [negb andb]. rewrite <- Hb. apply (IH (Copy _)).
    - rewrite all_tagged_here.
      assert (Hnone : fence_at l (rewrite_lines detect (Copy 0) ls) = None).
      { rewrite fence_at_door in *.
        destruct (split_opener l) as [[indent info] |]; [| done].
        destruct (door indent ls) eqn:Hd; [done |].
        by rewrite door_walk. }
      rewrite Hnone. apply (IH (Copy 0)). }
  destruct w as [[| k] | [| k]]; [exact Hhere | | exact Hhere |].
  - cbn [rewrite_lines all_tagged]. apply (IH (Copy k)).
  - cbn [rewrite_lines]. apply (IH (Drop k)).
Qed.

Lemma walk_plain w ls :
  Forall plain ls → Forall plain (rewrite_lines detect w ls).
Proof using Type*.
  revert w. induction ls as [| l ls IH]; intros w Hls; [done |].
  pose proof Hls as Hls'. apply Forall_cons in Hls' as [Hl Hrest].
  destruct w as [[| k] | [| k]]; cbn [rewrite_lines];
    try (by apply IH); try (constructor; [done | by apply IH]).
  all: destruct (fence_at l ls) as [f |] eqn:Hf;
    [| constructor; [done | by apply IH]].
  all: destruct (bool_decide (strip (f_info f) = []));
    [| constructor; [done | by apply IH]].
  all: destruct (fence_at_closer _ _ _ Hf) as (_ & _ & _ & _ & _ & _ & Hop & _).
  all: apply split_opener_elim in Hop as (-> & _ & _).
  all: apply plain_app in Hl as [Hi Hl]; apply plain_app in Hl as [Hq _].
  all: constructor;
    [apply plain_app; split; [done |]; apply plain_app; split; [done |];
     by apply (language_facts _ (detect_tag _)) |].
  all: apply Forall_app; split; [by apply Forall_take |].
  all: constructor; [by apply plain_app |].
  all: constructor; [by apply Forall_nil | by apply IH].
Qed.

End Tagging.

(** ** The transform applied twice *)

Lemma squeezed_ind (P : str → Prop) :
  (∀ a b, P (a ++ LF :: LF :: LF :: b) → P (a ++ LF :: LF :: b)) →
  ∀ x pre, P (pre ++ x) → P (pre ++ squeezed 0 None x).
Proof.
  intros Hstep x. remember (length x) as len eqn:Hlen. revert x Hlen.
  induction len as [len IH] using lt_wf_ind. intros x Hlen pre HP.
  destruct (lead_split x) as [Hsplit Hhead].
  remember (lead x) as k eqn:Hk. clear Hk.
  remember (drop k x) as post eqn:Hpost. clear Hpost. subst x.
  rewrite squeezed_run by done.
  assert (Hshrink : ∀ n, P (pre ++ repeat LF (2 + n) ++ post) →
                         P (pre ++ [LF; LF] ++ post)).
  { induction n as [| n IHn]; [done |]. intros H. apply IHn.
    apply (Hstep pre (repeat LF n ++ post)). exact H. }
  assert (HK : P (pre ++ (if 3 <=? k then [LF; LF] else repeat LF k) ++ post)).
  { destruct (3 <=? k) eqn:E; [| done]. apply Nat.leb_le in E.
    apply (Hshrink (k - 2)). by replace (2 + (k - 2)) with k by lia. }
  destruct post as [| d tl]; [by rewrite squeezed_nil |].
  assert (Hd : d ≠ LF) by (intros ->; by apply Hhead).
  rewrite squeezed_other by done.
  set (K := if 3 <=? k then [LF; LF] else repeat LF k) in *.
  replace (pre ++ K ++ d :: squeezed 0 None tl)
    with ((pre ++ K ++ [d]) ++ squeezed 0 None tl)
    by (by rewrite <- !app_assoc).
  apply (IH (length tl)); [| done |].
  - subst len. rewrite length_app. simpl. lia.
  - by rewrite <- !app_assoc.
Qed.

Lemma lines_LF s : lines (LF :: s) = [] :: lines s.
Proof. reflexivity. Qed.

Lemma lines_squeeze_step (a b : str) :
  all_tagged 0 (lines (a ++ LF :: LF :: LF :: b)) = true →
  all_tagged 0 (lines (a ++ LF :: LF :: b)) = true.
Proof.
  rewrite !lines_app_LF, !lines_LF. apply (all_tagged_squeeze _ _ 0).
Qed.

Lemma lines_blank (w : str) :
  Forall (λ c, isspace c = true) w → Forall (λ l, blank l = true) (lines w).
Proof.
  induction 1 as [| c w Hc _ IH]; [by repeat constructor |].
  cbn [lines]. destruct (is_LF c); [by constructor |].
  destruct (lines w) as [| l ls].
  - constructor; [| done]. unfold blank. cbn [forallb]. by rewrite Hc.
  - apply Forall_cons in IH as [Hl Hls].
    constructor; [| done]. unfold blank in *. cbn [forallb]. by rewrite Hc.
Qed.

Lemma unlines_glue init (a w0 : str) bl :
  unlines (init ++ [a]) ++ unlines (w0 :: bl)
  = unlines (init ++ [a ++ w0] ++ bl).
Proof.
  induction init as [| i init IH].
  - cbn [app]. rewrite !unlines_cons. simpl. by rewrite app_nil_r, <- app_assoc.
  - change ((i :: init) ++ ?x) with (i :: (init ++ x)).
    rewrite !unlines_cons.
    destruct (init ++ [a]) as [| x xs] eqn:E1; [by destruct init |].
    destruct (init ++ [a ++ w0] ++ bl) as [| y ys] eqn:E2; [by destruct init |].
    unfold unl. rewrite <- IH. rewrite <- app_assoc.
    rewrite (unlines_cons w0). reflexivity.
Qed.

(** The lines of a text and of its end-trimmed form. *)
Lemma lines_tidy (x : str) :
  all_tagged 0 (lines x) = true →
  all_tagged 0 (lines (rstrip x ++ [LF])) = true.
Proof.
  destruct (rstrip_split x) as (w & Hx & Hw).
  remember (rstrip x) as r eqn:Hr. clear Hr. subst x.
  rewrite (lines_app_LF r []).
  change (lines []) with [[] : str].
  rewrite all_tagged_blanks_end by (by repeat constructor).
  destruct (exists_last (lines_nonempty r)) as (init & a & Hla).
  pose proof (lines_plain r) as Hpr. pose proof (lines_plain w) as Hpw.
  pose proof (lines_blank w Hw) as Hbw.
  destruct (lines w) as [| w0 bl] eqn:Hlw; [by apply lines_nonempty in Hlw |].
  rewrite Hla in Hpr. apply Forall_app in Hpr as [Hpi Hpa].
  apply Forall_cons in Hpa as [Hpa _].
  apply Forall_cons in Hpw as [Hpw0 Hpbl].
  apply Forall_cons in Hbw as [Hbw0 Hbbl].
  assert (Hrw : lines (r ++ w) = init ++ [a ++ w0] ++ bl).
  { rewrite <- (unlines_lines r), <- (unlines_lines w), Hla, Hlw.
    rewrite unlines_glue. apply lines_unlines; [| by destruct init].
    apply Forall_app. split; [done |].
    constructor; [by apply plain_app | done]. }
  rewrite Hrw, Hla, app_assoc.
  rewrite all_tagged_blanks_end by done.
  by rewrite all_tagged_last.
Qed.

Lemma rewrite_fences_same json_loads (t : str) :
  all_tagged 0 (lines t) = true → rewrite_fences json_loads t = t.
Proof.
  intros H. rewrite rewrite_fences_lines, rewrite_lines_tagged by done.
  apply unlines_lines.
Qed.

Lemma rewrite_fences_tagged json_loads (t : str) :
  all_tagged 0 (lines (rewrite_fences json_loads t)) = true.
Proof.
  rewrite rewrite_fences_lines, lines_unlines.
  - apply (walk_all_tagged _ (detect_language_tag json_loads) (Copy 0)).
  - apply walk_plain; [apply detect_language_tag | apply lines_plain].
  - pose proof (lines_nonempty t) as Hne.
    destruct (lines t) as [| l ls]; [done |]. apply rewrite_lines_nonempty.
Qed.

Lemma format_markdown_tagged json_loads (t : str) :
  all_tagged 0 (lines (format_markdown json_loads t)) = true.
Proof.
  unfold format_markdown. apply lines_tidy.
  change (collapse_blank_lines ?x) with ([] ++ squeezed 0 None x).
  apply (squeezed_ind (λ x, all_tagged 0 (lines x) = true) lines_squeeze_step).
  apply rewrite_fences_tagged.
Qed.

(** X14: the fence pass is idempotent: in its output every fence it
    recognises carries a tag, so a second pass changes nothing. *)
Theorem rewrite_fences_idempotent json_loads (t : str) :
  rewrite_fences json_loads (rewrite_fences json_loads t)
  = rewrite_fences json_loads t.
Proof. apply rewrite_fences_same, rewrite_fences_tagged. Qed.

Lemma format_markdown_again json_loads (t : str) :
  format_markdown json_loads (format_markdown json_loads t)
  = format_markdown json_loads t.
Proof.
  unfold format_markdown at 1.
  rewrite rewrite_fences_same by apply format_markdown_tagged.
  assert (Hcalm : calm (format_markdown json_loads t) = true).
  { unfold format_markdown. apply tidy_calm, squeezed_calm. }
  change (collapse_blank_lines ?x) with (squeezed 0 None x).
  rewrite squeezed_calm_id by done.
  unfold format_markdown.
  rewrite rstrip_spaces by (by repeat constructor).
  by rewrite rstrip_rstrip.
Qed.

(** X15: the transform is idempotent: formatting a formatted document
    returns it unchanged. *)
Theorem format_markdown_idempotent json_loads (t : str) :
  format_markdown json_loads (format_markdown json_loads t)
  = format_markdown json_loads t.
Proof. apply format_markdown_again. Qed.

(** X16: the fence pass, read line by line.  The substitution of the
    fence pattern writes what the walk over the lines of the document
    writes: a fence opens on a line of at most three spaces or tabs
    followed by three backticks, and closes on the first line, from the
    second line after the opener on, that holds the same indentation,
    three backticks and nothing but whitespace; a fence without a tag
    gets the detected tag, loses the whitespace after its closing
    backticks and the blank lines that follow it, and is followed by
    one empty line; every other line is copied. *)
Theorem fence_pass_by_lines json_loads (t : str) :
  rewrite_fences json_loads t
  = unlines (rewrite_lines (detect_language json_loads) (Copy 0) (lines t)).
Proof. apply rewrite_fences_lines. Qed.

(** X17: the fence pass returns a document unchanged exactly when the
    walk over its lines meets no fence without a tag. *)
Theorem fence_pass_fixed_points json_loads (t : str) :
  rewrite_fences json_loads t = t ↔ all_tagged 0 (lines t) = true.
Proof.
  split.
  - intros H. rewrite <- H. apply rewrite_fences_tagged.
  - apply rewrite_fences_same.
Qed.

(** X18: the transform returns a document unchanged, so that the
    driver does not write the file, exactly when the walk over the
    lines of the document (the walk of [re.sub], from left to right,
    that resumes after each fence it finds) meets no fence without a
    tag, the document has no three newlines in a row, and it ends with
    one newline that no whitespace precedes. *)
Theorem format_markdown_fixed_points json_loads (t : str) :
  format_markdown json_loads t = t ↔
  all_tagged 0 (lines t) = true
  ∧ (∀ a b, t ≠ a ++ [LF; LF; LF] ++ b)
  ∧ rstrip t ++ [LF] = t.
Proof.
  split.
  - intros H. rewrite <- H. split; [apply format_markdown_tagged |].
    split.
    + apply calm_spec. unfold format_markdown. apply tidy_calm, squeezed_calm.
    + unfold format_markdown.
      rewrite rstrip_spaces by (by repeat constructor).
      by rewrite rstrip_rstrip.
  - intros (Htag & Hcalm & Hend). unfold format_markdown.
    rewrite rewrite_fences_same by done.
    change (collapse_blank_lines t) with (squeezed 0 None t).
    rewrite squeezed_calm_id by (by apply calm_spec). exact Hend.
Qed.

(** ** Fences of a formatted document *)

Lemma strip_nil_spaces (s : str) :
  strip s = [] → Forall (λ c, isspace c = true) s.
Proof.
  unfold strip. intros H.
  destruct (rstrip_split (lstrip s)) as (w & Hw & Hsp).
  rewrite H in Hw. simpl in Hw.
  destruct (lstrip_split s) as (w' & Hs & Hsp').
  rewrite Hs, Hw. by apply Forall_app.
Qed.

Lemma language_head lang :
  lang ∈ languages → ∃ c rest, lang = c :: rest ∧ isspace c = false.
Proof.
  unfold languages. rewrite !elem_of_cons, elem_of_nil.
  intros [-> | [-> | [-> | [-> | [-> | [-> | []]]]]]];
    eexists _, _; (split; [reflexivity | by vm_compute]).
Qed.

(** Where what is written equals what was read, no fence was given a
    tag. *)
Lemma pieces_same json_loads ps :
  (∀ m, Hit m ∈ ps → fence_shape m) →
  concat (map (render (add_lang_to_fence json_loads)) ps)
  = concat (map written ps) →
  ∀ m, Hit m ∈ ps → strip (group 2 m) ≠ [].
Proof.
  induction ps as [| p ps IH]; intros Hshape Heq m Hm.
  { by apply elem_of_nil in Hm. }
  destruct p as [c | m0].
  - cbn [map concat render written app] in Heq. injection Heq as Heq.
    apply elem_of_cons in Hm as [[=] | Hm].
    apply IH; [| done | done]. intros m' Hm'. apply Hshape. by right.
  - cbn [map concat render written] in Heq.
    destruct (Hshape m0 ltac:(by left))
      as (indent & info & body & tail & Hcaps & Hwhole & _ & _ & Hinfo & _).
    destruct (fence_shape_groups m0 _ _ _ Hcaps) as (Hg1 & Hg2 & Hg3 & Hg4).
    unfold add_lang_to_fence in Heq. rewrite Hg1, Hg2, Hg3, Hg4 in Heq.
    destruct (bool_decide (strip info = [])) eqn:Htag.
    + exfalso. apply bool_decide_eq_true in Htag.
      apply strip_nil_spaces in Htag.
      rewrite Hwhole, <- !app_assoc in Heq.
      do 2 apply app_inv_head in Heq.
      destruct (language_head _ (detect_language_tag json_loads body))
        as (c & rest & Hlang & Hc).
      rewrite Hlang in Heq.
      destruct info as [| d info]; cbn [app] in Heq; injection Heq as -> _.
      * by vm_compute in Hc.
      * apply Forall_cons in Htag as [Hd _]. congruence.
    + apply bool_decide_eq_false in Htag. apply app_inv_head in Heq.
      apply elem_of_cons in Hm as [[= ->] | Hm]; [by rewrite Hg2 |].
      apply IH; [| done | done]. intros m' Hm'. apply Hshape. by right.
Qed.

(** X20: in the transform of any document, every fence found by the
    scan of [re.sub] (the matches of the fence pattern taken from left
    to right, each search resuming where the previous match ended)
    carries a tag: its info string is not blank.  Nothing is said of
    the places inside such a match at which the pattern matches
    too. *)
Theorem formatted_fences_tagged json_loads (t : str) m :
  Hit m ∈ fence_pieces (format_markdown json_loads t) →
  strip (group 2 m) ≠ [].
Proof.
  apply (pieces_same json_loads).
  - intros m'. apply fence_hit_shape.
  - unfold fence_pieces. rewrite scan_written.
    change (concat (map (render (add_lang_to_fence json_loads))
              (scan flag_MS fence_pattern 0 None (format_markdown json_loads t))))
      with (rewrite_fences json_loads (format_markdown json_loads t)).
    apply rewrite_fences_same, format_markdown_tagged.
Qed.

Lemma formatted_fences_tagged_witness :
  strip (group 2 (first_hit (format_markdown rejecting (hi_doc [])))) ≠ [].
Proof.
  apply (formatted_fences_tagged rejecting (hi_doc [])).
  vm_compute. by left.
Defined.

(** ** The JSON rule of the detector *)

Lemma strip_head (s : str) :
  match strip s with c :: _ => isspace c = false | [] => True end.
Proof.
  unfold strip. pose proof (lstrip_head s) as Hh.
  destruct (rstrip_split (lstrip s)) as (w & Hw & _).
  destruct (rstrip (lstrip s)) as [| c r]; [done |].
  rewrite Hw in Hh. exact Hh.
Qed.

(** A pattern that starts with [^] and is compiled without re.M
    matches at the start of the text or nowhere. *)
Lemma search_anchored fl r c rest :
  multiline fl = false → search_from fl (Seq Bol r) (Some c) rest = None.
Proof.
  intros Hfl. revert c. induction rest as [| d rest IH]; intros c.
  - cbn. by rewrite Hfl.
  - cbn [search_from]. rewrite IH.
    unfold match_here. cbn. by rewrite Hfl.
Qed.

Lemma json_start_search (s : str) :
  search no_flags json_start s = true ↔
  ∃ w c rest, s = w ++ c :: rest ∧ Forall (λ c, isspace c = true) w
              ∧ (c = "{"%char ∨ c = "["%char).
Proof.
  unfold search. rewrite bool_decide_eq_true. split.
  - intros [[i m] H].
    assert (Hm : ∃ m, match_here no_flags json_start None s = Some m).
    { destruct s as [| c rest]; cbn [search_from] in H.
      - destruct (match_here no_flags json_start None []); [eauto | done].
      - destruct (match_here no_flags json_start None (c :: rest)); [eauto |].
        change json_start with (Seq Bol (cat [star Space; One (OneOf [IChar "{"; IChar "["])])) in H.
        by rewrite search_anchored in H. }
    destruct Hm as [m' Hm].
    apply match_here_sound in Hm as (t & Hm & _).
    let p := eval vm_compute in json_start in change json_start with p in Hm.
    inv_matches. cbn [ms_rest ms_caps ms_pos ms_prev after with_cap] in *.
    repeat match goal with
           | H : ?x = _ ++ _ |- _ => is_var x; subst x
           | H : ?x = _ :: _ |- _ => is_var x; subst x
           end.
    match goal with
    | Hw : Forall _ ?w, Hc : atom_ok _ (OneOf _) ?c = true
      |- ∃ _ _ _, ?w ++ ?c :: ?rest = _ ∧ _ =>
        exists w, c, rest; rename Hw into Hspace; rename Hc into Hbrace
    end.
    split; [done |]. split; [exact Hspace |].
    cbn in Hbrace. rewrite !orb_true_iff in Hbrace.
    destruct Hbrace as [Hc | [Hc | Hc]]; [| | done];
      apply ascii_eqb_eq in Hc; auto.
  - intros (w & c & rest & -> & Hw & Hc).
    assert (Hm : is_Some (match_here no_flags json_start None (w ++ c :: rest))).
    { unfold match_here.
      let p := eval vm_compute in json_start in change json_start with p.
      eapply exec_seq_complete; [by apply M_Bol |].
      eapply exec_seq_complete.
      { eapply (M_Rep _ _ _ _ _ _ w (c :: rest));
          cbn [ms_rest ms_caps ms_pos ms_prev]; [done | done | lia | done]. }
      eapply exec_seq_complete.
      { eapply M_One; cbn [ms_rest ms_caps ms_pos ms_prev after]; [done |].
        by destruct Hc as [-> | ->]. }
      done. }
    destruct Hm as [m Hm]. exists (0, m).
    destruct (w ++ c :: rest); cbn [search_from]; by rewrite Hm.
Qed.

Lemma later_rules_not_json s : later_rules s ≠ lit "json".
Proof.
  unfold later_rules.
  repeat match goal with
         | |- context [if ?b then _ else _] => destruct b
         end; discriminate.
Qed.

(** X21: the detector answers [json] exactly when the stripped code
    starts with an opening brace or bracket and the JSON decoder
    accepts it. *)
Theorem detect_json_iff json_loads (code : str) :
  detect_language json_loads code = lit "json" ↔
  (∃ c rest, strip code = c :: rest ∧ (c = "{"%char ∨ c = "["%char))
  ∧ is_Some (json_loads (strip code)).
Proof.
  rewrite detect_language_unfold. split.
  - destruct (search no_flags json_start (strip code)) eqn:Hs;
      [| intros H; by apply later_rules_not_json in H].
    destruct (bool_decide (is_Some (json_loads (strip code)))) eqn:Hj;
      [| intros H; by apply later_rules_not_json in H].
    intros _. apply bool_decide_eq_true in Hj. split; [| done].
    apply json_start_search in Hs as (w & c & rest & Hcode & Hw & Hc).
    pose proof (strip_head code) as Hh. rewrite Hcode in *.
    destruct w as [| d w]; [by exists c, rest |].
    apply Forall_cons in Hw as [Hd _]. simpl in Hh. congruence.
  - intros [(c & rest & Hcode & Hc) Hj].
    rewrite Hcode at 1. rewrite (json_start_brace c rest Hc).
    by rewrite bool_decide_true.
Qed.

(** ** Documents with one line of backticks *)

Lemma no_tick_opener (l : str) ls : "`"%char ∉ l → fence_at l ls = None.
Proof.
  intros Hl. unfold fence_at.
  destruct (split_opener l) as [[indent info] |] eqn:E; [| done].
  apply split_opener_elim in E as (-> & _). exfalso. apply Hl.
  rewrite FENCE_chars, !elem_of_app. right. left. by left.
Qed.

Lemma no_tick_closer indent (l : str) : "`"%char ∉ l → closes indent l = false.
Proof.
  intros Hl. destruct (closes indent l) eqn:E; [| done]. exfalso.
  apply closes_elim in E as (w & -> & _). apply Hl.
  rewrite FENCE_chars, !elem_of_app. right. left. by left.
Qed.

Lemma all_tagged_no_ticks ls k :
  Forall (λ l : str, "`"%char ∉ l) ls → all_tagged k ls = true.
Proof.
  intros H. revert k. induction H as [| l ls Hl _ IH]; intros k; [done |].
  destruct k as [| k]; [| apply IH].
  rewrite all_tagged_here, no_tick_opener by done. apply IH.
Qed.

Lemma all_tagged_lone la (l : str) lb k :
  Forall (λ l : str, "`"%char ∉ l) la → Forall (λ l : str, "`"%char ∉ l) lb →
  all_tagged k (la ++ l :: lb) = true.
Proof.
  intros Hla Hlb. revert k. induction Hla as [| x la Hx _ IH]; intros k.
  - destruct k as [| k]; [| cbn [app all_tagged]; by apply all_tagged_no_ticks].
    cbn [app]. rewrite all_tagged_here, fence_at_door.
    destruct (split_opener l) as [[indent info] |];
      [| by apply all_tagged_no_ticks].
    assert (Hd : door indent lb = None).
    { destruct lb as [| b lb]; [done |]. cbn [door].
      apply Forall_cons in Hlb as [_ Hlb]. apply find_close_None.
      eapply Forall_impl; [exact Hlb |]. intros y Hy. by apply no_tick_closer. }
    rewrite Hd. by apply all_tagged_no_ticks.
  - destruct k as [| k]; [| apply IH].
    change ((x :: la) ++ l :: lb) with (x :: (la ++ l :: lb)).
    rewrite all_tagged_here, no_tick_opener by done. apply IH.
Qed.

(** X22: a document in which a single line holds backticks (a fence
    that is opened and never closed, for instance) goes through the
    fence pass unchanged. *)
Theorem lone_backtick_line json_loads (t : str) la (l : str) lb :
  lines t = la ++ l :: lb →
  Forall (λ x : str, "`"%char ∉ x) la → Forall (λ x : str, "`"%char ∉ x) lb →
  rewrite_fences json_loads t = t.
Proof.
  intros Ht Hla Hlb. apply rewrite_fences_same.
  rewrite Ht. by apply all_tagged_lone.
Qed.

Lemma lone_backtick_line_witness :
  rewrite_fences rejecting open_doc = open_doc.
Proof.
  apply (lone_backtick_line rejecting open_doc [lit "intro"] FENCE [lit "code"]).
  - reflexivity.
  - repeat constructor. vm_compute. intros H.
    repeat (apply elem_of_cons in H as [H | H]; [discriminate H |]).
    by apply elem_of_nil in H.
  - repeat constructor. vm_compute. intros H.
    repeat (apply elem_of_cons in H as [H | H]; [discriminate H |]).
    by apply elem_of_nil in H.
Defined.

(** ** Requests of another shape *)

(** X23: when standard input is JSON from which no path string can be
    taken (the value is not an object, [tool_input] is not an object,
    or [file_path] is not a string), an [AttributeError] leaves the
    [try] uncaught: the process ends with status 1 and a traceback on
    the error stream, and touches no file. *)
Theorem bad_request_traceback json_loads stdin w v :
  json_loads stdin = Some v →
  (∀ p, extract_path v ≠ Ok (PStr p)) →
  run json_loads stdin w = (1%Z, eprint (Traceback AttributeError) w).
Proof.
  intros Hv Hp. unfold run, main, bind, lift, json_load. rewrite Hv.
  destruct (extract_path v) as [pv | e] eqn:E.
  - destruct pv; try reflexivity. exfalso. exact (Hp _ eq_refl).
  - unfold extract_path, py_get in E.
    destruct v; try (by injection E as <-).
    destruct (default _ _); try (by injection E as <-). discriminate E.
Qed.

Lemma bad_request_traceback_witness :
  run null_loads [] notes_world
  = (1%Z, eprint (Traceback AttributeError) notes_world).
Proof.
  apply (bad_request_traceback null_loads [] notes_world null_request).
  - reflexivity.
  - intros p. discriminate.
Defined.

(** ** The Python rule of the detector *)

Lemma search_here fl r (s : str) :
  is_Some (match_here fl r None s) → search fl r s = true.
Proof.
  intros [m Hm]. unfold search. apply bool_decide_eq_true.
  exists (0, m). destruct s; cbn [search_from]; by rewrite Hm.
Qed.

Lemma not_json_start (c : ascii) rest :
  isspace c = false → c ≠ "{"%char → c ≠ "["%char →
  search no_flags json_start (c :: rest) = false.
Proof.
  intros Hsp H1 H2.
  destruct (search no_flags json_start (c :: rest)) eqn:E; [| done]. exfalso.
  apply json_start_search in E as (w & d & rest' & Hs & Hw & Hd).
  destruct w as [| x w]; injection Hs as -> _.
  - by destruct Hd.
  - apply Forall_cons in Hw as [Hx _]. congruence.
Qed.

Lemma word_chars (name : str) :
  Forall (λ c, isword c = true) name →
  Forall (λ c, atom_ok flag_M Word c = true) name.
Proof. done. Qed.

(** X24: code that, once stripped, starts with [def NAME(],
    [import NAME] or [from NAME] is tagged [python], whatever follows
    and whatever the JSON decoder does. *)
Theorem python_headers json_loads (code name rest : str) :
  name ≠ [] → Forall (λ c, isword c = true) name →
  strip code = lit "def " ++ name ++ "("%char :: rest
  ∨ strip code = lit "import " ++ name ++ rest
  ∨ strip code = lit "from " ++ name ++ rest →
  detect_language json_loads code = lit "python".
Proof.
  intros Hne Hname Hcode. rewrite detect_language_unfold.
  assert (Hjson : search no_flags json_start (strip code) = false).
  { destruct Hcode as [-> | [-> | ->]]; by apply not_json_start. }
  rewrite Hjson. cbn [andb]. unfold later_rules.
  assert (Hpy : search flag_M py_def (strip code)
                || search flag_M py_import (strip code) = true).
  { apply orb_true_iff.
    destruct Hcode as [-> | [-> | ->]]; [left | right | right];
      apply search_here; unfold match_here.
    - let p := eval vm_compute in py_def in change py_def with p.
      eapply exec_seq_complete; [by apply M_Bol |].
      eapply exec_seq_complete.
      { eapply (M_Rep _ _ _ _ _ _ []); cbn [ms_rest]; [reflexivity | done | done | done]. }
      eapply exec_seq_complete.
      { eapply M_Seq; [eapply M_One; cbn [ms_rest after]; [reflexivity | done] |].
        eapply M_Seq; [eapply M_One; cbn [ms_rest after]; [reflexivity | done] |].
        eapply M_Seq; [eapply M_One; cbn [ms_rest after]; [reflexivity | done] |].
        apply M_Eps. }
      eapply exec_seq_complete.
      { eapply (M_Rep _ _ _ _ _ _ [" "%char]); cbn [ms_rest after];
          [reflexivity | by repeat constructor | done | done]. }
      eapply exec_seq_complete.
      { eapply (M_Rep _ _ _ _ _ _ name); cbn [ms_rest after];
          [reflexivity | by apply word_chars | | done].
        destruct name; [done | simpl; lia]. }
      eapply exec_seq_complete.
      { eapply (M_Rep _ _ _ _ _ _ []); cbn [ms_rest after];
          [reflexivity | done | done | done]. }
      eapply exec_seq_complete.
      { eapply M_One; cbn [ms_rest after]; [reflexivity | done]. }
      done.
    - let p := eval vm_compute in py_import in change py_import with p.
      eapply exec_seq_complete; [by apply M_Bol |].
      eapply exec_seq_complete.
      { eapply (M_Rep _ _ _ _ _ _ []); cbn [ms_rest]; [reflexivity | done | done | done]. }
      eapply exec_seq_complete.
      { apply M_Group. apply M_AltL.
        eapply M_Seq; [eapply M_One; cbn [ms_rest after]; [reflexivity | done] |].
        eapply M_Seq; [eapply M_One; cbn [ms_rest after]; [reflexivity | done] |].
        eapply M_Seq; [eapply M_One; cbn [ms_rest after]; [reflexivity | done] |].
        eapply M_Seq; [eapply M_One; cbn [ms_rest after]; [reflexivity | done] |].
        eapply M_Seq; [eapply M_One; cbn [ms_rest after]; [reflexivity | done] |].
        eapply M_Seq; [eapply M_One; cbn [ms_rest after]; [reflexivity | done] |].
        apply M_Eps. }
      eapply exec_seq_complete.
      { eapply (M_Rep _ _ _ _ _ _ [" "%char]); cbn [ms_rest after with_cap];
          [reflexivity | by repeat constructor | done | done]. }
      eapply exec_seq_complete.
      { eapply (M_Rep _ _ _ _ _ _ name); cbn [ms_rest after with_cap];
          [reflexivity | by apply word_chars | | done].
        destruct name; [done | simpl; lia]. }
      done.
    - let p := eval vm_compute in py_import in change py_import with p.
      eapply exec_seq_complete; [by apply M_Bol |].
      eapply exec_seq_complete.
      { eapply (M_Rep _ _ _ _ _ _ []); cbn [ms_rest]; [reflexivity | done | done | done]. }
      eapply exec_seq_complete.
      { apply M_Group. apply M_AltR.
        eapply M_Seq; [eapply M_One; cbn [ms_rest after]; [reflexivity | done] |].
        eapply M_Seq; [eapply M_One; cbn [ms_rest after]; [reflexivity | done] |].
        eapply M_Seq; [eapply M_One; cbn [ms_rest after]; [reflexivity | done] |].
        eapply M_Seq; [eapply M_One; cbn [ms_rest after]; [reflexivity | done] |].
        apply M_Eps. }
      eapply exec_seq_complete.
      { eapply (M_Rep _ _ _ _ _ _ [" "%char]); cbn [ms_rest after with_cap];
          [reflexivity | by repeat constructor | done | done]. }
      eapply exec_seq_complete.
      { eapply (M_Rep _ _ _ _ _ _ name); cbn [ms_rest after with_cap];
          [reflexivity | by apply word_chars | | done].
        destruct name; [done | simpl; lia]. }
      done. }
  by rewrite Hpy.
Qed.

Lemma python_headers_witness :
  detect_language rejecting (lit "  def f(x): return x") = lit "python".
Proof.
  apply (python_headers rejecting (lit "  def f(x): return x")
           (lit "f") (lit "x): return x")).
  - discriminate.
  - repeat constructor.
  - left. reflexivity.
Defined.

(** ** A document that is one fence without a tag *)

Lemma lines_Forall (P : ascii → Prop) (s : str) :
  Forall P s → Forall (Forall P) (lines s).
Proof.
  induction 1 as [| c s Hc _ IH]; [by repeat constructor |].
  cbn [lines]. destruct (is_LF c); [by constructor |].
  destruct (lines s) as [| l ls]; [by repeat constructor |].
  apply Forall_cons in IH as [Hl Hls]. by repeat constructor.
Qed.

Lemma count_blank_all bl :
  Forall (λ l, blank l = true) bl → count_blank bl = length bl.
Proof.
  induction 1 as [| l bl Hl _ IH]; [done |]. simpl. by rewrite Hl, IH.
Qed.

(** X25: a document that consists of one fence without a tag, with a
    body free of backticks and any whitespace after the closing
    backticks, comes out of the fence pass with the tag the detector
    gives for the body, the body unchanged, and one newline after the
    closing backticks. *)
Theorem lone_fence json_loads (body tail : str) :
  "`"%char ∉ body → Forall (λ c, isspace c = true) tail →
  rewrite_fences json_loads (FENCE ++ [LF] ++ body ++ [LF] ++ FENCE ++ tail)
  = FENCE ++ detect_language json_loads body ++ [LF] ++ body ++ [LF]
    ++ FENCE ++ [LF].
Proof.
  intros Hbody Htail. rewrite rewrite_fences_lines.
  assert (Hpf : plain FENCE) by (repeat constructor; by vm_compute).
  (* the lines of the document *)
  pose proof (lines_blank tail Htail) as Hbl.
  pose proof (lines_nonempty tail) as Hnt.
  destruct (lines tail) as [| w0 bl] eqn:Hlt; [done |]. clear Hnt.
  apply Forall_cons in Hbl as [Hw0 Hbl].
  assert (Hticks : Forall (λ l : str, "`"%char ∉ l) (lines body)).
  { assert (Hall : Forall (λ c, c ≠ "`"%char) body).
    { apply Forall_forall. intros c Hc ->. by apply Hbody. }
    apply lines_Forall in Hall. eapply Forall_impl; [exact Hall |].
    intros l Hl Hin. rewrite Forall_forall in Hl. by apply (Hl _ Hin). }
  pose proof (lines_nonempty body) as Hnb.
  pose proof (unlines_lines body) as Hub.
  destruct (lines body) as [| b1 Lb] eqn:Hlb; [done |]. clear Hnb.
  apply Forall_cons in Hticks as [_ Hticks].
  assert (Hlines : lines (FENCE ++ [LF] ++ body ++ [LF] ++ FENCE ++ tail)
                   = FENCE :: (b1 :: Lb) ++ (FENCE ++ w0) :: bl).
  { cbn [app]. rewrite (lines_app_LF FENCE), (lines_of_plain FENCE) by done.
    rewrite (lines_app_LF body), Hlb.
    by rewrite (lines_app_plain FENCE tail), Hlt by done. }
  rewrite Hlines. clear Hlines.
  (* the fence the walk finds on the first line *)
  assert (Hf : fence_at FENCE ((b1 :: Lb) ++ (FENCE ++ w0) :: bl)
               = Some (Fence [] [] (S (length Lb)) (length bl))).
  { rewrite fence_at_door.
    change (split_opener FENCE) with (Some ([] : str, [] : str)).
    cbn [app door]. rewrite find_close_app.
    assert (Hnone : find_close [] Lb = None).
    { apply find_close_None. eapply Forall_impl; [exact Hticks |].
      intros l Hl. by apply no_tick_closer. }
    rewrite Hnone. cbn [find_close].
    pose proof (closes_intro [] w0 Hw0) as Hc. cbn [app] in Hc. rewrite Hc.
    cbn [fmap option_fmap option_map]. rewrite Nat.add_0_r.
    do 2 f_equal.
    change (b1 :: Lb ++ (FENCE ++ w0) :: bl)
      with ((b1 :: Lb) ++ [FENCE ++ w0] ++ bl).
    rewrite app_assoc, drop_app_length'.
    2:{ rewrite length_app. simpl. change (list ascii) with str in *. lia. }
    by apply count_blank_all. }
  cbn [rewrite_lines]. rewrite Hf. cbn [f_indent f_info f_body f_blank].
  change (strip []) with ([] : str). rewrite bool_decide_true by done.
  rewrite rewrite_lines_Drop.
  assert (Htake : take (S (length Lb)) ((b1 :: Lb) ++ (FENCE ++ w0) :: bl)
                  = b1 :: Lb).
  { by rewrite (take_app_length' (b1 :: Lb)). }
  rewrite Htake, Hub.
  rewrite drop_ge.
  2:{ rewrite length_app. simpl. change (list ascii) with str in *. lia. }
  cbn [rewrite_lines app].
  rewrite unlines_cons.
  change (b1 :: Lb ++ [FENCE; []]) with ((b1 :: Lb) ++ [FENCE; []]).
  unfold unl at 1. rewrite unlines_app by done. rewrite Hub.
  rewrite unl_cons. cbn [unl unlines].
  repeat (progress (rewrite <- ?app_assoc; cbn [app])). reflexivity.
Qed.

Lemma lone_fence_witness :
  rewrite_fences rejecting
    (FENCE ++ [LF] ++ lit "import os" ++ [LF] ++ FENCE ++ [" "%char; LF; LF])
  = FENCE ++ detect_language rejecting (lit "import os") ++ [LF]
    ++ lit "import os" ++ [LF] ++ FENCE ++ [LF].
Proof.
  apply (lone_fence rejecting (lit "import os") [" "%char; LF; LF]).
  - vm_compute. intros H.
    repeat (apply elem_of_cons in H as [H | H]; [discriminate H |]).
    by apply elem_of_nil in H.
  - repeat constructor.
Defined.

(** ** The hook with its other endings *)

Lemma detect_language_raising json_loads (code : str) :
  Raising.detect_language json_loads code =
    if search no_flags json_start (strip code)
    then match json_loads (strip code) with
         | Ok _ => Ok (lit "json")
         | Raise e =>
             if Raising.is_value_error e then Ok (later_rules (strip code))
             else Raise e
         end
    else Ok (later_rules (strip code)).
Proof.
  unfold Raising.detect_language, Raising.try_json.
  destruct (search no_flags json_start (strip code)); [| done].
  destruct (json_loads (strip code)) as [v | e]; [done |].
  by destruct (Raising.is_value_error e).
Qed.

(** When the detector returns, it returns what the detector above
    returns for the decoder's answers. *)
Lemma detect_language_returns json_loads (code tag : str) :
  Raising.detect_language json_loads code = Ok tag →
  tag = detect_language (Raising.answers json_loads) code.
Proof.
  rewrite detect_language_raising, detect_language_unfold.
  unfold Raising.answers.
  destruct (search no_flags json_start (strip code)); cbn [andb];
    [| by intros [= <-]].
  destruct (json_loads (strip code)) as [v | e].
  - intros [= <-]. by rewrite bool_decide_true by eauto.
  - rewrite bool_decide_false by (intros [? ?]; done).
    destruct (Raising.is_value_error e); [by intros [= <-] | done].
Qed.

Lemma replace_all_returns json_loads ps (out : str) :
  Raising.replace_all (Raising.add_lang_to_fence json_loads) ps = Ok out →
  out = concat (map (render (add_lang_to_fence (Raising.answers json_loads))) ps).
Proof.
  revert out. induction ps as [| p ps IH]; intros out; [by intros [= <-] |].
  destruct p as [c | m]; cbn [Raising.replace_all map concat render].
  - destruct (Raising.replace_all _ ps) as [t |] eqn:E; [| done].
    intros [= <-]. by rewrite (IH t).
  - destruct (Raising.add_lang_to_fence json_loads m) as [s |] eqn:Em; [| done].
    destruct (Raising.replace_all _ ps) as [t |] eqn:E; [| done].
    intros [= <-]. rewrite (IH t) by done. f_equal.
    unfold Raising.add_lang_to_fence, add_lang_to_fence in *.
    destruct (bool_decide (strip (group 2 m) = [])); [| by injection Em].
    destruct (Raising.detect_language json_loads (group 3 m)) as [lang |] eqn:El;
      [| done].
    apply detect_language_returns in El. injection Em as <-. by rewrite El.
Qed.

(** The transform, when it returns, returns the text of the transform
    above. *)
Lemma format_markdown_returns json_loads (t out : str) :
  Raising.format_markdown json_loads t = Ok out →
  out = format_markdown (Raising.answers json_loads) t.
Proof.
  unfold Raising.format_markdown, Raising.rewrite_fences.
  destruct (Raising.replace_all _ _) as [f |] eqn:E; [| done].
  intros [= <-]. apply replace_all_returns in E. by rewrite E.
Qed.

(** Where every fence found carries a tag, the detector is not called
    and the substitution returns the text. *)
Lemma replace_all_tagged json_loads ps :
  (∀ m, Hit m ∈ ps → strip (group 2 m) ≠ []) →
  Raising.replace_all (Raising.add_lang_to_fence json_loads) ps
  = Ok (concat (map written ps)).
Proof.
  induction ps as [| p ps IH]; intros H; [done |].
  assert (Hps : ∀ m, Hit m ∈ ps → strip (group 2 m) ≠ []).
  { intros m Hm. apply H. by right. }
  destruct p as [c | m]; cbn [Raising.replace_all map concat written].
  - by rewrite IH.
  - unfold Raising.add_lang_to_fence at 1.
    rewrite bool_decide_false by (apply H; by left). by rewrite IH.
Qed.

Lemma format_markdown_settled json_loads jl (t : str) :
  Raising.format_markdown json_loads (format_markdown jl t)
  = Ok (format_markdown jl t).
Proof.
  unfold Raising.format_markdown, Raising.rewrite_fences.
  rewrite replace_all_tagged.
  2:{ apply (pieces_same jl).
      - intros m'. apply fence_hit_shape.
      - rewrite scan_written.
        change (concat (map (render (add_lang_to_fence jl))
                  (scan flag_MS fence_pattern 0 None (format_markdown jl t))))
          with (rewrite_fences jl (format_markdown jl t)).
        apply rewrite_fences_same, format_markdown_tagged. }
  rewrite scan_written, drop_0. apply f_equal.
  assert (Hcalm : calm (format_markdown jl t) = true).
  { unfold format_markdown. apply tidy_calm, squeezed_calm. }
  change (collapse_blank_lines ?x) with (squeezed 0 None x).
  rewrite squeezed_calm_id by done.
  unfold format_markdown.
  rewrite rstrip_spaces by (by repeat constructor).
  by rewrite rstrip_rstrip.
Qed.

(** What the body of the [try] does once the request names a markdown
    path, by cases on what the path holds and on how the calls end. *)
Lemma main_markdown_raising json_loads out disk stdin w v p :
  json_loads stdin = Ok v → extract_path v = Ok (PStr p) →
  is_markdown p = true →
  Raising.main json_loads out disk stdin w =
    match files w !! p with
    | None => (Ok tt, w)
    | Some Unreadable => (Raise OSError, note_open p ForReading w)
    | Some Undecodable => (Raise UnicodeDecodeError, note_open p ForReading w)
    | Some (File content writable) =>
        let w1 := note_open p ForReading w in
        match Raising.format_markdown json_loads content with
        | Raise e => (Raise e, w1)
        | Ok formatted =>
            if bool_decide (formatted = content) then (Ok tt, w1)
            else if writable
            then
              if disk
              then (Raise OSError,
                    World (<[p := File [] true]> (files w))
                          (opened w1 ++ [(p, ForWriting)])
                          (stdout w) (stderr w))
              else
                match out with
                | Some e =>
                    (Raise e,
                     World (<[p := File formatted true]> (files w))
                           (opened w1 ++ [(p, ForWriting)])
                           (stdout w) (stderr w))
                | None =>
                    (Ok tt,
                     World (<[p := File formatted true]> (files w))
                           (opened w1 ++ [(p, ForWriting)])
                           (stdout w ++ [Fixed p]) (stderr w))
                end
            else (Raise OSError, note_open p ForWriting w1)
        end
    end.
Proof.
  intros Hv Hp Hmd.
  unfold Raising.main, bind, lift, path_exists, read_text.
  rewrite Hv, Hp, Hmd. cbv beta iota zeta delta [negb].
  destruct (files w !! p) as [[content writable | |] |] eqn:Hf.
  - rewrite bool_decide_true by eauto. cbv beta iota. rewrite Hf.
    destruct (Raising.format_markdown json_loads content) as [formatted | e];
      [| reflexivity].
    destruct (bool_decide _) eqn:Hsame; [reflexivity |].
    unfold Raising.write_text, Raising.print.
    cbn [files note_open opened stdout stderr].
    rewrite Hf. destruct writable; [| reflexivity].
    destruct disk; [reflexivity |]. by destruct out.
  - rewrite bool_decide_true by eauto. cbv beta iota. by rewrite Hf.
  - rewrite bool_decide_true by eauto. cbv beta iota. by rewrite Hf.
  - by rewrite bool_decide_false by (intros [? ?]; done).
Qed.

Lemma run_raising_handled json_loads out disk stdin w e w1 :
  Raising.main json_loads out disk stdin w = (Raise e, w1) →
  handled e = true →
  Raising.run json_loads out disk stdin w = (1%Z, eprint (Failed e) w1).
Proof. unfold Raising.run. intros -> He. by destruct e. Qed.

Lemma run_raising_uncaught json_loads out disk stdin w e w1 :
  Raising.main json_loads out disk stdin w = (Raise e, w1) →
  handled e = false → (∀ status, e ≠ SystemExit status) →
  Raising.run json_loads out disk stdin w = (1%Z, eprint (Traceback e) w1).
Proof.
  unfold Raising.run. intros -> He Hs. destruct e; try done.
  by destruct (Hs status).
Qed.

Lemma run_raising_ok json_loads out disk stdin w w1 :
  Raising.main json_loads out disk stdin w = (Ok tt, w1) →
  Raising.run json_loads out disk stdin w = (0%Z, w1).
Proof. unfold Raising.run. by intros ->. Qed.

(** A decoder that raises nothing but the errors the detector catches
    makes the detector, and with it the transform, return. *)
Lemma detect_language_caught json_loads (code : str) :
  (∀ s e, json_loads s = Raise e → Raising.is_value_error e = true) →
  Raising.detect_language json_loads code
  = Ok (detect_language (Raising.answers json_loads) code).
Proof.
  intros H. rewrite detect_language_raising, detect_language_unfold.
  unfold Raising.answers.
  destruct (search no_flags json_start (strip code)); cbn [andb]; [| done].
  destruct (json_loads (strip code)) as [v | e] eqn:E.
  - by rewrite bool_decide_true by eauto.
  - rewrite (H _ _ E). by rewrite bool_decide_false by (intros [? ?]; done).
Qed.

Lemma replace_all_caught json_loads ps :
  (∀ s e, json_loads s = Raise e → Raising.is_value_error e = true) →
  Raising.replace_all (Raising.add_lang_to_fence json_loads) ps
  = Ok (concat (map (render (add_lang_to_fence (Raising.answers json_loads)))
                  ps)).
Proof.
  intros H. induction ps as [| p ps IH]; [done |].
  destruct p as [c | m]; cbn [Raising.replace_all map concat render].
  - by rewrite IH.
  - rewrite IH. unfold Raising.add_lang_to_fence, add_lang_to_fence.
    destruct (bool_decide (strip (group 2 m) = [])); [| done].
    by rewrite detect_language_caught.
Qed.

Lemma format_markdown_caught json_loads (t : str) :
  (∀ s e, json_loads s = Raise e → Raising.is_value_error e = true) →
  Raising.format_markdown json_loads t
  = Ok (format_markdown (Raising.answers json_loads) t).
Proof.
  intros H. unfold Raising.format_markdown, Raising.rewrite_fences.
  by rewrite replace_all_caught.
Qed.

(** With a decoder that fails with [JSONDecodeError] only, a disk that
    takes the write and a standard output that takes the line, the run
    is the run of the driver above. *)
Lemma run_agrees json_loads stdin w :
  (∀ s e, json_loads s = Raise e → e = JSONDecodeError) →
  Raising.run json_loads None false stdin w
  = run (Raising.answers json_loads) stdin w.
Proof.
  intros H.
  assert (Hmain : Raising.main json_loads None false stdin w
                  = main (Raising.answers json_loads) stdin w).
  { unfold Raising.main, main, bind, lift, json_load, Raising.answers at 1.
    destruct (json_loads stdin) as [v | e] eqn:E; [| by rewrite (H _ _ E)].
    destruct (extract_path v) as [[] |]; try reflexivity.
    destruct (negb (is_markdown _)); [reflexivity |].
    destruct (path_exists _ w) as [[[] |] w1]; try reflexivity.
    destruct (read_text _ w1) as [[content |] w2]; [| reflexivity].
    rewrite format_markdown_caught; [reflexivity |].
    intros s' e' E'. by rewrite (H _ _ E'). }
  unfold Raising.run, run. by rewrite Hmain.
Qed.

(** C5 (the failing input): on a body of 1200 opening brackets and
    1200 closing brackets, on which [json.loads] raises
    [RecursionError], the detector raises: its [except] clause names
    [JSONDecodeError] and [ValueError] only. *)
Theorem deep_brackets_raise json_loads :
  json_loads deep_body = Raise RecursionError →
  Raising.detect_language json_loads deep_body = Raise RecursionError.
Proof.
  intros H. rewrite detect_language_raising.
  replace (strip deep_body) with deep_body by (vm_compute; reflexivity).
  rewrite H.
  replace (search no_flags json_start deep_body) with true
    by (vm_compute; reflexivity).
  reflexivity.
Qed.

Lemma deep_brackets_raise_witness :
  Raising.detect_language deep_loads deep_body = Raise RecursionError.
Proof. apply (deep_brackets_raise deep_loads). vm_compute. reflexivity. Defined.

(** C7: the transform is the fence pass, then the blank-line pass, then
    the strip of trailing whitespace and one newline, and it is
    idempotent: the transform of a transformed text is that text.
    Where [json.loads] may raise, whenever the transform of a text
    returns, the transform of what it returned returns the same. *)
Theorem transform_idempotent (json_loads : str → option pyval)
    (raising_loads : str → res pyval) (t : str) :
  format_markdown json_loads t
  = rstrip (collapse_blank_lines (rewrite_fences json_loads t)) ++ [LF]
  ∧ format_markdown json_loads (format_markdown json_loads t)
    = format_markdown json_loads t
  ∧ ∀ out, Raising.format_markdown raising_loads t = Ok out →
           Raising.format_markdown raising_loads out = Ok out.
Proof.
  split; [reflexivity |]. split; [apply format_markdown_again |].
  intros out H. apply format_markdown_returns in H as ->.
  apply format_markdown_settled.
Qed.

Lemma transform_idempotent_witness :
  Raising.format_markdown sample_raising (hi_doc []) = Ok (hi_doc (lit "text"))
  ∧ Raising.format_markdown sample_raising (hi_doc (lit "text")) = Ok (hi_doc (lit "text")).
Proof.
  assert (H : Raising.format_markdown sample_raising (hi_doc [])
              = Ok (hi_doc (lit "text"))) by (vm_compute; reflexivity).
  split; [exact H |].
  exact (proj2 (proj2 (transform_idempotent sample_loads sample_raising
                         (hi_doc []))) (hi_doc (lit "text")) H).
Defined.

(** C8 (amended): whenever [json.load] rejects standard input with an
    error the handler names, or the request names a markdown file on
    which a read, write or decoding error occurs, the process exits
    with status 1 after the line of the handler on the error stream,
    and nothing is printed on standard output; this for every decoder
    and whatever standard output does. *)
Theorem exit_1_on_documented_errors json_loads stdout_fault disk_fault stdin w :
  documented_error json_loads disk_fault stdin w →
  ∃ e, handled e = true
       ∧ fst (Raising.run json_loads stdout_fault disk_fault stdin w) = 1%Z
       ∧ stderr (snd (Raising.run json_loads stdout_fault disk_fault stdin w))
         = stderr w ++ [Failed e]
       ∧ stdout (snd (Raising.run json_loads stdout_fault disk_fault stdin w))
         = stdout w.
Proof.
  intros [(e & Hno & He) | (v & p & Hv & Hp & Hmd & Hfail)].
  - exists e.
    rewrite (run_raising_handled json_loads _ _ stdin w e w); [done | | done].
    unfold Raising.main, bind, lift. by rewrite Hno.
  - pose proof (main_markdown_raising json_loads stdout_fault disk_fault
                  stdin w v p Hv Hp Hmd) as Hmain.
    destruct (files w !! p) as [[content writable | |] |] eqn:Hf; try done.
    + destruct Hfail as (formatted & Hfmt & Hdiff & Hwrite).
      cbv zeta in Hmain. rewrite Hfmt in Hmain.
      rewrite bool_decide_false in Hmain by done.
      exists OSError. destruct writable.
      * destruct Hwrite as [? | ->]; [done |].
        by rewrite (run_raising_handled _ _ _ _ _ _ _ Hmain).
      * by rewrite (run_raising_handled _ _ _ _ _ _ _ Hmain).
    + exists UnicodeDecodeError.
      by rewrite (run_raising_handled _ _ _ _ _ _ _ Hmain).
    + exists OSError. by rewrite (run_raising_handled _ _ _ _ _ _ _ Hmain).
Qed.

(** Standard input [not json]: status 1 and the line of the handler. *)
Lemma exit_1_on_documented_errors_witness :
  fst (Raising.run sample_raising None false (lit "not json") notes_world) = 1%Z
  ∧ stderr (snd (Raising.run sample_raising None false (lit "not json")
                   notes_world))
    = [Failed JSONDecodeError].
Proof.
  destruct (exit_1_on_documented_errors sample_raising None false
              (lit "not json") notes_world) as (e & He & Hst & Herr & _).
  - left. exists JSONDecodeError. split; reflexivity.
  - split; [exact Hst |]. exact eq_refl.
Defined.

(** X11: when the request names a markdown file that holds text and can
    be written, the transform of the text returns, the write succeeds
    and standard output takes the line, the process exits with status
    0 and the file holds the transform of its text; the file is opened
    for writing and the confirmation printed only when the text
    changes, and nothing goes to the error stream. *)
Theorem run_formats_file json_loads stdin w v p content formatted :
  json_loads stdin = Ok v → extract_path v = Ok (PStr p) →
  is_markdown p = true → files w !! p = Some (File content true) →
  Raising.format_markdown json_loads content = Ok formatted →
  let same := bool_decide (formatted = content) in
  let r := Raising.run json_loads None false stdin w in
  fst r = 0%Z
  ∧ formatted = format_markdown (Raising.answers json_loads) content
  ∧ files (snd r) !! p = Some (File formatted true)
  ∧ opened (snd r)
    = opened w ++ (p, ForReading) :: (if same then [] else [(p, ForWriting)])
  ∧ stdout (snd r) = stdout w ++ (if same then [] else [Fixed p])
  ∧ stderr (snd r) = stderr w.
Proof.
  intros Hv Hp Hmd Hf Hfmt same r.
  pose proof (main_markdown_raising json_loads None false stdin w v p
                Hv Hp Hmd) as Hmain.
  rewrite Hf in Hmain. cbv zeta in Hmain. rewrite Hfmt in Hmain.
  fold same in Hmain.
  split_and!; [| by apply format_markdown_returns | | | |];
    unfold r; destruct same eqn:E;
    rewrite (run_raising_ok _ _ _ _ _ _ Hmain); cbn [fst snd];
    try reflexivity.
  - apply bool_decide_eq_true in E. by rewrite E.
  - cbn [files]. apply lookup_insert_eq.
  - cbn [opened note_open]. by rewrite <- app_assoc.
  - cbn [stdout note_open]. by rewrite app_nil_r.
Qed.

Lemma run_formats_file_witness :
  fst (Raising.run readme_raising None false [] readme_world) = 0%Z
  ∧ files (snd (Raising.run readme_raising None false [] readme_world))
    !! readme_path = Some (File (lit "a note" ++ [LF]) true)
  ∧ stdout (snd (Raising.run readme_raising None false [] readme_world))
    = [Fixed readme_path].
Proof.
  pose proof (run_formats_file readme_raising [] readme_world readme_value
                readme_path (lit "a note   ") (lit "a note" ++ [LF])
                eq_refl eq_refl eq_refl eq_refl eq_refl) as H.
  cbv zeta in H. destruct H as (H1 & _ & H3 & _ & H5 & _).
  split; [exact H1 |]. split; [exact H3 |]. exact H5.
Defined.

(** X19: when a first run of the hook has formatted a markdown file
    (the transform of its text returned, the write succeeded and
    standard output took the line), a second run on the same request
    in the world the first one left finds the file formatted: it exits
    with status 0 after reading the file, writes nothing and prints
    nothing, whatever the disk and standard output would do. *)
Theorem run_twice json_loads stdout_fault disk_fault stdin w v p content
    formatted :
  json_loads stdin = Ok v → extract_path v = Ok (PStr p) →
  is_markdown p = true → files w !! p = Some (File content true) →
  Raising.format_markdown json_loads content = Ok formatted →
  let w1 := snd (Raising.run json_loads None false stdin w) in
  Raising.run json_loads stdout_fault disk_fault stdin w1
  = (0%Z, note_open p ForReading w1).
Proof.
  intros Hv Hp Hmd Hf Hfmt w1.
  assert (Hf1 : files w1 !! p = Some (File formatted true)).
  { pose proof (main_markdown_raising json_loads None false stdin w v p
                  Hv Hp Hmd) as Hmain.
    rewrite Hf in Hmain. cbv zeta in Hmain. rewrite Hfmt in Hmain.
    unfold w1. destruct (bool_decide (formatted = content)) eqn:E;
      rewrite (run_raising_ok _ _ _ _ _ _ Hmain); cbn [snd files note_open].
    - apply bool_decide_eq_true in E. by rewrite E.
    - apply lookup_insert_eq. }
  pose proof (main_markdown_raising json_loads stdout_fault disk_fault
                stdin w1 v p Hv Hp Hmd) as Hmain.
  rewrite Hf1 in Hmain. cbv zeta in Hmain.
  pose proof (format_markdown_returns _ _ _ Hfmt) as Hout.
  rewrite Hout in Hmain at 1. rewrite format_markdown_settled in Hmain.
  rewrite <- Hout in Hmain.
  rewrite bool_decide_true in Hmain by done.
  by apply run_raising_ok.
Qed.

Lemma run_twice_witness :
  Raising.run readme_raising None false []
    (snd (Raising.run readme_raising None false [] readme_world))
  = (0%Z, note_open readme_path ForReading
            (snd (Raising.run readme_raising None false [] readme_world))).
Proof.
  apply (run_twice readme_raising None false [] readme_world readme_value
           readme_path (lit "a note   ") (lit "a note" ++ [LF]));
    reflexivity.
Defined.

(** X26: when the request names a markdown file that holds text and the
    transform of the text raises an exception that the handler does
    not name (as [RecursionError] from [json.loads] on a body of
    deeply nested brackets), the process exits with status 1 and the
    report of the interpreter on the error stream; the file was opened
    for reading only, nothing was written and nothing printed. *)
Theorem uncaught_error_in_transform json_loads stdout_fault disk_fault stdin w
    v p content writable e :
  json_loads stdin = Ok v → extract_path v = Ok (PStr p) →
  is_markdown p = true → files w !! p = Some (File content writable) →
  Raising.format_markdown json_loads content = Raise e →
  handled e = false → (∀ status, e ≠ SystemExit status) →
  Raising.run json_loads stdout_fault disk_fault stdin w
  = (1%Z, eprint (Traceback e) (note_open p ForReading w)).
Proof.
  intros Hv Hp Hmd Hf Hfmt He Hexit.
  pose proof (main_markdown_raising json_loads stdout_fault disk_fault
                stdin w v p Hv Hp Hmd) as Hmain.
  rewrite Hf in Hmain. cbv zeta in Hmain. rewrite Hfmt in Hmain.
  by apply run_raising_uncaught.
Qed.

Lemma uncaught_error_in_transform_witness :
  Raising.run deep_request None false [] deep_world
  = (1%Z, eprint (Traceback RecursionError)
            (note_open readme_path ForReading deep_world)).
Proof.
  apply (uncaught_error_in_transform deep_request None false [] deep_world
           readme_value readme_path deep_doc true RecursionError).
  - reflexivity.
  - reflexivity.
  - reflexivity.
  - reflexivity.
  - vm_compute. reflexivity.
  - reflexivity.
  - discriminate.
Defined.

(** X27: the confirmation is printed after the file has been written:
    when [print] raises (as [UnicodeEncodeError] does on a standard
    output that cannot encode the check mark of the message), the
    file already holds the transform of its text, nothing is on
    standard output, and the process exits with status 1, after the
    line of the handler when the handler names the exception and after
    the report of the interpreter when it does not. *)
Theorem print_fails_after_write json_loads stdin w v p content formatted e :
  json_loads stdin = Ok v → extract_path v = Ok (PStr p) →
  is_markdown p = true → files w !! p = Some (File content true) →
  Raising.format_markdown json_loads content = Ok formatted →
  formatted ≠ content → (∀ status, e ≠ SystemExit status) →
  let r := Raising.run json_loads (Some e) false stdin w in
  fst r = 1%Z
  ∧ files (snd r) !! p = Some (File formatted true)
  ∧ opened (snd r) = opened w ++ [(p, ForReading); (p, ForWriting)]
  ∧ stdout (snd r) = stdout w
  ∧ stderr (snd r)
    = stderr w ++ [if handled e then Failed e else Traceback e].
Proof.
  intros Hv Hp Hmd Hf Hfmt Hdiff Hexit r.
  pose proof (main_markdown_raising json_loads (Some e) false stdin w v p
                Hv Hp Hmd) as Hmain.
  rewrite Hf in Hmain. cbv zeta in Hmain. rewrite Hfmt in Hmain.
  rewrite bool_decide_false in Hmain by done.
  unfold r. destruct (handled e) eqn:He.
  - rewrite (run_raising_handled _ _ _ _ _ _ _ Hmain He). cbn [fst snd].
    split_and!; try reflexivity.
    + cbn [files eprint]. apply lookup_insert_eq.
    + cbn [opened eprint note_open]. by rewrite <- app_assoc.
  - rewrite (run_raising_uncaught _ _ _ _ _ _ _ Hmain He Hexit). cbn [fst snd].
    split_and!; try reflexivity.
    + cbn [files eprint]. apply lookup_insert_eq.
    + cbn [opened eprint note_open]. by rewrite <- app_assoc.
Qed.

Lemma print_fails_after_write_witness :
  fst (Raising.run readme_raising (Some UnicodeEncodeError) false []
         readme_world) = 1%Z
  ∧ files (snd (Raising.run readme_raising (Some UnicodeEncodeError) false []
                  readme_world)) !! readme_path
    = Some (File (lit "a note" ++ [LF]) true)
  ∧ stderr (snd (Raising.run readme_raising (Some UnicodeEncodeError) false []
                   readme_world))
    = [Traceback UnicodeEncodeError].
Proof.
  pose proof (print_fails_after_write readme_raising [] readme_world
                readme_value readme_path (lit "a note   ")
                (lit "a note" ++ [LF]) UnicodeEncodeError
                eq_refl eq_refl eq_refl eq_refl eq_refl) as H.
  cbv zeta in H. destruct H as (H1 & H2 & _ & _ & H5).
  - discriminate.
  - discriminate.
  - split; [exact H1 |]. split; [exact H2 |]. exact H5.
Defined.
